(** * PriorityDict: a dictionary kept in value sort order

    A shallow embedding of [prioritydict.py].  A [PriorityDict] owns a hash
    index [_dict] (key -> value) and a [SortedList] [_list] of
    [(value, key)] pairs.  Keys are strings and values are integers, the
    types of the examples in the module's docstrings.

    The file has two parts: the embedding (Python runtime fragments, the
    contract of [sortedcontainers.SortedList], then the classes of the
    module), and the properties proved about it. *)

From Stdlib Require Import ZArith String Ascii List Sorted Lia.
From Stdlib Require Import Structures.OrderedTypeEx.
From stdpp Require Import gmap strings list fin_maps sorting.

Local Open Scope string_scope.
Local Open Scope Z_scope.

(** An entry of the Order Index: the tuple [(value, key)]. *)
Abbreviation item := (Z * string)%type.

(* ================================================================== *)
(** * Python runtime fragments *)

Module Py.

(** Exceptions that the module's code paths can raise. [Unmodelled] marks
    an argument whose key is not a string or whose value is not an integer:
    Python accepts it, the key and value types fixed here do not. *)
Inductive exn :=
| KeyError | IndexError | ValueError | TypeError | AttributeError
| Unmodelled.

(** Result of running a method on a mutable object whose state is [S]: the
    state is reported in both cases, since a raise does not roll anything
    back. *)
Inductive outcome (S A : Type) :=
| Return (a : A) (s : S)
| Raise (e : exn) (s : S).
Arguments Return {S A} a s.
Arguments Raise {S A} e s.

Definition final {S A} (o : outcome S A) : S :=
  match o with Return _ s => s | Raise _ s => s end.

Definition returned {S A} (o : outcome S A) : option A :=
  match o with Return a _ => Some a | Raise _ _ => None end.

Definition raised {S A} (o : outcome S A) : option exn :=
  match o with Return _ _ => None | Raise e _ => Some e end.

Definition M (S A : Type) : Type := S -> outcome S A.

#[global] Instance M_ret {S} : MRet (M S) := fun A a s => Return a s.
#[global] Instance M_bind {S} : MBind (M S) := fun A B f m s =>
  match m s with
  | Return a s' => f a s'
  | Raise e s' => Raise e s'
  end.

Definition raise {S A} (e : exn) : M S A := fun s => Raise e s.
Definition get {S} : M S S := fun s => Return s s.
Definition put {S} (s : S) : M S unit := fun _ => Return tt s.

(** [for x in xs: body(x)] *)
Fixpoint for_each {S A} (xs : list A) (body : A -> M S unit) : M S unit :=
  match xs with
  | [] => mret tt
  | x :: xs' => body x ;; for_each xs' body
  end.

(** A mapping passed as an operand ([that], [items]), given by the
    [(key, value)] sequence that [iter_items] yields for it. *)
Abbreviation mapping := (list (string * Z)).

(** [m[k] = v] on a dict in insertion order. *)
Fixpoint mapping_set (k : string) (v : Z) (m : mapping) : mapping :=
  match m with
  | [] => [(k, v)]
  | (k', v') :: m' =>
      if String.eqb k k' then (k, v) :: m' else (k', v') :: mapping_set k v m'
  end.

Fixpoint mapping_get (k : string) (m : mapping) : option Z :=
  match m with
  | [] => None
  | (k', v') :: m' => if String.eqb k k' then Some v' else mapping_get k m'
  end.

(** Objects that an iterable argument may yield. *)
#[warnings="-register-all"]
Inductive object :=
| Int (z : Z)
| Str (s : string)
| Tuple (xs : list object).

(** The positional argument of [dict(...)]: a mapping or an iterable. *)
Inductive arg :=
| Mapping (m : mapping)
| Iterable (xs : list object).

(** [list(o)]: an integer is not iterable, a string yields its characters. *)
Definition as_sequence (o : object) : option (list object) :=
  match o with
  | Int _ => None
  | Str s => Some (map (fun c => Str (String c EmptyString)) (list_ascii_of_string s))
  | Tuple xs => Some xs
  end.

(** One element of the iterable handed to [dict]: it must be a sequence of
    length two. *)
Definition dict_entry (o : object) : exn + (string * Z) :=
  match as_sequence o with
  | None => inl TypeError
  | Some [Str k; Int v] => inr (k, v)
  | Some [_; _] => inl Unmodelled
  | Some _ => inl ValueError
  end.

Fixpoint dict_of_iterable (xs : list object) (acc : mapping) : exn + mapping :=
  match xs with
  | [] => inr acc
  | o :: xs' =>
      match dict_entry o with
      | inl e => inl e
      | inr (k, v) => dict_of_iterable xs' (mapping_set k v acc)
      end
  end.

(** The call [dict(args, kwargs)] with at most one positional argument;
    keyword arguments are applied last. *)
Definition dict (args : option arg) (kwargs : mapping) : exn + mapping :=
  let base :=
    match args with
    | None => inr []
    | Some (Mapping m) => inr (foldl (fun acc kv => mapping_set kv.1 kv.2 acc) [] m)
    | Some (Iterable xs) => dict_of_iterable xs []
    end in
  match base with
  | inl e => inl e
  | inr m => inr (foldl (fun acc kv => mapping_set kv.1 kv.2 acc) m kwargs)
  end.

(** [collections.Counter(iterable)]: tally the elements, from zero. *)
Definition Counter (elements : list string) : mapping :=
  foldl (fun acc k => mapping_set k (default 0 (mapping_get k acc) + 1) acc) [] elements.

(** [range(start, stop, step)] for [step <> 0]. *)
Definition range_len (start stop step : Z) : nat :=
  if 0 <? step then
    if start <? stop then Z.to_nat ((stop - start - 1) / step + 1) else O
  else
    if stop <? start then Z.to_nat ((start - stop - 1) / (- step) + 1) else O.

Definition range (start stop step : Z) : list Z :=
  map (fun i => start + Z.of_nat i * step) (seq 0 (range_len start stop step)).

(** A slice object; [None] is an omitted bound. *)
Record slice := Slice { start : option Z; stop : option Z; step : option Z }.

(** [slice.indices(len)]: [ValueError] on a zero step. *)
Definition slice_indices (s : slice) (len : Z) : option (Z * Z * Z) :=
  let st := default 1 (step s) in
  if st =? 0 then None else
  let lower := if st <? 0 then -1 else 0 in
  let upper := if st <? 0 then len - 1 else len in
  let clamp i := if i <? 0 then Z.max (i + len) lower else Z.min i upper in
  let a := match start s with
           | None => if st <? 0 then upper else lower
           | Some i => clamp i
           end in
  let b := match stop s with
           | None => if st <? 0 then lower else upper
           | Some i => clamp i
           end in
  Some (a, b, st).

(** Positions selected by a slice on a sequence of length [len]. *)
Definition slice_positions (s : slice) (len : Z) : option (list Z) :=
  match slice_indices s len with
  | None => None
  | Some (a, b, st) => Some (range a b st)
  end.

(** Position denoted by an integer index: negative indices count from the
    end; [None] is out of range. *)
Definition position (len : Z) (i : Z) : option nat :=
  let j := if i <? 0 then i + len else i in
  if (0 <=? j) && (j <? len) then Some (Z.to_nat j) else None.

(** The positional argument of [Counter(...)]: a mapping of counts or an
    iterable of elements. *)
Inductive counter_arg :=
| Counts (m : mapping)
| Elements (xs : list string).

(** [Counter.update] on the counter [acc]: a mapping adds its counts (an
    empty counter takes it over as it is), an iterable adds one per
    element. *)
Definition Counter_update (acc : mapping) (a : counter_arg) : mapping :=
  match a with
  | Counts m =>
      match acc with
      | [] => foldl (fun c kv => mapping_set kv.1 kv.2 c) [] m
      | _ =>
          foldl (fun c kv => mapping_set kv.1 (default 0 (mapping_get kv.1 c) + kv.2) c)
                acc m
      end
  | Elements xs =>
      foldl (fun c k => mapping_set k (default 0 (mapping_get k c) + 1) c) acc xs
  end.

(** The call [Counter(args, kwargs)] with at most one positional argument;
    keyword counts are added last. *)
Definition Counter_new (args : option counter_arg) (kwargs : mapping) : mapping :=
  let c := match args with
           | None => []
           | Some a => Counter_update [] a
           end in
  match kwargs with
  | [] => c
  | _ => Counter_update c (Counts kwargs)
  end.

End Py.
Export Py.

(* ================================================================== *)
(** * The contract of [sortedcontainers.SortedList]

    The Ordered Sequence Store is an external collaborator: a sequence of
    [(value, key)] tuples kept in ascending order.  It is modelled by its
    documented behaviour on a plain list, not by its internals. *)

Module SortedList.

(** Tuple comparison [x < y] on [(value, key)] pairs: first components
    decide unless equal, then the keys. *)
Definition item_ltb (x y : item) : bool :=
  (x.1 <? y.1) || ((x.1 =? y.1) && String.ltb x.2 y.2).

Definition item_eqb (x y : item) : bool :=
  (x.1 =? y.1) && String.eqb x.2 y.2.

(** Probes handed to the bisection methods: the 1-tuple [(value,)], the
    tuple [(value, _Biggest)], or a stored tuple. *)
Inductive probe :=
| ProbeValue (v : Z)
| ProbeBiggest (v : Z)
| ProbeItem (x : item).

(** [x < p] for a stored tuple [x] and a probe [p].  Against [(value,)] the
    first components decide; when they are equal the longer tuple is the
    greater one.  Against [(value, _Biggest)] the keys are compared with
    [key < _Biggest], which reflects to [_Biggest.__gt__] and is true. *)
Definition item_lt_probe (x : item) (p : probe) : bool :=
  match p with
  | ProbeValue v => x.1 <? v
  | ProbeBiggest v => (x.1 <? v) || (x.1 =? v)
  | ProbeItem y => item_ltb x y
  end.

(** [p < x] for a probe [p] and a stored tuple [x].  [(value,)] is a proper
    prefix of [(value, key)], hence smaller.  For [(value, _Biggest)] the
    keys are compared with [_Biggest.__eq__] (false) and then
    [_Biggest.__lt__] (false). *)
Definition probe_lt_item (p : probe) (x : item) : bool :=
  match p with
  | ProbeValue v => (v <? x.1) || (v =? x.1)
  | ProbeBiggest v => v <? x.1
  | ProbeItem y => item_ltb y x
  end.

(** [add]: insert after the entries that are not greater. *)
Fixpoint add (x : item) (l : list item) : list item :=
  match l with
  | [] => [x]
  | y :: l' => if item_ltb x y then x :: y :: l' else y :: add x l'
  end.

(** [remove]: drop the entry equal to [x]; [None] stands for [ValueError]. *)
Fixpoint remove (x : item) (l : list item) : option (list item) :=
  match l with
  | [] => None
  | y :: l' =>
      if item_eqb x y then Some l'
      else match remove x l' with
           | Some r => Some (y :: r)
           | None => None
           end
  end.

(** [update]: add every element of the iterable. *)
Definition update (xs : list item) (l : list item) : list item :=
  foldl (fun acc x => add x acc) l xs.

(** [index]: position of the entry equal to [x]; [None] stands for
    [ValueError]. *)
Fixpoint index (x : item) (l : list item) : option Z :=
  match l with
  | [] => None
  | y :: l' =>
      if item_eqb x y then Some 0
      else match index x l' with
           | Some i => Some (i + 1)
           | None => None
           end
  end.

(** [bisect_left]: the number of leading entries smaller than the probe. *)
Fixpoint bisect_left (l : list item) (p : probe) : Z :=
  match l with
  | [] => 0
  | x :: l' => if item_lt_probe x p then 1 + bisect_left l' p else 0
  end.

(** [bisect_right]: the number of leading entries the probe is not smaller
    than. *)
Fixpoint bisect_right (l : list item) (p : probe) : Z :=
  match l with
  | [] => 0
  | x :: l' => if probe_lt_item p x then 0 else 1 + bisect_right l' p
  end.

(** [l[i]]; [None] stands for [IndexError]. *)
Definition getitem (l : list item) (i : Z) : option item :=
  match position (Z.of_nat (length l)) i with
  | Some j => l !! j
  | None => None
  end.

(** [del l[i]]; [None] stands for [IndexError]. *)
Definition delitem (l : list item) (i : Z) : option (list item) :=
  match position (Z.of_nat (length l)) i with
  | Some j => Some (delete j l)
  | None => None
  end.

(** [pop(i)]: the entry at [i] and the list without it. *)
Definition pop (l : list item) (i : Z) : option (item * list item) :=
  match getitem l i, delitem l i with
  | Some x, Some l' => Some (x, l')
  | _, _ => None
  end.

(** [l[s]] for a slice [s]: the entries at the selected positions, in the
    order the slice visits them; [None] stands for [ValueError]. *)
Definition getslice (l : list item) (s : slice) : option (list item) :=
  match slice_positions s (Z.of_nat (length l)) with
  | Some ps => Some (omap (fun p => l !! Z.to_nat p) ps)
  | None => None
  end.

(** The entries of [l] whose position, counted from [n], is not in [ps]. *)
Fixpoint drop_positions (ps : list Z) (n : Z) (l : list item) : list item :=
  match l with
  | [] => []
  | x :: l' =>
      if bool_decide (n ∈ ps) then drop_positions ps (n + 1) l'
      else x :: drop_positions ps (n + 1) l'
  end.

(** [del l[s]] for a slice [s]. *)
Definition delslice (l : list item) (s : slice) : option (list item) :=
  match slice_positions s (Z.of_nat (length l)) with
  | Some ps => Some (drop_positions ps 0 l)
  | None => None
  end.

End SortedList.

(* ================================================================== *)
(** * class PriorityDict *)

(** The subscript of [iloc]: an integer index or a slice. *)
Inductive subscript :=
| Index (i : Z)
| SliceOf (s : slice).

Module PriorityDict.

(** The two indices owned by a container. *)
Record t := { _dict : gmap string Z; _list : list item }.

(** The state set up by the first two lines of [__init__]. *)
Definition empty : t := {| _dict := ∅; _list := [] |}.

(** ** Operations of the built-in dict [self._dict] *)

Definition dict_contains (key : string) : M t bool := fun s =>
  Return (bool_decide (is_Some (_dict s !! key))) s.

Definition dict_getitem (key : string) : M t Z := fun s =>
  match _dict s !! key with
  | Some v => Return v s
  | None => Raise KeyError s
  end.

Definition dict_setitem (key : string) (value : Z) : M t unit := fun s =>
  Return tt {| _dict := <[key := value]> (_dict s); _list := _list s |}.

Definition dict_delitem (key : string) : M t unit := fun s =>
  match _dict s !! key with
  | Some _ => Return tt {| _dict := delete key (_dict s); _list := _list s |}
  | None => Raise KeyError s
  end.

Definition dict_pop (key : string) : M t Z :=
  v ← dict_getitem key; dict_delitem key ;; mret v.

Definition dict_len : M t Z := fun s => Return (Z.of_nat (size (_dict s))) s.

Definition dict_clear : M t unit := fun s =>
  Return tt {| _dict := ∅; _list := _list s |}.

Definition dict_update (m : mapping) : M t unit :=
  for_each m (fun kv => dict_setitem kv.1 kv.2).

(** [iter_items(_dict)] *)
Definition dict_items : M t mapping := fun s => Return (map_to_list (_dict s)) s.

(** ** Operations of the SortedList [self._list] *)

Definition lift_list {A} (e : exn) (f : list item -> option (A * list item)) : M t A :=
  fun s =>
    match f (_list s) with
    | Some (a, l) => Return a {| _dict := _dict s; _list := l |}
    | None => Raise e s
    end.

Definition list_add (x : item) : M t unit :=
  lift_list ValueError (fun l => Some (tt, SortedList.add x l)).

Definition list_remove (x : item) : M t unit :=
  lift_list ValueError (fun l => pair tt <$> SortedList.remove x l).

Definition list_clear : M t unit :=
  lift_list ValueError (fun l => Some (tt, [])).

Definition list_update (xs : list item) : M t unit :=
  lift_list ValueError (fun l => Some (tt, SortedList.update xs l)).

Definition list_index (x : item) : M t Z :=
  lift_list ValueError (fun l => (fun i => (i, l)) <$> SortedList.index x l).

Definition list_pop (i : Z) : M t item :=
  lift_list IndexError (fun l => SortedList.pop l i).

Definition list_getitem (i : Z) : M t item :=
  lift_list IndexError (fun l => (fun x => (x, l)) <$> SortedList.getitem l i).

Definition list_delitem (i : Z) : M t unit :=
  lift_list IndexError (fun l => pair tt <$> SortedList.delitem l i).

Definition list_getslice (s : slice) : M t (list item) :=
  lift_list ValueError (fun l => (fun xs => (xs, l)) <$> SortedList.getslice l s).

Definition list_delslice (s : slice) : M t unit :=
  lift_list ValueError (fun l => pair tt <$> SortedList.delslice l s).

(** [(value, key) for key, value in ...] *)
Definition swap (kv : string * Z) : item := (kv.2, kv.1).

(** [_list.update((value, key) for key, value in iter_items(_dict))] *)
Definition rebuild : M t unit :=
  its ← dict_items; list_update (swap <$> its).

(** ** Methods *)

Definition clear : M t unit := dict_clear ;; list_clear.

Definition bisect_left (self : t) (value : Z) : Z :=
  SortedList.bisect_left (_list self) (SortedList.ProbeValue value).

Definition bisect (self : t) (value : Z) : Z :=
  SortedList.bisect_right (_list self) (SortedList.ProbeValue value).

Definition bisect_right (self : t) (value : Z) : Z :=
  SortedList.bisect_right (_list self) (SortedList.ProbeBiggest value).

Definition clean (value : Z) : M t unit :=
  self ← get;
  let pos := bisect_right self value in
  head ← list_getslice (Slice None (Some pos) None);
  for_each head (fun x => dict_delitem x.2) ;;
  list_delslice (Slice None (Some pos) None).

Definition __contains__ (self : t) (key : string) : bool :=
  bool_decide (is_Some (_dict self !! key)).

Definition __delitem__ (key : string) : M t unit :=
  value ← dict_getitem key;
  list_remove (value, key) ;;
  dict_delitem key.

Definition __getitem__ (key : string) : M t Z := dict_getitem key.

Definition __iter__ (self : t) : list string := snd <$> _list self.

Definition __reversed__ (self : t) : list string := snd <$> reverse (_list self).

Definition __len__ (self : t) : Z := Z.of_nat (size (_dict self)).

Definition __setitem__ (key : string) (value : Z) : M t unit :=
  present ← dict_contains key;
  (if present : bool then
     old_value ← dict_getitem key;
     list_remove (old_value, key)
   else mret tt) ;;
  list_add (value, key) ;;
  dict_setitem key value.

Definition get (self : t) (key : string) (default : option Z) : option Z :=
  match _dict self !! key with
  | Some v => Some v
  | None => default
  end.

(** [pop(key, default)]; [default = None] stands for [_NotGiven]. *)
Definition pop (key : string) (default : option Z) : M t Z :=
  present ← dict_contains key;
  if present : bool then
    value ← dict_getitem key;
    list_remove (value, key) ;;
    dict_pop key
  else
    match default with
    | None => raise KeyError
    | Some d => mret d
    end.

Definition popitem (index : Z) : M t (string * Z) :=
  x ← list_pop index;
  dict_delitem x.2 ;;
  mret (x.2, x.1).

Definition setdefault (key : string) (default : Z) : M t Z :=
  present ← dict_contains key;
  if present : bool then dict_getitem key
  else
    dict_setitem key default ;;
    list_add (default, key) ;;
    mret default.

(** [[f(x) for x in xs]] with a fallible [f]. *)
Fixpoint collect {A B} (xs : list A) (f : A -> M t B) : M t (list B) :=
  match xs with
  | [] => mret []
  | x :: xs' => y ← f x; ys ← collect xs' f; mret (y :: ys)
  end.

(** [most_common(count)]; [count = None] returns all entries. *)
Definition most_common (count : option Z) : M t (list (string * Z)) :=
  match count with
  | None => self ← Py.get; mret ((fun x : item => (x.2, x.1)) <$> reverse (_list self))
  | Some count =>
      n ← dict_len;
      let end_ := n - 1 in
      let start_ := Z.max (end_ - count) (-1) in
      items ← collect (range end_ start_ (-1)) list_getitem;
      mret ((fun x : item => (x.2, x.1)) <$> items)
  end.

(** [update(args, kwargs)] *)
Definition update (args : option arg) (kwargs : mapping) : M t unit :=
  match dict args kwargs with
  | inl e => raise e
  | inr items =>
      n ← dict_len;
      if n <? 10 * Z.of_nat (length items) then
        dict_update items ;;
        list_clear ;;
        rebuild
      else
        for_each items (fun kv =>
          let key := kv.1 in
          let value := kv.2 in
          old_value ← dict_getitem key;
          list_remove (old_value, key) ;;
          dict_setitem key value ;;
          list_add (value, key))
  end.

(** [PriorityDict(args, kwargs)]: the outcome of [__init__] on the fresh
    object. *)
Definition __init__ (args : option arg) (kwargs : mapping) : outcome t unit :=
  update args kwargs empty.

(** The classmethod [count]: initialise from a [Counter]. *)
Definition count (elements : list string) : outcome t unit :=
  __init__ (Some (Mapping (Counter elements))) [].

Definition index (key : string) : M t Z :=
  value ← dict_getitem key;
  list_index (value, key).

(** ** In-place merges; [that] is the operand's item sequence *)

(** [__iadd__]: add values from [that]. *)
Definition __iadd__ (that : mapping) : M t unit :=
  n ← dict_len;
  if n =? 0 then
    dict_update that ;;
    rebuild
  else if n <? Z.of_nat (length that) * 3 then
    list_clear ;;
    for_each that (fun kv =>
      let key := kv.1 in
      let value := kv.2 in
      present ← dict_contains key;
      if present : bool then
        old_value ← dict_getitem key;
        dict_setitem key (old_value + value)
      else dict_setitem key value) ;;
    rebuild
  else
    for_each that (fun kv =>
      let key := kv.1 in
      let value := kv.2 in
      present ← dict_contains key;
      value ← (if present : bool then
                 old_value ← dict_getitem key;
                 list_remove (old_value, key) ;;
                 mret (old_value + value)
               else mret value);
      dict_setitem key value ;;
      list_add (value, key)).

(** [__isub__]: subtract values from [that]. *)
Definition __isub__ (that : mapping) : M t unit :=
  n ← dict_len;
  if n =? 0 then
    dict_clear ;;
    list_clear
  else if n <? Z.of_nat (length that) * 3 then
    list_clear ;;
    for_each that (fun kv =>
      let key := kv.1 in
      let value := kv.2 in
      present ← dict_contains key;
      if present : bool then
        old_value ← dict_getitem key;
        dict_setitem key (old_value - value)
      else mret tt) ;;
    rebuild
  else
    for_each that (fun kv =>
      let key := kv.1 in
      let value := kv.2 in
      present ← dict_contains key;
      if present : bool then
        old_value ← dict_getitem key;
        list_remove (old_value, key) ;;
        let value := old_value - value in
        dict_setitem key value ;;
        list_add (value, key)
      else mret tt).

(** [__ior__]: max of the values with [that]. *)
Definition __ior__ (that : mapping) : M t unit :=
  n ← dict_len;
  if n =? 0 then
    dict_update that ;;
    rebuild
  else if n <? Z.of_nat (length that) * 3 then
    list_clear ;;
    for_each that (fun kv =>
      let key := kv.1 in
      let value := kv.2 in
      present ← dict_contains key;
      if present : bool then
        old_value ← dict_getitem key;
        dict_setitem key (Z.max old_value value)
      else dict_setitem key value) ;;
    rebuild
  else
    for_each that (fun kv =>
      let key := kv.1 in
      let value := kv.2 in
      present ← dict_contains key;
      value ← (if present : bool then
                 old_value ← dict_getitem key;
                 list_remove (old_value, key) ;;
                 mret (Z.max old_value value)
               else mret value);
      dict_setitem key value ;;
      list_add (value, key)).

(** [__iand__]: min of the values with [that]. *)
Definition __iand__ (that : mapping) : M t unit :=
  n ← dict_len;
  if n =? 0 then
    dict_clear ;;
    list_clear
  else if n <? Z.of_nat (length that) * 3 then
    list_clear ;;
    for_each that (fun kv =>
      let key := kv.1 in
      let value := kv.2 in
      present ← dict_contains key;
      if present : bool then
        old_value ← dict_getitem key;
        dict_setitem key (Z.min old_value value)
      else mret tt) ;;
    rebuild
  else
    for_each that (fun kv =>
      let key := kv.1 in
      let value := kv.2 in
      present ← dict_contains key;
      if present : bool then
        old_value ← dict_getitem key;
        list_remove (old_value, key) ;;
        let value := Z.min old_value value in
        dict_setitem key value ;;
        list_add (value, key)
      else mret tt).

(** ** Copy-producing merges

    Each builds [result = PriorityDict()] and fills it; the outcome's state
    is [result], and [self] is only read. *)

Definition on_new (body : M t unit) : outcome t unit :=
  match __init__ None [] with
  | Return _ result => body result
  | Raise e s => Raise e s
  end.

Definition __add__ (self : t) (that : mapping) : outcome t unit :=
  on_new (
    dict_update (map_to_list (_dict self)) ;;
    for_each that (fun kv =>
      let key := kv.1 in
      let value := kv.2 in
      present ← dict_contains key;
      if present : bool then
        old_value ← dict_getitem key;
        dict_setitem key (old_value + value)
      else dict_setitem key value) ;;
    rebuild).

Definition __sub__ (self : t) (that : mapping) : outcome t unit :=
  on_new (
    dict_update (map_to_list (_dict self)) ;;
    for_each that (fun kv =>
      let key := kv.1 in
      let value := kv.2 in
      present ← dict_contains key;
      if present : bool then
        old_value ← dict_getitem key;
        dict_setitem key (old_value - value)
      else mret tt) ;;
    rebuild).

Definition __or__ (self : t) (that : mapping) : outcome t unit :=
  on_new (
    dict_update (map_to_list (_dict self)) ;;
    for_each that (fun kv =>
      let key := kv.1 in
      let value := kv.2 in
      present ← dict_contains key;
      if present : bool then
        old_value ← dict_getitem key;
        dict_setitem key (Z.max old_value value)
      else dict_setitem key value) ;;
    rebuild).

Definition __and__ (self : t) (that : mapping) : outcome t unit :=
  on_new (
    dict_update (map_to_list (_dict self)) ;;
    for_each that (fun kv =>
      let key := kv.1 in
      let value := kv.2 in
      present ← dict_contains key;
      if present : bool then
        old_value ← dict_getitem key;
        dict_setitem key (Z.min old_value value)
      else mret tt) ;;
    rebuild).

(** ** Further methods *)

(** The classmethod [fromkeys(iterable, value)]. *)
Definition fromkeys (iterable : list string) (value : Z) : outcome t unit :=
  __init__ (Some (Iterable ((fun key => Tuple [Str key; Int value]) <$> iterable))) [].

Definition has_key (self : t) (key : string) : bool :=
  bool_decide (is_Some (_dict self !! key)).

(** [elements()]: each key repeated as many times as its count; [repeat]
    yields nothing for a count below one. *)
Definition elements (self : t) : list string :=
  x ← _list self; replicate (Z.to_nat x.1) x.2.

(** [subtract(elements)]: [self -= Counter(elements)]. *)
Definition subtract (elements : counter_arg) : M t unit :=
  __isub__ (Counter_new (Some elements) []).

(** [tally(args, kwargs)]: [self += Counter(args, kwargs)]. *)
Definition tally (args : option counter_arg) (kwargs : mapping) : M t unit :=
  __iadd__ (Counter_new args kwargs).

(** *** Comparisons; [that] is the dict that the operand stands for (its
    own [_dict] when it is a [PriorityDict]) *)

Definition __eq__ (self : t) (that : gmap string Z) : bool :=
  bool_decide (_dict self = that).

Definition __ne__ (self : t) (that : gmap string Z) : bool :=
  negb (bool_decide (_dict self = that)).

Definition __le__ (self : t) (that : gmap string Z) : bool :=
  (Z.of_nat (size (_dict self)) <=? Z.of_nat (size that))
  && forallb (fun kv : string * Z =>
                match that !! kv.1 with
                | Some w => kv.2 <=? w
                | None => false
                end)
             (map_to_list (_dict self)).

Definition __lt__ (self : t) (that : gmap string Z) : bool :=
  negb (bool_decide (_dict self = that)) && __le__ self that.

Definition __ge__ (self : t) (that : gmap string Z) : bool :=
  (Z.of_nat (size (_dict self)) >=? Z.of_nat (size that))
  && forallb (fun kv : string * Z =>
                match _dict self !! kv.1 with
                | Some v => v >=? kv.2
                | None => false
                end)
             (map_to_list that).

Definition __gt__ (self : t) (that : gmap string Z) : bool :=
  negb (bool_decide (_dict self = that)) && __ge__ self that.

(** [isdisjoint(that)]; [that] is the sequence of keys that iterating the
    operand yields. *)
Definition isdisjoint (self : t) (that : list string) : bool :=
  negb (existsb (fun key => __contains__ self key) that).

(** *** Listings (the Python 2 branch: plain lists) *)

Definition items (self : t) : list (string * Z) :=
  (fun x : item => (x.2, x.1)) <$> _list self.

Definition iteritems (self : t) : list (string * Z) :=
  (fun x : item => (x.2, x.1)) <$> _list self.

Definition keys (self : t) : list string := snd <$> _list self.

Definition iterkeys (self : t) : list string := snd <$> _list self.

Definition values (self : t) : list Z := fst <$> _list self.

Definition itervalues (self : t) : list Z := fst <$> _list self.

(** [_check]: the assertions of the module's self-test. *)
Definition _check (self : t) : bool :=
  bool_decide (Sorted (fun x y => SortedList.item_ltb y x = false) (_list self))
  && bool_decide (size (_dict self) = length (_list self))
  && forallb (fun x : item => bool_decide (_dict self !! x.2 = Some x.1)) (_list self).

End PriorityDict.

(* ================================================================== *)
(** * class _IlocWrapper *)

Module _IlocWrapper.
Import PriorityDict.

Definition __len__ (self : PriorityDict.t) : Z := PriorityDict.__len__ self.

(** [iloc[index]]: the key at an index, or the list of keys of a slice. *)
Definition __getitem__ (index : subscript) :
    M PriorityDict.t (string + list string) :=
  match index with
  | SliceOf s => sel ← list_getslice s; mret (inr (snd <$> sel))
  | Index i => x ← list_getitem i; mret (inl x.2)
  end.

(** [del iloc[index]] *)
Definition __delitem__ (index : subscript) : M PriorityDict.t unit :=
  match index with
  | SliceOf s =>
      sel ← list_getslice s;
      for_each sel (fun x => dict_delitem x.2) ;;
      list_delslice s
  | Index i =>
      x ← list_getitem i;
      let key := x.2 in
      list_delitem i ;;
      dict_delitem key
  end.

End _IlocWrapper.

(* ================================================================== *)
(** * class ValuesView *)

Module ValuesView.

(** The attributes bound by [ValuesView.__init__]: the container's
    SortedList and the values view of its dict. *)
Record t := { _list : list item; _view : gmap string Z }.

Definition __init__ (priority_dict : PriorityDict.t) : t :=
  {| _list := PriorityDict._list priority_dict;
     _view := PriorityDict._dict priority_dict |}.

(** [self._dict]: [__init__] binds [_list] and [_view] only, and no base
    class provides [_dict], so the lookup raises. *)
Definition getattr__dict : M t (gmap string Z) := raise AttributeError.

Definition __len__ (self : t) : Z := Z.of_nat (size (_view self)).

Definition list_getitem (i : Z) : M t item := fun s =>
  match SortedList.getitem (_list s) i with
  | Some x => Return x s
  | None => Raise IndexError s
  end.

Definition index (value : Z) : M t Z :=
  self ← Py.get;
  let pos := SortedList.bisect_left (_list self) (SortedList.ProbeValue value) in
  d ← getattr__dict;
  if pos =? Z.of_nat (size d) then raise ValueError
  else
    x ← list_getitem pos;
    if negb (x.1 =? value) then raise ValueError
    else mret pos.

Definition count (self : t) (value : Z) : Z :=
  let start := SortedList.bisect_left (_list self) (SortedList.ProbeValue value) in
  let end_ := SortedList.bisect_right (_list self) (SortedList.ProbeBiggest value) in
  end_ - start.

End ValuesView.

(* ================================================================== *)
(** * Objects and references

    [copy] rebinds the attributes of a new container to objects that the
    original already holds, so containers are modelled here as objects in
    a store: a [PriorityDict] instance holds references to a dict, a
    SortedList and an [_IlocWrapper], and every method mutates the
    referenced objects in place. *)

Module Heap.

Abbreviation loc := nat.

(** Instance attributes of a [PriorityDict]; [None] is an unbound one. *)
Record instance := Attrs {
  attr_dict : option loc;
  attr_list : option loc;
  attr_iloc : option loc
}.

Inductive cell :=
| CDict (m : gmap string Z)
| CSortedList (l : list item)
| CPriorityDict (attrs : instance)
| CIlocWrapper (owner : loc).

Abbreviation heap := (list cell).

Definition alloc (c : cell) : M heap loc := fun h =>
  Return (length h) (h ++ [c])%list.

Definition load (l : loc) : M heap cell := fun h =>
  match h !! l with
  | Some c => Return c h
  | None => Raise AttributeError h
  end.

Definition store (l : loc) (c : cell) : M heap unit := fun h =>
  Return tt (<[l := c]> h).

Definition attrs_of (self : loc) : M heap instance :=
  c ← load self;
  match c with
  | CPriorityDict a => mret a
  | _ => raise AttributeError
  end.

Definition getattr (field : instance -> option loc) (self : loc) : M heap loc :=
  a ← attrs_of self;
  match field a with
  | Some l => mret l
  | None => raise AttributeError
  end.

Definition setattr_dict (self : loc) (v : loc) : M heap unit :=
  a ← attrs_of self;
  store self (CPriorityDict (Attrs (Some v) (attr_list a) (attr_iloc a))).

Definition setattr_list (self : loc) (v : loc) : M heap unit :=
  a ← attrs_of self;
  store self (CPriorityDict (Attrs (attr_dict a) (Some v) (attr_iloc a))).

Definition setattr_iloc (self : loc) (v : loc) : M heap unit :=
  a ← attrs_of self;
  store self (CPriorityDict (Attrs (attr_dict a) (attr_list a) (Some v))).

(** Run a method of the class on the object [self]: it works on the dict
    and the SortedList that [self._dict] and [self._list] refer to, and its
    effects land in those two objects, also when it raises. *)
Definition call {A} (self : loc) (m : M PriorityDict.t A) : M heap A :=
  d ← getattr attr_dict self;
  l ← getattr attr_list self;
  cd ← load d;
  cl ← load l;
  match cd, cl with
  | CDict dm, CSortedList sl =>
      fun h =>
        match m {| PriorityDict._dict := dm; PriorityDict._list := sl |} with
        | Return a s =>
            Return a (<[l := CSortedList (PriorityDict._list s)]>
                        (<[d := CDict (PriorityDict._dict s)]> h))
        | Raise e s =>
            Raise e (<[l := CSortedList (PriorityDict._list s)]>
                       (<[d := CDict (PriorityDict._dict s)]> h))
        end
  | _, _ => raise TypeError
  end.

(** Run a method of [_IlocWrapper] on the wrapper [w]: it works on the
    container the wrapper was created for. *)
Definition call_iloc {A} (w : loc) (m : M PriorityDict.t A) : M heap A :=
  c ← load w;
  match c with
  | CIlocWrapper owner => call owner m
  | _ => raise AttributeError
  end.

(** [PriorityDict(args, kwargs)] *)
Definition new (args : option arg) (kwargs : mapping) : M heap loc :=
  self ← alloc (CPriorityDict (Attrs None None None));
  d ← alloc (CDict ∅);
  setattr_dict self d ;;
  l ← alloc (CSortedList []);
  setattr_list self l ;;
  w ← alloc (CIlocWrapper self);
  setattr_iloc self w ;;
  call self (PriorityDict.update args kwargs) ;;
  mret self.

(** [PriorityDict.copy] *)
Definition copy (self : loc) : M heap loc :=
  that ← new None [];
  d ← getattr attr_dict self;
  setattr_dict that d ;;
  l ← getattr attr_list self;
  setattr_list that l ;;
  w ← getattr attr_iloc self;
  setattr_iloc that w ;;
  mret that.

(** The indices that the container [self] currently refers to. *)
Definition view (self : loc) (h : heap) : option PriorityDict.t :=
  match h !! self with
  | Some (CPriorityDict (Attrs (Some d) (Some l) _)) =>
      match h !! d, h !! l with
      | Some (CDict dm), Some (CSortedList sl) =>
          Some {| PriorityDict._dict := dm; PriorityDict._list := sl |}
      | _, _ => None
      end
  | _ => None
  end.

Definition attrs (self : loc) (h : heap) : option instance :=
  match h !! self with
  | Some (CPriorityDict a) => Some a
  | _ => None
  end.

End Heap.

(* ================================================================== *)
(** * Specification vocabulary *)

(** [x] sorts strictly before [y]. *)
Definition item_lt (x y : item) : Prop := SortedList.item_ltb x y = true.

(** The Order Index is in strictly ascending [(value, key)] order. *)
Abbreviation sorted := (StronglySorted item_lt).

(** Invariants I2 and I3 of a container; I1 (equal cardinality) follows
    from them. *)
Definition inv (s : PriorityDict.t) : Prop :=
  sorted (PriorityDict._list s) ∧
  ∀ k v, PriorityDict._dict s !! k = Some v ↔ (v, k) ∈ PriorityDict._list s.

(** The length of the leading run of entries that pass [f]. *)
Fixpoint lead (f : item → bool) (l : list item) : Z :=
  match l with
  | [] => 0
  | x :: l' => if f x then 1 + lead f l' else 0
  end.

(** The number of entries of the Order Index equal to [x]. *)
Definition occurrences (x : item) (l : list item) : nat :=
  length (filter (λ y, y = x) l).

(** The public mutators.  For a copy-producing merge the container under
    observation becomes the result, as in [d = d + that]. *)
Inductive op :=
| OpSetitem (key : string) (value : Z)
| OpDelitem (key : string)
| OpPop (key : string) (default : option Z)
| OpPopitem (index : Z)
| OpSetdefault (key : string) (default : Z)
| OpClear
| OpUpdate (args : option arg) (kwargs : mapping)
| OpIadd (that : mapping)
| OpIsub (that : mapping)
| OpIor (that : mapping)
| OpIand (that : mapping)
| OpAdd (that : mapping)
| OpSub (that : mapping)
| OpOr (that : mapping)
| OpAnd (that : mapping)
| OpClean (value : Z)
| OpIlocDelitem (index : subscript).

(** Run a method for its effect. *)
Definition void {A} (m : M PriorityDict.t A) : M PriorityDict.t unit :=
  m ;; mret tt.

Definition apply_op (o : op) (s : PriorityDict.t) : outcome PriorityDict.t unit :=
  match o with
  | OpSetitem key value => PriorityDict.__setitem__ key value s
  | OpDelitem key => PriorityDict.__delitem__ key s
  | OpPop key default => void (PriorityDict.pop key default) s
  | OpPopitem index => void (PriorityDict.popitem index) s
  | OpSetdefault key default => void (PriorityDict.setdefault key default) s
  | OpClear => PriorityDict.clear s
  | OpUpdate args kwargs => PriorityDict.update args kwargs s
  | OpIadd that => PriorityDict.__iadd__ that s
  | OpIsub that => PriorityDict.__isub__ that s
  | OpIor that => PriorityDict.__ior__ that s
  | OpIand that => PriorityDict.__iand__ that s
  | OpAdd that => PriorityDict.__add__ s that
  | OpSub that => PriorityDict.__sub__ s that
  | OpOr that => PriorityDict.__or__ s that
  | OpAnd that => PriorityDict.__and__ s that
  | OpClean value => PriorityDict.clean value s
  | OpIlocDelitem index => _IlocWrapper.__delitem__ index s
  end.

(** The state after a sequence of calls; a call that raises leaves the
    state it had reached. *)
Fixpoint run (ops : list op) (s : PriorityDict.t) : PriorityDict.t :=
  match ops with
  | [] => s
  | o :: ops' => run ops' (final (apply_op o s))
  end.

(** The dict that a merge loop leaves, one operand entry at a time: a key
    of both operands is combined with [f]; a key of the operand alone is
    introduced ([union_step]) or ignored ([inter_step]). *)
Definition union_step (f : Z → Z → Z) (acc : gmap string Z) (kv : string * Z) :
    gmap string Z :=
  match acc !! kv.1 with
  | Some old => <[kv.1 := f old kv.2]> acc
  | None => <[kv.1 := kv.2]> acc
  end.

Definition inter_step (f : Z → Z → Z) (acc : gmap string Z) (kv : string * Z) :
    gmap string Z :=
  match acc !! kv.1 with
  | Some old => <[kv.1 := f old kv.2]> acc
  | None => acc
  end.

(** The sum of the values that the operand's item sequence gives to [k]. *)
Definition total (k : string) (that : mapping) : Z :=
  foldr (λ kv acc, if String.eqb kv.1 k then kv.2 + acc else acc) 0 that.

(** Operands of the worked examples. *)
Definition ten : mapping :=
  [("k0", 0); ("k1", 1); ("k2", 2); ("k3", 3); ("k4", 4);
   ("k5", 5); ("k6", 6); ("k7", 7); ("k8", 8); ("k9", 9)].

Definition twenty : mapping :=
  ten ++ [("m0", 10); ("m1", 11); ("m2", 12); ("m3", 13); ("m4", 14);
          ("m5", 15); ("m6", 16); ("m7", 17); ("m8", 18); ("m9", 19)].

(** The dict left by [del _dict[key]] for the keys of [sel], in order. *)
Definition delete_keys (sel : list item) (d : gmap string Z) : gmap string Z :=
  foldl (λ acc x, delete x.2 acc) d sel.

(** The entries at the positions [ps], in the order of [ps]. *)
Definition select (ps : list Z) (l : list item) : list item :=
  omap (λ p, l !! Z.to_nat p) ps.

(** A computation that always returns and leaves [_list] alone. *)
Definition dict_only (m : M PriorityDict.t unit) : Prop :=
  ∀ s, ∃ d', m s = Return tt {| PriorityDict._dict := d';
                                PriorityDict._list := PriorityDict._list s |}.

(** The container that a rebuild produces for a given dict. *)
Definition rebuilt (d : gmap string Z) : PriorityDict.t :=
  {| PriorityDict._dict := d;
     PriorityDict._list :=
       SortedList.update (PriorityDict.swap <$> map_to_list d) [] |}.

(** The heap after a method call: the dict and the SortedList that the
    container refers to hold the state the method left. *)
Definition written (h : Heap.heap) (d l : Heap.loc) (s : PriorityDict.t) : Heap.heap :=
  <[l := Heap.CSortedList (PriorityDict._list s)]>
    (<[d := Heap.CDict (PriorityDict._dict s)]> h).

(** The four objects that [PriorityDict()] allocates, the container at
    location [n]. *)
Definition fresh (n : Heap.loc) (a : Heap.instance) : list Heap.cell :=
  [Heap.CPriorityDict a; Heap.CDict ∅; Heap.CSortedList []; Heap.CIlocWrapper n].

(* ================================================================== *)
(** * Properties *)

Import PriorityDict.

(** Unfold the monadic plumbing of the dict and list primitives. *)
Ltac prims :=
  unfold dict_pop, rebuild in *;
  unfold dict_contains, dict_getitem, dict_setitem, dict_delitem,
    dict_len, dict_clear, dict_items, list_add, list_remove, list_clear,
    list_update, list_index, list_pop, list_getitem, list_delitem,
    list_getslice, list_delslice, lift_list, raise, Py.get, put,
    mbind, M_bind, mret, M_ret in *; simpl in *.

(** ** The order on [(value, key)] tuples *)

Section ItemOrder.

Lemma str_ltb_lt (a b : string) : String.ltb a b = true ↔ String_as_OT.lt a b.
Proof.
  unfold String.ltb. rewrite <- String_as_OT.cmp_lt. unfold String_as_OT.cmp.
  destruct (String.compare a b); split; congruence.
Qed.

Lemma str_ltb_irrefl (a : string) : String.ltb a a = false.
Proof.
  destruct (String.ltb a a) eqn:E; [|done].
  apply str_ltb_lt, String_as_OT.lt_not_eq in E. by destruct E.
Qed.

Lemma str_ltb_trans (a b c : string) :
  String.ltb a b = true → String.ltb b c = true → String.ltb a c = true.
Proof.
  rewrite !str_ltb_lt. apply String_as_OT.lt_trans.
Qed.

Lemma str_ltb_total (a b : string) :
  String.ltb a b = false → String.ltb b a = false → a = b.
Proof.
  unfold String.ltb. rewrite (String.compare_antisym a b).
  destruct (String.compare b a) eqn:E; simpl; try congruence.
  intros _ _. symmetry. by apply String.compare_eq_iff.
Qed.

Lemma item_eqb_eq (x y : item) : SortedList.item_eqb x y = true ↔ x = y.
Proof.
  destruct x as [v k], y as [w j]. unfold SortedList.item_eqb. simpl.
  rewrite andb_true_iff, Z.eqb_eq, String.eqb_eq. split.
  - by intros [-> ->].
  - intros [= -> ->]. done.
Qed.

Lemma item_eqb_neq (x y : item) : SortedList.item_eqb x y = false ↔ x ≠ y.
Proof.
  rewrite <- item_eqb_eq. destruct (SortedList.item_eqb x y); split; congruence.
Qed.

Lemma item_lt_spec (x y : item) :
  item_lt x y ↔ x.1 < y.1 ∨ (x.1 = y.1 ∧ String.ltb x.2 y.2 = true).
Proof.
  unfold item_lt, SortedList.item_ltb.
  rewrite orb_true_iff, andb_true_iff, Z.ltb_lt, Z.eqb_eq. done.
Qed.

Lemma item_lt_irrefl (x : item) : ¬ item_lt x x.
Proof.
  rewrite item_lt_spec. intros [?|[_ H]]; [lia|].
  by rewrite str_ltb_irrefl in H.
Qed.

Lemma item_lt_trans (x y z : item) : item_lt x y → item_lt y z → item_lt x z.
Proof.
  rewrite !item_lt_spec. intros [?|[? ?]] [?|[? ?]]; try (left; lia).
  right. split; [lia|]. eauto using str_ltb_trans.
Qed.

Lemma item_lt_total (x y : item) : ¬ item_lt x y → ¬ item_lt y x → x = y.
Proof.
  rewrite !item_lt_spec. intros H1 H2.
  destruct x as [v k], y as [w j]; simpl in *.
  assert (v = w) as -> by lia.
  f_equal. apply str_ltb_total.
  - destruct (String.ltb k j); [|done]. destruct H1. by right.
  - destruct (String.ltb j k); [|done]. destruct H2. by right.
Qed.

#[export] Instance item_lt_strict : StrictOrder item_lt.
Proof.
  split.
  - intros x. apply item_lt_irrefl.
  - intros x y z. apply item_lt_trans.
Qed.

Lemma item_lt_value (x y : item) : item_lt x y → x.1 ≤ y.1.
Proof. rewrite item_lt_spec. lia. Qed.

End ItemOrder.

(** ** The SortedList contract on sorted lists *)

Section SortedListFacts.

Implicit Types (x y : item) (l : list item).

Lemma elem_of_add x y l : x ∈ SortedList.add y l ↔ x = y ∨ x ∈ l.
Proof.
  induction l as [|z l IH]; simpl.
  - rewrite list_elem_of_singleton, elem_of_nil. tauto.
  - destruct (SortedList.item_ltb y z); rewrite !elem_of_cons; [tauto|].
    rewrite IH. tauto.
Qed.

Lemma sorted_add y l : sorted l → y ∉ l → sorted (SortedList.add y l).
Proof.
  induction l as [|z l IH]; simpl; intros Hs Hy.
  - repeat constructor.
  - apply StronglySorted_inv in Hs as [Hs Hz].
    destruct (SortedList.item_ltb y z) eqn:E.
    + constructor; [by constructor|].
      constructor; [done|].
      eapply Forall_impl; [exact Hz|].
      intros w Hw. by apply (item_lt_trans y z w).
    + assert (item_lt z y) as Hzy.
      { destruct (SortedList.item_ltb z y) eqn:E2; [done|].
        exfalso. apply Hy.
        assert (y = z) as ->; [|left].
        apply item_lt_total; unfold item_lt; congruence. }
      constructor.
      * apply IH; [done|]. set_solver.
      * apply Forall_forall. intros w Hw.
        apply elem_of_add in Hw as [->|Hw]; [done|].
        rewrite Forall_forall in Hz. by apply Hz.
Qed.

Lemma sorted_NoDup l : sorted l → NoDup l.
Proof.
  induction 1 as [|x l Hs IH Hx]; constructor; [|done].
  intros Hin. rewrite Forall_forall in Hx.
  by apply (item_lt_irrefl x), Hx.
Qed.

Lemma remove_None x l : SortedList.remove x l = None ↔ x ∉ l.
Proof.
  induction l as [|z l IH]; simpl.
  - split; [intros _; apply not_elem_of_nil|done].
  - rewrite not_elem_of_cons.
    destruct (SortedList.item_eqb x z) eqn:E.
    + apply item_eqb_eq in E as ->. split; [done|]. by intros [? _].
    + apply item_eqb_neq in E.
      destruct (SortedList.remove x l).
      * split; [done|]. intros [_ Hl]. by apply IH in Hl.
      * split; [|done]. intros _. split; [done|]. by apply IH.
Qed.

Lemma remove_Some x l l' :
  NoDup l → SortedList.remove x l = Some l' →
  x ∈ l ∧ (∀ z, z ∈ l' ↔ z ∈ l ∧ z ≠ x) ∧ length l = S (length l').
Proof.
  revert l'. induction l as [|z l IH]; simpl; intros l' Hnd Hr; [done|].
  apply NoDup_cons in Hnd as [Hz Hnd].
  destruct (SortedList.item_eqb x z) eqn:E.
  - apply item_eqb_eq in E as ->. injection Hr as <-.
    split; [left|]. split; [|done].
    intros w. rewrite elem_of_cons. split.
    + intros Hw. split; [by right|]. by intros ->.
    + intros [[->|Hw] Hne]; [done|done].
  - apply item_eqb_neq in E.
    destruct (SortedList.remove x l) as [r|] eqn:Er; [|done].
    injection Hr as <-.
    destruct (IH r Hnd eq_refl) as (Hin & Hiff & Hlen).
    split; [by right|]. split; [|simpl; lia].
    intros w. rewrite !elem_of_cons, Hiff. split.
    + intros [->|[Hw Hne]]; [split; [by left|congruence]|split; [by right|done]].
    + intros [[->|Hw] Hne]; [by left|by right].
Qed.

Lemma sorted_remove x l l' :
  sorted l → SortedList.remove x l = Some l' → sorted l'.
Proof.
  revert l'. induction l as [|z l IH]; simpl; intros l' Hs Hr; [done|].
  apply StronglySorted_inv in Hs as [Hs Hz].
  destruct (SortedList.item_eqb x z); [by injection Hr as <-|].
  destruct (SortedList.remove x l) as [r|] eqn:Er; [|done].
  injection Hr as <-.
  constructor; [by apply IH|].
  apply Forall_forall. intros w Hw.
  rewrite Forall_forall in Hz. apply Hz.
  apply (remove_Some x l r) in Er as (_ & Hiff & _); [|by apply sorted_NoDup].
  by apply Hiff in Hw as [? _].
Qed.

Lemma remove_elem x l : x ∈ l → is_Some (SortedList.remove x l).
Proof.
  intros Hin. destruct (SortedList.remove x l) eqn:E; [by eexists|].
  by apply remove_None in E.
Qed.

End SortedListFacts.

(** ** The invariant on pure state changes *)

Section Invariant.

Implicit Types (s : PriorityDict.t) (d : gmap string Z) (l : list item).

Lemma inv_empty : inv empty.
Proof.
  split; simpl; [constructor|].
  intros k v. rewrite lookup_empty, elem_of_nil. split; [done|tauto].
Qed.

Lemma inv_key_unique s k v w :
  inv s → (v, k) ∈ _list s → (w, k) ∈ _list s → v = w.
Proof.
  intros [_ H] Hv Hw. apply H in Hv, Hw. congruence.
Qed.

Lemma inv_items s :
  inv s → map_to_list (_dict s) ≡ₚ (λ x : item, (x.2, x.1)) <$> _list s.
Proof.
  intros Hi. apply NoDup_Permutation.
  - apply NoDup_map_to_list.
  - apply NoDup_fmap_2; [|apply sorted_NoDup, Hi].
    intros [??] [??]; simpl; congruence.
  - intros [k v]. rewrite elem_of_map_to_list, (proj2 Hi), list_elem_of_fmap.
    split.
    + intros H. by exists (v, k).
    + intros ([w j] & [= -> ->] & H). done.
Qed.

(** I1: the two indices have the same number of entries. *)
Lemma inv_size s : inv s → size (_dict s) = length (_list s).
Proof.
  intros Hi. rewrite <- length_map_to_list, (inv_items s Hi).
  by rewrite length_fmap.
Qed.

Lemma inv_add s k v :
  inv s → _dict s !! k = None →
  inv {| _dict := <[k := v]> (_dict s); _list := SortedList.add (v, k) (_list s) |}.
Proof.
  intros [Hs Hd] Hk. split; simpl.
  - apply sorted_add; [done|]. rewrite <- Hd. congruence.
  - intros j w. rewrite elem_of_add, <- Hd.
    destruct (decide (k = j)) as [->|Hne].
    + rewrite lookup_insert_eq, Hk. split.
      * intros [= ->]. by left.
      * intros [[= ->]|H]; [done|discriminate H].
    + rewrite lookup_insert_ne by done. split; [by right|].
      intros [[= _ ->]|H]; [done|exact H].
Qed.

Lemma inv_remove s k v :
  inv s → _dict s !! k = Some v →
  ∃ l', SortedList.remove (v, k) (_list s) = Some l' ∧
        inv {| _dict := delete k (_dict s); _list := l' |}.
Proof.
  intros [Hs Hd] Hk.
  destruct (remove_elem (v, k) (_list s)) as [l' Hr]; [by apply Hd|].
  exists l'. split; [done|].
  destruct (remove_Some _ _ _ (sorted_NoDup _ Hs) Hr) as (_ & Hiff & _).
  split; simpl; [by eapply sorted_remove|].
  intros j w. rewrite Hiff, <- Hd.
  destruct (decide (k = j)) as [->|Hne].
  - rewrite lookup_delete_eq. split; [done|]. intros [? ?]. congruence.
  - rewrite lookup_delete_ne by done. split; [|tauto].
    intros H. split; [done|]. congruence.
Qed.

(** Re-keying an entry: the pattern of [__setitem__] on a present key. *)
Lemma inv_replace s k v w :
  inv s → _dict s !! k = Some v →
  ∃ l', SortedList.remove (v, k) (_list s) = Some l' ∧
        inv {| _dict := <[k := w]> (_dict s); _list := SortedList.add (w, k) l' |}.
Proof.
  intros Hi Hk. destruct (inv_remove s k v Hi Hk) as (l' & Hr & Hi').
  exists l'. split; [done|].
  pose proof (inv_add _ k w Hi' (lookup_delete_eq _ _)) as H. simpl in H.
  by rewrite insert_delete_eq in H.
Qed.

Lemma elem_of_update (xs : list item) l x :
  x ∈ SortedList.update xs l ↔ x ∈ xs ∨ x ∈ l.
Proof.
  unfold SortedList.update. revert l.
  induction xs as [|y xs IH]; intros l; simpl.
  - rewrite elem_of_nil. tauto.
  - rewrite IH, elem_of_add, elem_of_cons. tauto.
Qed.

Lemma sorted_update (xs : list item) l :
  sorted l → NoDup xs → (∀ x, x ∈ xs → x ∉ l) → sorted (SortedList.update xs l).
Proof.
  unfold SortedList.update. revert l.
  induction xs as [|y xs IH]; intros l Hs Hnd Hdis; simpl; [done|].
  apply NoDup_cons in Hnd as [Hy Hnd].
  apply IH; [|done|].
  - apply sorted_add; [done|]. apply Hdis. left.
  - intros x Hx. rewrite elem_of_add. intros [->|Hl]; [done|].
    by apply (Hdis x); [right|].
Qed.

(** Rebuilding the Order Index from the Mapping Index restores the
    invariant whatever the Mapping Index holds. *)
Lemma inv_rebuild d :
  inv {| _dict := d; _list := SortedList.update (swap <$> map_to_list d) [] |}.
Proof.
  split; simpl.
  - apply sorted_update; [constructor| |intros x _; apply not_elem_of_nil].
    apply NoDup_fmap_2; [|apply NoDup_map_to_list].
    intros [??] [??]; unfold swap; simpl; congruence.
  - intros k v. rewrite elem_of_update, elem_of_nil, list_elem_of_fmap.
    split.
    + intros H. left. exists (k, v). split; [done|].
      by apply elem_of_map_to_list.
    + intros [([j w] & [= -> ->] & H)|[]]. by apply elem_of_map_to_list.
Qed.

End Invariant.

(** ** Running the methods *)

Section Methods.

Implicit Types (s : PriorityDict.t) (d : gmap string Z) (l : list item).

Lemma setitem_run s key value :
  inv s →
  ∃ s', __setitem__ key value s = Return tt s' ∧ inv s' ∧
        _dict s' = <[key := value]> (_dict s).
Proof.
  intros Hi. unfold __setitem__. prims.
  destruct (_dict s !! key) as [old|] eqn:E; simpl.
  - destruct (inv_replace s key old value Hi E) as (l' & Hr & Hi').
    rewrite E. simpl. rewrite Hr. simpl. eauto.
  - eexists. split; [done|]. split; [|done]. by apply inv_add.
Qed.

Lemma delitem_run s key value :
  inv s → _dict s !! key = Some value →
  ∃ s', __delitem__ key s = Return tt s' ∧ inv s' ∧
        _dict s' = delete key (_dict s).
Proof.
  intros Hi E. unfold __delitem__. prims.
  destruct (inv_remove s key value Hi E) as (l' & Hr & Hi').
  rewrite E; simpl. rewrite Hr; simpl. rewrite E. eauto.
Qed.

Lemma delitem_absent s key :
  _dict s !! key = None → __delitem__ key s = Raise KeyError s.
Proof. intros E. unfold __delitem__. prims. by rewrite E. Qed.

Lemma pop_run s key value default :
  inv s → _dict s !! key = Some value →
  ∃ s', pop key default s = Return value s' ∧ inv s' ∧
        _dict s' = delete key (_dict s).
Proof.
  intros Hi E. unfold pop. prims.
  destruct (inv_remove s key value Hi E) as (l' & Hr & Hi').
  repeat (rewrite E; simpl). rewrite Hr; simpl. repeat (rewrite E; simpl).
  eauto.
Qed.

Lemma pop_absent s key default :
  _dict s !! key = None →
  pop key default s =
    match default with Some v => Return v s | None => Raise KeyError s end.
Proof. intros E. unfold pop. prims. rewrite E. simpl. by destruct default. Qed.

Lemma setdefault_inv s key default : inv s → inv (final (setdefault key default s)).
Proof.
  intros Hi. unfold setdefault. prims.
  destruct (_dict s !! key) as [old|] eqn:E; simpl.
  - by rewrite E.
  - by apply inv_add.
Qed.

End Methods.

(** ** Removing a selection of entries from both indices *)

Section Selection.

Implicit Types (s : PriorityDict.t) (d : gmap string Z) (l sel : list item).

Lemma sorted_sublist l' l : l' `sublist_of` l → sorted l → sorted l'.
Proof.
  induction 1 as [|x l1 l2 Hsub IH|x l1 l2 Hsub IH]; intros Hs.
  - constructor.
  - apply StronglySorted_inv in Hs as [Hs Hx]. constructor; [by apply IH|].
    apply Forall_forall. intros y Hy. rewrite Forall_forall in Hx.
    apply Hx. by eapply (sublist_subseteq l1 l2 Hsub).
  - apply StronglySorted_inv in Hs as [Hs _]. by apply IH.
Qed.

Lemma lookup_delete_keys sel d k :
  delete_keys sel d !! k = if decide (k ∈ sel.*2) then None else d !! k.
Proof.
  unfold delete_keys. revert d.
  induction sel as [|x sel IH]; intros d; cbn [foldl].
  - destruct (decide _) as [H|]; [by apply elem_of_nil in H|done].
  - rewrite IH, fmap_cons.
    destruct (decide (k ∈ sel.*2)) as [Hin|Hn].
    + by rewrite decide_True by (by right).
    + destruct (decide (k = x.2)) as [->|Hne].
      * rewrite lookup_delete_eq. by rewrite decide_True by left.
      * rewrite lookup_delete_ne by done.
        rewrite decide_False; [done|]. rewrite elem_of_cons. tauto.
Qed.

Lemma for_each_delitem sel d l :
  NoDup sel.*2 → (∀ x, x ∈ sel → is_Some (d !! x.2)) →
  for_each sel (λ x, dict_delitem x.2) {| _dict := d; _list := l |}
  = Return tt {| _dict := delete_keys sel d; _list := l |}.
Proof.
  revert d. induction sel as [|x sel IH]; intros d Hnd Hin; simpl; [done|].
  apply NoDup_cons in Hnd as [Hx Hnd].
  unfold mbind, M_bind, dict_delitem at 1. simpl.
  destruct (Hin x) as [v Hv]; [left|]. rewrite Hv.
  apply IH; [done|]. intros y Hy.
  rewrite lookup_delete_ne; [apply Hin; by right|].
  intros Heq. apply Hx. rewrite Heq. by apply list_elem_of_fmap_2.
Qed.

Lemma inv_delete_sel s sel l' :
  inv s → (∀ x, x ∈ sel → x ∈ _list s) → l' `sublist_of` _list s →
  (∀ z, z ∈ l' ↔ z ∈ _list s ∧ z ∉ sel) →
  inv {| _dict := delete_keys sel (_dict s); _list := l' |}.
Proof.
  intros Hi Hsel Hsub Hl'. split; simpl.
  - eapply sorted_sublist; [done|apply Hi].
  - intros k v. rewrite lookup_delete_keys, Hl'.
    destruct (decide (k ∈ sel.*2)) as [Hin|Hn].
    + split; [done|]. intros [Hl Hns]. exfalso. apply Hns.
      apply list_elem_of_fmap in Hin as ([w j] & -> & Hx). simpl in *.
      by rewrite (inv_key_unique s j v w Hi Hl (Hsel _ Hx)).
    + rewrite (proj2 Hi). split; [|tauto].
      intros Hl. split; [done|]. intros Hx. apply Hn.
      by apply (list_elem_of_fmap_2 snd) in Hx.
Qed.

(** *** A single position *)

Lemma elem_of_delete_NoDup (l : list item) j x z :
  NoDup l → l !! j = Some x → z ∈ delete j l ↔ z ∈ l ∧ z ≠ x.
Proof.
  intros Hnd Hj. rewrite delete_take_drop.
  rewrite <- (take_drop_middle l j x Hj) in Hnd at 1.
  rewrite <- (take_drop_middle l j x Hj) at 3.
  apply NoDup_app in Hnd as (_ & Hdis & Hnd).
  apply NoDup_cons in Hnd as [Hx _].
  rewrite !elem_of_app, elem_of_cons. split.
  - intros [Hz|Hz]; (split; [tauto|]); intros ->; [|done].
    apply (Hdis x Hz). left.
  - intros [[Hz|[->|Hz]] Hne]; tauto.
Qed.

Lemma inv_delete_at s j x :
  inv s → _list s !! j = Some x →
  inv {| _dict := delete x.2 (_dict s); _list := delete j (_list s) |}.
Proof.
  intros Hi Hj.
  apply (inv_delete_sel s [x] (delete j (_list s)) Hi).
  - intros y ->%list_elem_of_singleton. by eapply list_elem_of_lookup_2.
  - apply sublist_delete.
  - intros z. rewrite (elem_of_delete_NoDup _ j x); [|apply sorted_NoDup, Hi|done].
    by rewrite list_elem_of_singleton.
Qed.

Lemma popitem_run s index :
  inv s →
  match popitem index s with
  | Return (k, v) s' =>
      inv s' ∧ _dict s !! k = Some v ∧ _dict s' = delete k (_dict s)
  | Raise e s' => e = IndexError ∧ s' = s
  end.
Proof.
  intros Hi. unfold popitem, list_pop, lift_list, SortedList.pop,
    SortedList.getitem, SortedList.delitem, mbind, M_bind, mret, M_ret.
  destruct (position _ index) as [j|] eqn:Ep; simpl; [|done].
  destruct (_list s !! j) as [[v k]|] eqn:Ej; simpl; [|done].
  assert (_dict s !! k = Some v) as Hk.
  { apply (proj2 Hi). by eapply list_elem_of_lookup_2. }
  unfold dict_delitem. simpl. rewrite Hk.
  split; [|done]. by apply (inv_delete_at s j (v, k)).
Qed.

Lemma iloc_delitem_index_run s i :
  inv s →
  match _IlocWrapper.__delitem__ (Index i) s with
  | Return _ s' => inv s'
  | Raise e s' => e = IndexError ∧ s' = s
  end.
Proof.
  intros Hi. unfold _IlocWrapper.__delitem__, list_getitem, list_delitem,
    lift_list, SortedList.getitem, SortedList.delitem, mbind, M_bind.
  simpl.
  destruct (position _ i) as [j|] eqn:Ep; simpl; [|done].
  destruct (_list s !! j) as [[v k]|] eqn:Ej; simpl; [|done].
  rewrite Ep. simpl.
  assert (_dict s !! k = Some v) as Hk.
  { apply (proj2 Hi). by eapply list_elem_of_lookup_2. }
  unfold dict_delitem. simpl. rewrite Hk.
  by apply (inv_delete_at s j (v, k)).
Qed.

End Selection.

(** ** Slices *)

Section Slices.

Implicit Types (s : PriorityDict.t) (d : gmap string Z) (l sel : list item).
Implicit Types (ps : list Z).

Lemma elem_of_range a b st p :
  p ∈ range a b st ↔
  ∃ i : nat, (i < range_len a b st)%nat ∧ p = a + Z.of_nat i * st.
Proof.
  unfold range. rewrite list_elem_of_fmap. split.
  - intros (i & -> & Hi). apply elem_of_seq in Hi. exists i. split; [lia|done].
  - intros (i & Hi & ->). exists i. split; [done|]. apply elem_of_seq. lia.
Qed.

Lemma range_bounds a b st p :
  st ≠ 0 → p ∈ range a b st →
  (0 < st ∧ a ≤ p < b) ∨ (st < 0 ∧ b < p ≤ a).
Proof.
  intros Hst (i & Hi & ->)%elem_of_range. unfold range_len in Hi.
  destruct (0 <? st) eqn:E.
  - apply Z.ltb_lt in E. left. split; [done|].
    destruct (a <? b) eqn:E2; [|lia]. apply Z.ltb_lt in E2.
    pose proof (Z.mul_div_le (b - a - 1) st E).
    assert (0 ≤ (b - a - 1) / st) by (apply Z.div_pos; lia).
    nia.
  - apply Z.ltb_ge in E. right. split; [lia|].
    destruct (b <? a) eqn:E2; [|lia]. apply Z.ltb_lt in E2.
    assert (0 < - st) as Hneg by lia.
    pose proof (Z.mul_div_le (a - b - 1) (- st) Hneg).
    assert (0 ≤ (a - b - 1) / (- st)) by (apply Z.div_pos; lia).
    nia.
Qed.

Lemma NoDup_range a b st : st ≠ 0 → NoDup (range a b st).
Proof.
  intros Hst. unfold range. apply NoDup_fmap_2_strong; [|apply NoDup_seq].
  intros i j _ _ Heq. nia.
Qed.

Lemma slice_positions_spec sl len ps :
  0 ≤ len → slice_positions sl len = Some ps →
  NoDup ps ∧ ∀ p, p ∈ ps → 0 ≤ p < len.
Proof.
  intros Hlen. unfold slice_positions, slice_indices.
  destruct (default 1 (step sl) =? 0) eqn:E0; [done|].
  apply Z.eqb_neq in E0. intros [= <-].
  split; [by apply NoDup_range|].
  intros p Hp. apply range_bounds in Hp; [|done].
  destruct (default 1 (step sl) <? 0) eqn:E1;
    [apply Z.ltb_lt in E1|apply Z.ltb_ge in E1].
  - destruct Hp as [[? _]|[_ Hp]]; [lia|].
    destruct (start sl) as [i|], (stop sl) as [j|];
      repeat match goal with
             | H : context [?x <? 0] |- _ => destruct (Z.ltb_spec x 0)
             end; lia.
  - destruct Hp as [[_ Hp]|[? _]]; [|lia].
    destruct (start sl) as [i|], (stop sl) as [j|];
      repeat match goal with
             | H : context [?x <? 0] |- _ => destruct (Z.ltb_spec x 0)
             end; lia.
Qed.

Lemma elem_of_select ps l z :
  (∀ p, p ∈ ps → 0 ≤ p) →
  z ∈ select ps l ↔ ∃ i : nat, l !! i = Some z ∧ Z.of_nat i ∈ ps.
Proof.
  intros Hps. unfold select. rewrite list_elem_of_omap. split.
  - intros (p & Hp & Hz). exists (Z.to_nat p). split; [done|].
    rewrite Z2Nat.id; [done|by apply Hps].
  - intros (i & Hz & Hi). exists (Z.of_nat i). by rewrite Nat2Z.id.
Qed.

Lemma elem_of_drop_positions ps n l z :
  z ∈ SortedList.drop_positions ps n l ↔
  ∃ i : nat, l !! i = Some z ∧ n + Z.of_nat i ∉ ps.
Proof.
  revert n. induction l as [|x l IH]; intros n; simpl.
  - rewrite elem_of_nil. split; [done|]. by intros (i & ? & _).
  - destruct (bool_decide_reflect (n ∈ ps)) as [Hn|Hn].
    + rewrite IH. split.
      * intros (i & Hz & Hi). exists (S i). split; [done|].
        by replace (n + Z.of_nat (S i)) with (n + 1 + Z.of_nat i) by lia.
      * intros ([|i] & Hz & Hi).
        { exfalso. apply Hi. by replace (n + Z.of_nat 0) with n by lia. }
        exists i. split; [done|].
        by replace (n + 1 + Z.of_nat i) with (n + Z.of_nat (S i)) by lia.
    + rewrite elem_of_cons, IH. split.
      * intros [->|(i & Hz & Hi)].
        { exists O. split; [done|]. by replace (n + Z.of_nat 0) with n by lia. }
        exists (S i). split; [done|].
        by replace (n + Z.of_nat (S i)) with (n + 1 + Z.of_nat i) by lia.
      * intros ([|i] & Hz & Hi); [left; by simplify_eq/=|].
        right. exists i. split; [done|].
        by replace (n + 1 + Z.of_nat i) with (n + Z.of_nat (S i)) by lia.
Qed.

Lemma sublist_drop_positions ps n l :
  SortedList.drop_positions ps n l `sublist_of` l.
Proof.
  revert n. induction l as [|x l IH]; intros n; simpl; [done|].
  destruct (bool_decide _); [by apply sublist_cons|by apply sublist_skip].
Qed.

Lemma NoDup_select_keys s ps :
  inv s → NoDup ps → (∀ p, p ∈ ps → 0 ≤ p) →
  NoDup (select ps (_list s)).*2.
Proof.
  intros Hi Hnd Hps. unfold select.
  induction ps as [|p ps IH]; simpl; [constructor|].
  apply NoDup_cons in Hnd as [Hp Hnd].
  assert (∀ q, q ∈ ps → 0 ≤ q) as Hps' by (intros; apply Hps; by right).
  destruct (_list s !! Z.to_nat p) as [[v k]|] eqn:E; simpl; [|by apply IH].
  constructor; [|by apply IH].
  intros ([w j] & Hk & Hin)%list_elem_of_fmap. simpl in Hk. subst j.
  apply (elem_of_select ps (_list s) (w, k) Hps') in Hin as (i & Hi' & Hip).
  assert (v = w) as ->.
  { eapply (inv_key_unique s k); eauto using list_elem_of_lookup_2. }
  assert (Z.to_nat p = i) as Heq.
  { eapply NoDup_lookup; [apply sorted_NoDup, Hi|done..]. }
  apply Hp. assert (0 ≤ p) by (apply Hps; left).
  replace p with (Z.of_nat i) by lia. done.
Qed.

(** The slice deletion shared by [clean] and [del iloc[slice]]. *)
Lemma delete_slice_run s sl :
  inv s →
  match (sel ← list_getslice sl;
         for_each sel (λ x, dict_delitem x.2) ;;
         list_delslice sl) s with
  | Return _ s' =>
      inv s' ∧
      ∃ ps, slice_positions sl (Z.of_nat (length (_list s))) = Some ps ∧
            s' = {| _dict := delete_keys (select ps (_list s)) (_dict s);
                    _list := SortedList.drop_positions ps 0 (_list s) |}
  | Raise e s' =>
      e = ValueError ∧ s' = s ∧
      slice_positions sl (Z.of_nat (length (_list s))) = None
  end.
Proof.
  intros Hi.
  unfold list_getslice, list_delslice, lift_list, SortedList.getslice,
    SortedList.delslice, mbind, M_bind. simpl.
  destruct (slice_positions sl _) as [ps|] eqn:Eps; simpl; [|done].
  destruct (slice_positions_spec _ _ _ (Nat2Z.is_nonneg _) Eps) as [Hnd Hps].
  assert (∀ p, p ∈ ps → 0 ≤ p) as Hps0 by (intros p Hp; apply Hps in Hp; lia).
  fold (select ps (_list s)).
  rewrite for_each_delitem; simpl.
  - rewrite Eps. simpl. split; [|by exists ps].
    apply inv_delete_sel; [done|..].
    + intros x (i & Hx & _)%(elem_of_select ps); [|done].
      by eapply list_elem_of_lookup_2.
    + apply sublist_drop_positions.
    + intros z. rewrite elem_of_drop_positions, (elem_of_select ps) by done.
      split.
      * intros (i & Hz & Hn). split; [by eapply list_elem_of_lookup_2|].
        intros (j & Hz' & Hj). apply Hn.
        replace i with j; [by rewrite Z.add_0_l|].
        eapply NoDup_lookup; [apply sorted_NoDup, Hi|done..].
      * intros [(i & Hz)%list_elem_of_lookup_1 Hn]. exists i. split; [done|].
        intros Hin. apply Hn. exists i. by rewrite Z.add_0_l in Hin.
  - by apply NoDup_select_keys.
  - intros [v k] (i & Hx & _)%(elem_of_select ps); [|done]. simpl.
    exists v. apply (proj2 Hi). by eapply list_elem_of_lookup_2.
Qed.

Lemma iloc_delitem_slice_run s sl :
  inv s →
  match _IlocWrapper.__delitem__ (SliceOf sl) s with
  | Return _ s' => inv s'
  | Raise e s' => e = ValueError ∧ s' = s
  end.
Proof.
  intros Hi. pose proof (delete_slice_run s sl Hi) as H. revert H.
  unfold _IlocWrapper.__delitem__.
  match goal with
  | |- match ?o with _ => _ end → _ => destruct o as [a s'|e s']
  end; [by intros [? _]|tauto].
Qed.

End Slices.

(** ** Bisection *)

Section Bisection.

Implicit Types (s : PriorityDict.t) (d : gmap string Z) (l sel : list item).

(** Both bisections count a leading run of the list. *)
Lemma bisect_left_lead l p :
  SortedList.bisect_left l p = lead (λ x, SortedList.item_lt_probe x p) l.
Proof. induction l as [|x l IH]; simpl; [done|]. by rewrite IH. Qed.

Lemma bisect_right_lead l p :
  SortedList.bisect_right l p = lead (λ x, negb (SortedList.probe_lt_item p x)) l.
Proof.
  induction l as [|x l IH]; simpl; [done|]. rewrite IH.
  by destruct (SortedList.probe_lt_item p x).
Qed.

Lemma lead_bounds f l : 0 ≤ lead f l ≤ Z.of_nat (length l).
Proof.
  induction l as [|x l IH]; simpl; [lia|]. destruct (f x); lia.
Qed.

Lemma filter_none (P : item → Prop) `{∀ x, Decision (P x)} l :
  Forall (λ x, ¬ P x) l → filter P l = [].
Proof.
  induction 1 as [|x l Hx _ IH]; [done|]. by rewrite filter_cons_False.
Qed.

Lemma filter_all (P : item → Prop) `{∀ x, Decision (P x)} l :
  Forall P l → filter P l = l.
Proof.
  induction 1 as [|x l Hx _ IH]; [done|]. rewrite filter_cons_True by done.
  by rewrite IH.
Qed.

(** On a sorted list, a leading run of a downward-closed test is the whole
    set of entries that pass it. *)
Lemma lead_split (f : item → bool) l :
  sorted l → (∀ x y, item_lt x y → f y = true → f x = true) →
  take (Z.to_nat (lead f l)) l = filter (λ x, f x = true) l ∧
  drop (Z.to_nat (lead f l)) l = filter (λ x, f x = false) l.
Proof.
  intros Hs Hf. induction Hs as [|x l Hs IH Hx]; [done|]. simpl.
  destruct (f x) eqn:E.
  - pose proof (lead_bounds f l).
    replace (Z.to_nat (1 + lead f l)) with (S (Z.to_nat (lead f l))) by lia.
    simpl. destruct IH as [-> ->].
    rewrite filter_cons_True by done.
    rewrite filter_cons_False by congruence. done.
  - simpl. rewrite filter_cons_False by congruence.
    rewrite filter_cons_True by done.
    assert (Forall (λ y, f y = false) l) as Hall.
    { eapply Forall_impl; [exact Hx|]. intros y Hxy. simpl in Hxy.
      destruct (f y) eqn:Ey; [|done]. by rewrite (Hf x y Hxy Ey) in E. }
    split.
    + symmetry. apply filter_none.
      eapply Forall_impl; [exact Hall|]. simpl. congruence.
    + f_equal. symmetry. by apply filter_all.
Qed.

Lemma bisect_left_split l v :
  sorted l →
  let n := Z.to_nat (SortedList.bisect_left l (SortedList.ProbeValue v)) in
  take n l = filter (λ x, x.1 < v) l ∧ drop n l = filter (λ x, v ≤ x.1) l.
Proof.
  intros Hs n. subst n. rewrite bisect_left_lead.
  destruct (lead_split (λ x, SortedList.item_lt_probe x (SortedList.ProbeValue v)) l Hs)
    as [Ht Hd].
  { intros x y Hxy. simpl. apply item_lt_value in Hxy. lia. }
  rewrite Ht, Hd. split; apply list_filter_iff; intros x; simpl; lia.
Qed.

Lemma bisect_right_split l v :
  sorted l →
  let n := Z.to_nat (SortedList.bisect_right l (SortedList.ProbeBiggest v)) in
  take n l = filter (λ x, x.1 ≤ v) l ∧ drop n l = filter (λ x, v < x.1) l.
Proof.
  intros Hs n. subst n. rewrite bisect_right_lead.
  destruct (lead_split
              (λ x, negb (SortedList.probe_lt_item (SortedList.ProbeBiggest v) x)) l Hs)
    as [Ht Hd].
  { intros x y Hxy. simpl. apply item_lt_value in Hxy. lia. }
  rewrite Ht, Hd. split; apply list_filter_iff; intros x; simpl; lia.
Qed.

Lemma filter_le_lt_eq l v :
  length (filter (λ x : item, x.1 ≤ v) l) =
  Nat.add (length (filter (λ x : item, x.1 < v) l))
          (length (filter (λ x : item, x.1 = v) l)).
Proof.
  induction l as [|x l IH]; [done|].
  destruct (Z.lt_trichotomy x.1 v) as [?|[?|?]].
  - rewrite (filter_cons_True (λ x : item, x.1 ≤ v)) by (simpl; lia).
    rewrite (filter_cons_True (λ x : item, x.1 < v)) by (simpl; lia).
    rewrite (filter_cons_False (λ x : item, x.1 = v)) by (simpl; lia).
    simpl. lia.
  - rewrite (filter_cons_True (λ x : item, x.1 ≤ v)) by (simpl; lia).
    rewrite (filter_cons_False (λ x : item, x.1 < v)) by (simpl; lia).
    rewrite (filter_cons_True (λ x : item, x.1 = v)) by (simpl; lia).
    simpl. lia.
  - rewrite (filter_cons_False (λ x : item, x.1 ≤ v)) by (simpl; lia).
    rewrite (filter_cons_False (λ x : item, x.1 < v)) by (simpl; lia).
    rewrite (filter_cons_False (λ x : item, x.1 = v)) by (simpl; lia).
    done.
Qed.

End Bisection.

(** ** [clean] *)

Section Clean.

Implicit Types (s : PriorityDict.t) (d : gmap string Z) (l sel : list item).

Lemma slice_prefix_positions pos len :
  0 ≤ pos ≤ len →
  ∃ ps, slice_positions (Slice None (Some pos) None) len = Some ps ∧
        ∀ p, p ∈ ps ↔ 0 ≤ p < pos.
Proof.
  intros Hpos. exists (range 0 pos 1). split.
  - unfold slice_positions, slice_indices. simpl.
    destruct (Z.ltb_spec pos 0); [lia|]. by rewrite Z.min_l by lia.
  - intros p. split.
    + intros Hp. apply range_bounds in Hp; lia.
    + intros Hp. apply elem_of_range. exists (Z.to_nat p). split; [|lia].
      unfold range_len. simpl.
      destruct (Z.ltb_spec 0 pos); [|lia]. rewrite Z.div_1_r. lia.
Qed.

Lemma drop_positions_prefix (ps : list Z) N m l :
  (∀ p, p ∈ ps ↔ 0 ≤ p < N) → 0 ≤ m →
  SortedList.drop_positions ps m l = drop (Z.to_nat (N - m)) l.
Proof.
  intros Hps. revert m. induction l as [|x l IH]; intros m Hm; simpl.
  - by rewrite drop_nil.
  - destruct (bool_decide_reflect (m ∈ ps)) as [Hin|Hn].
    + apply Hps in Hin. rewrite IH by lia.
      replace (Z.to_nat (N - m)) with (S (Z.to_nat (N - (m + 1)))) by lia.
      done.
    + rewrite Hps in Hn. rewrite IH by lia.
      replace (Z.to_nat (N - m)) with O by lia.
      replace (Z.to_nat (N - (m + 1))) with O by lia.
      done.
Qed.

Lemma clean_run s t :
  inv s →
  ∃ s', clean t s = Return tt s' ∧ inv s' ∧
        _list s' = drop (Z.to_nat (bisect_right s t)) (_list s) ∧
        _list s' = filter (λ x, t < x.1) (_list s) ∧
        ∀ k v, _dict s' !! k = Some v ↔ _dict s !! k = Some v ∧ t < v.
Proof.
  intros Hi.
  pose proof (delete_slice_run s (Slice None (Some (bisect_right s t)) None) Hi) as H.
  assert (0 ≤ bisect_right s t ≤ Z.of_nat (length (_list s))) as Hb.
  { unfold bisect_right. rewrite bisect_right_lead. apply lead_bounds. }
  destruct (slice_prefix_positions _ _ Hb) as (ps & Eps & Hps).
  change (clean t s) with
    ((sel ← list_getslice (Slice None (Some (bisect_right s t)) None);
      for_each sel (λ x, dict_delitem x.2) ;;
      list_delslice (Slice None (Some (bisect_right s t)) None)) s).
  match type of H with
  | match ?o with _ => _ end => destruct o as [[] s'|e s'] eqn:Eo
  end.
  - destruct H as (Hi' & ps' & Eps' & Hs'). rewrite Eps in Eps'.
    injection Eps' as <-.
    assert (_list s' = drop (Z.to_nat (bisect_right s t)) (_list s)) as Hl.
    { rewrite Hs'. simpl. rewrite (drop_positions_prefix ps (bisect_right s t)) by (done || lia).
      by rewrite Z.sub_0_r. }
    assert (_list s' = filter (λ x, t < x.1) (_list s)) as Hf.
    { rewrite Hl. unfold bisect_right. by apply bisect_right_split, Hi. }
    exists s'. split; [done|]. split; [done|]. split; [done|]. split; [done|].
    intros k v. rewrite (proj2 Hi'), Hf, list_elem_of_filter, (proj2 Hi).
    simpl. tauto.
  - destruct H as (_ & _ & H). congruence.
Qed.

Lemma state_eq s s' :
  _list s = _list s' → (∀ k, _dict s !! k = _dict s' !! k) → s = s'.
Proof.
  destruct s, s'. simpl. intros -> H. f_equal. by apply map_eq.
Qed.

Lemma clean_idempotent s t s' :
  inv s → clean t s = Return tt s' → clean t s' = Return tt s'.
Proof.
  intros Hi Hc.
  destruct (clean_run s t Hi) as (s1 & Hc1 & Hi1 & _ & Hl1 & Hd1).
  rewrite Hc in Hc1. injection Hc1 as <-.
  destruct (clean_run s' t Hi1) as (s2 & Hc2 & Hi2 & _ & Hl2 & Hd2).
  rewrite Hc2. f_equal. apply state_eq.
  - rewrite Hl2. apply filter_all. apply Forall_forall.
    intros x Hx. rewrite Hl1 in Hx. by apply list_elem_of_filter in Hx as [? _].
  - intros k. apply option_eq. intros v. rewrite Hd2, Hd1. tauto.
Qed.

End Clean.

(** ** Loops, [update] and the merges *)

Section Loops.

Implicit Types (s : PriorityDict.t) (d : gmap string Z) (l sel : list item).
Implicit Types (that items : mapping).

Lemma for_each_dict_only {A} (xs : list A) body :
  (∀ x, dict_only (body x)) → dict_only (for_each xs body).
Proof.
  intros Hbody. induction xs as [|x xs IH]; intros s; simpl.
  - exists (_dict s). by destruct s.
  - unfold mbind, M_bind. destruct (Hbody x s) as [d' ->].
    destruct (IH {| _dict := d'; _list := _list s |}) as [d'' ->]. by exists d''.
Qed.

Lemma dict_update_only items : dict_only (dict_update items).
Proof.
  apply for_each_dict_only. intros kv s. by eexists.
Qed.

(** A dict-only loop on a cleared Order Index followed by a rebuild. *)
Lemma loop_rebuild_returns (m : M PriorityDict.t unit) d :
  dict_only m →
  ∃ s', (m ;; rebuild) {| _dict := d; _list := [] |} = Return tt s' ∧ inv s'.
Proof.
  intros Hm. unfold mbind at 1, M_bind at 1.
  destruct (Hm {| _dict := d; _list := [] |}) as [d' ->]. simpl.
  eexists. split; [done|]. apply inv_rebuild.
Qed.

Lemma for_each_returns {A} (P : PriorityDict.t → Prop) (xs : list A) body s :
  (∀ x s, P s → ∃ s', body x s = Return tt s' ∧ P s') → P s →
  ∃ s', for_each xs body s = Return tt s' ∧ P s'.
Proof.
  intros Hbody. revert s. induction xs as [|x xs IH]; intros s Hs; simpl.
  - by exists s.
  - unfold mbind, M_bind. destruct (Hbody x s Hs) as (s' & -> & Hs').
    by apply IH.
Qed.

Lemma inv_list_nil s : inv s → size (_dict s) = O → _list s = [].
Proof.
  intros Hi Hn. rewrite (inv_size s Hi) in Hn. by apply nil_length_inv.
Qed.

Lemma for_each_outcome {A} (P : PriorityDict.t → Prop) (E : exn → Prop)
    (xs : list A) body s :
  (∀ x s, P s →
     match body x s with
     | Return _ s' => P s'
     | Raise e s' => P s' ∧ E e
     end) →
  P s →
  match for_each xs body s with
  | Return _ s' => P s'
  | Raise e s' => P s' ∧ E e
  end.
Proof.
  intros Hbody. revert s. induction xs as [|x xs IH]; intros s Hs; simpl; [done|].
  unfold mbind, M_bind. pose proof (Hbody x s Hs) as Hx.
  destruct (body x s) as [[] s'|e s']; [by apply IH|done].
Qed.

(** [update] either returns, or fails converting its arguments before it
    touches anything, or raises [KeyError] from its incremental loop; the
    invariant holds in each case. *)
Lemma update_outcome s args kwargs :
  inv s →
  match update args kwargs s with
  | Return _ s' => inv s'
  | Raise e s' => inv s' ∧ (s' = s ∨ e = KeyError)
  end.
Proof.
  intros Hi. unfold update.
  destruct (dict args kwargs) as [e|items]; [by split; [|left]|].
  unfold mbind at 1, M_bind at 1, dict_len at 1.
  destruct (_ <? _).
  - unfold mbind at 1, M_bind at 1.
    destruct (dict_update_only items s) as [d' ->].
    unfold mbind at 1, M_bind at 1, list_clear at 1. simpl.
    apply inv_rebuild.
  - pose proof (for_each_outcome inv (λ e, e = KeyError) items
      (λ kv, let key := kv.1 in
             let value := kv.2 in
             old_value ← dict_getitem key;
             list_remove (old_value, key) ;;
             dict_setitem key value ;;
             list_add (value, key)) s) as H.
    match type of H with
    | _ → _ → match ?o with _ => _ end => destruct o as [[] s'|e s']
    end.
    + apply H; [|done]. clear. intros [key value] s Hi. prims.
      destruct (_dict s !! key) as [old|] eqn:E; simpl; [|done].
      destruct (inv_replace s key old value Hi E) as (l' & -> & Hi'). done.
    + destruct H as [H1 H2]; [|done|by split; [|right]].
      clear. intros [key value] s Hi. prims.
      destruct (_dict s !! key) as [old|] eqn:E; simpl; [|done].
      destruct (inv_replace s key old value Hi E) as (l' & -> & Hi'). done.
Qed.

Lemma update_inv s args kwargs : inv s → inv (final (update args kwargs s)).
Proof.
  intros Hi. pose proof (update_outcome s args kwargs Hi) as H.
  destruct (update args kwargs s); simpl; tauto.
Qed.

(** The bodies of the incremental merge loops return and keep the
    invariant. *)
Lemma assign_returns s key (f : Z → Z) (value : Z) :
  inv s →
  ∃ s',
    (present ← dict_contains key;
     value ← (if present : bool then
                old_value ← dict_getitem key;
                list_remove (old_value, key) ;;
                mret (f old_value)
              else mret value);
     dict_setitem key value ;;
     list_add (value, key)) s = Return tt s' ∧ inv s'.
Proof.
  intros Hi. prims.
  destruct (_dict s !! key) as [old|] eqn:E; simpl.
  - rewrite E. simpl.
    destruct (inv_replace s key old (f old) Hi E) as (l' & -> & Hi'). simpl.
    by eexists.
  - eexists. split; [done|]. by apply inv_add.
Qed.

Lemma reassign_returns s key (f : Z → Z) :
  inv s →
  ∃ s',
    (present ← dict_contains key;
     if present : bool then
       old_value ← dict_getitem key;
       list_remove (old_value, key) ;;
       let value := f old_value in
       dict_setitem key value ;;
       list_add (value, key)
     else mret tt) s = Return tt s' ∧ inv s'.
Proof.
  intros Hi. prims.
  destruct (_dict s !! key) as [old|] eqn:E; simpl; [|by exists s].
  rewrite E. simpl.
  destruct (inv_replace s key old (f old) Hi E) as (l' & -> & Hi'). simpl.
  by eexists.
Qed.

(** The bodies of the rebuild-path merge loops touch the dict only. *)
Lemma merge_union_only key (f : Z → Z) value :
  dict_only (present ← dict_contains key;
             if present : bool then
               old_value ← dict_getitem key;
               dict_setitem key (f old_value)
             else dict_setitem key value).
Proof.
  intros s. prims.
  destruct (_dict s !! key) as [old|] eqn:E; simpl; [rewrite E|]; by eexists.
Qed.

Lemma merge_inter_only key (f : Z → Z) :
  dict_only (present ← dict_contains key;
             if present : bool then
               old_value ← dict_getitem key;
               dict_setitem key (f old_value)
             else mret tt).
Proof.
  intros s. prims.
  destruct (_dict s !! key) as [old|] eqn:E; simpl; [rewrite E; by eexists|].
  exists (_dict s). by destruct s.
Qed.

Ltac merge_inplace :=
  let Hi := fresh "Hi" in
  intros Hi;
  match goal with |- ∃ _, ?op _ ?s = _ ∧ _ => unfold op end;
  unfold mbind at 1, M_bind at 1, dict_len at 1;
  match goal with
  | |- context [Z.of_nat (size (_dict ?s)) =? 0] =>
      let En := fresh "En" in
      destruct (Z.of_nat (size (_dict s)) =? 0) eqn:En;
      [apply Z.eqb_eq in En;
       let Hl := fresh "Hl" in
       assert (_list s = []) as Hl by (apply inv_list_nil; [done|lia]);
       destruct s as [d0 l0]; simpl in Hl; subst l0
      |destruct (_ <? _)]
  end.

Lemma iadd_returns s that :
  inv s → ∃ s', __iadd__ that s = Return tt s' ∧ inv s'.
Proof.
  merge_inplace.
  - apply loop_rebuild_returns, dict_update_only.
  - unfold mbind at 1, M_bind at 1, list_clear at 1. simpl.
    apply loop_rebuild_returns, for_each_dict_only.
    intros kv. apply (merge_union_only _ (λ old, old + kv.2)).
  - apply (for_each_returns inv); [|done]. intros kv s' Hs'.
    apply (assign_returns s' kv.1 (λ old, old + kv.2) kv.2 Hs').
Qed.

Lemma ior_returns s that :
  inv s → ∃ s', __ior__ that s = Return tt s' ∧ inv s'.
Proof.
  merge_inplace.
  - apply loop_rebuild_returns, dict_update_only.
  - unfold mbind at 1, M_bind at 1, list_clear at 1. simpl.
    apply loop_rebuild_returns, for_each_dict_only.
    intros kv. apply (merge_union_only _ (λ old, Z.max old kv.2)).
  - apply (for_each_returns inv); [|done]. intros kv s' Hs'.
    apply (assign_returns s' kv.1 (λ old, Z.max old kv.2) kv.2 Hs').
Qed.

Lemma isub_returns s that :
  inv s → ∃ s', __isub__ that s = Return tt s' ∧ inv s'.
Proof.
  merge_inplace.
  - eexists. split; [done|]. apply inv_empty.
  - unfold mbind at 1, M_bind at 1, list_clear at 1. simpl.
    apply loop_rebuild_returns, for_each_dict_only.
    intros kv. apply (merge_inter_only _ (λ old, old - kv.2)).
  - apply (for_each_returns inv); [|done]. intros kv s' Hs'.
    apply (reassign_returns s' kv.1 (λ old, old - kv.2) Hs').
Qed.

Lemma iand_returns s that :
  inv s → ∃ s', __iand__ that s = Return tt s' ∧ inv s'.
Proof.
  merge_inplace.
  - eexists. split; [done|]. apply inv_empty.
  - unfold mbind at 1, M_bind at 1, list_clear at 1. simpl.
    apply loop_rebuild_returns, for_each_dict_only.
    intros kv. apply (merge_inter_only _ (λ old, Z.min old kv.2)).
  - apply (for_each_returns inv); [|done]. intros kv s' Hs'.
    apply (reassign_returns s' kv.1 (λ old, Z.min old kv.2) Hs').
Qed.

(** *** Copy-producing merges *)

Lemma on_new_run body : on_new body = body empty.
Proof. reflexivity. Qed.

Lemma copy_merge_returns self (m : M PriorityDict.t unit) :
  dict_only m →
  ∃ s', on_new (dict_update (map_to_list (_dict self)) ;; m ;; rebuild)
        = Return tt s' ∧ inv s'.
Proof.
  intros Hm. rewrite on_new_run.
  unfold mbind at 1, M_bind at 1.
  destruct (dict_update_only (map_to_list (_dict self)) empty) as [d' ->].
  simpl. by apply loop_rebuild_returns.
Qed.

Lemma add_returns self that :
  ∃ s', __add__ self that = Return tt s' ∧ inv s'.
Proof.
  apply copy_merge_returns, for_each_dict_only. intros kv.
  apply (merge_union_only _ (λ old, old + kv.2)).
Qed.

Lemma sub_returns self that :
  ∃ s', __sub__ self that = Return tt s' ∧ inv s'.
Proof.
  apply copy_merge_returns, for_each_dict_only. intros kv.
  apply (merge_inter_only _ (λ old, old - kv.2)).
Qed.

Lemma or_returns self that :
  ∃ s', __or__ self that = Return tt s' ∧ inv s'.
Proof.
  apply copy_merge_returns, for_each_dict_only. intros kv.
  apply (merge_union_only _ (λ old, Z.max old kv.2)).
Qed.

Lemma and_returns self that :
  ∃ s', __and__ self that = Return tt s' ∧ inv s'.
Proof.
  apply copy_merge_returns, for_each_dict_only. intros kv.
  apply (merge_inter_only _ (λ old, Z.min old kv.2)).
Qed.

End Loops.

(** ** Every public operation keeps the invariant *)

Section Steps.

Implicit Types (s : PriorityDict.t) (o : op).

Lemma final_void {A} (m : M PriorityDict.t A) s : final (void m s) = final (m s).
Proof. unfold void, mbind, M_bind, mret, M_ret. destruct (m s); reflexivity. Qed.

Lemma raised_void {A} (m : M PriorityDict.t A) s e s' :
  void m s = Raise e s' → m s = Raise e s'.
Proof. unfold void, mbind, M_bind, mret, M_ret. destruct (m s); [discriminate|]. by intros [= -> ->]. Qed.

Lemma apply_op_inv o s : inv s → inv (final (apply_op o s)).
Proof.
  intros Hi.
  destruct o as [key value|key|key default|i|key default| |args kwargs
                |that|that|that|that|that|that|that|that|value|idx];
    simpl; rewrite ?final_void.
  - by destruct (setitem_run s key value Hi) as (s' & -> & ? & _).
  - destruct (_dict s !! key) as [v|] eqn:E.
    + by destruct (delitem_run s key v Hi E) as (s' & -> & ? & _).
    + by rewrite delitem_absent.
  - destruct (_dict s !! key) as [v|] eqn:E.
    + by destruct (pop_run s key v default Hi E) as (s' & -> & ? & _).
    + rewrite pop_absent by done. by destruct default.
  - pose proof (popitem_run s i Hi) as H.
    destruct (popitem i s) as [[k v] s'|e s']; simpl; [tauto|].
    by destruct H as [_ ->].
  - by apply setdefault_inv.
  - apply inv_empty.
  - by apply update_inv.
  - by destruct (iadd_returns s that Hi) as (s' & -> & ?).
  - by destruct (isub_returns s that Hi) as (s' & -> & ?).
  - by destruct (ior_returns s that Hi) as (s' & -> & ?).
  - by destruct (iand_returns s that Hi) as (s' & -> & ?).
  - by destruct (add_returns s that) as (s' & -> & ?).
  - by destruct (sub_returns s that) as (s' & -> & ?).
  - by destruct (or_returns s that) as (s' & -> & ?).
  - by destruct (and_returns s that) as (s' & -> & ?).
  - by destruct (clean_run s value Hi) as (s' & -> & ? & _).
  - destruct idx as [i|sl].
    + pose proof (iloc_delitem_index_run s i Hi) as H.
      destruct (_IlocWrapper.__delitem__ _ s) as [a s'|e s']; simpl; [done|].
      by destruct H as [_ ->].
    + pose proof (iloc_delitem_slice_run s sl Hi) as H.
      destruct (_IlocWrapper.__delitem__ _ s) as [a s'|e s']; simpl; [done|].
      by destruct H as [_ ->].
Qed.

Lemma run_inv ops s : inv s → inv (run ops s).
Proof.
  revert s. induction ops as [|o ops IH]; intros s Hi; simpl; [done|].
  by apply IH, apply_op_inv.
Qed.

Lemma occurrences_NoDup (x : item) l : NoDup l → x ∈ l → occurrences x l = 1%nat.
Proof.
  unfold occurrences. induction 1 as [|y l Hy Hnd IH]; intros Hx.
  - by apply elem_of_nil in Hx.
  - apply elem_of_cons in Hx as [->|Hx].
    + rewrite filter_cons_True by done. simpl. f_equal.
      apply length_zero_iff_nil, (filter_none (λ z, z = y)).
      apply Forall_forall. intros z Hz ->. done.
    + rewrite filter_cons_False by (intros ->; done). by apply IH.
Qed.

(** I1, I2 and I3 as the specification words them. *)
Lemma inv_spec s :
  inv s →
  size (_dict s) = length (_list s) ∧
  (∀ k v, _dict s !! k = Some v → occurrences (v, k) (_list s) = 1%nat) ∧
  (∀ v k, (v, k) ∈ _list s → _dict s !! k = Some v) ∧
  sorted (_list s).
Proof.
  intros Hi. split; [by apply inv_size|]. split; [|split; [|apply Hi]].
  - intros k v Hk. apply occurrences_NoDup; [apply sorted_NoDup, Hi|].
    by apply (proj2 Hi).
  - intros v k. apply (proj2 Hi).
Qed.

(** The module's own self-test passes on a container that satisfies the
    invariant. *)
Lemma inv_check s : inv s → _check s = true.
Proof.
  intros Hi. unfold _check. rewrite !andb_true_iff. split; [split|].
  - apply bool_decide_eq_true. destruct Hi as [Hs _].
    induction Hs as [|x l Hs IH Hx]; [constructor|].
    constructor; [done|]. destruct Hx as [|y l' Hxy _]; constructor.
    destruct (SortedList.item_ltb y x) eqn:E; [|done].
    exfalso. apply (item_lt_irrefl x). by apply (item_lt_trans x y x).
  - apply bool_decide_eq_true. by apply inv_size.
  - apply forallb_forall. intros [v k] Hin. apply bool_decide_eq_true. simpl.
    apply (proj2 Hi). by apply list_elem_of_In.
Qed.

End Steps.

(** C1. Starting from the container that the constructor sets up, after
    every sequence of public operations (set, delete, pop, popitem, update,
    the in-place and the copy-producing merges, prune, positional delete)
    the Mapping Index and the Order Index have the same number of entries,
    every key [k] with value [v] of the Mapping Index has exactly one pair
    [(v, k)] in the Order Index and every pair of the Order Index is an
    entry of the Mapping Index, and the Order Index is in ascending
    [(value, key)] order.  A call that raises is covered as well. *)
Theorem invariants_after_every_call (ops : list op) :
  let s := run ops PriorityDict.empty in
  size (_dict s) = length (_list s) ∧
  (∀ k v, _dict s !! k = Some v → occurrences (v, k) (_list s) = 1%nat) ∧
  (∀ v k, (v, k) ∈ _list s → _dict s !! k = Some v) ∧
  sorted (_list s).
Proof.
  apply inv_spec, run_inv, inv_empty.
Qed.

(** ** Containers used to instantiate the statements *)

Lemma init_inv args kwargs : inv (final (__init__ args kwargs)).
Proof. apply update_inv, inv_empty. Qed.

Lemma count_inv elements : inv (final (count elements)).
Proof. apply init_inv. Qed.

(** ** Bisection and pruning on a container *)

Section Queries.

Implicit Types (s : PriorityDict.t) (v t : Z).

Lemma bisect_left_length s v :
  inv s →
  bisect_left s v = Z.of_nat (length (filter (λ x : item, x.1 < v) (_list s))).
Proof.
  intros [Hs _]. destruct (bisect_left_split (_list s) v Hs) as [Ht _].
  rewrite <- Ht, length_take_le.
  - unfold bisect_left. rewrite bisect_left_lead.
    pose proof (lead_bounds (λ x, SortedList.item_lt_probe x (SortedList.ProbeValue v)) (_list s)).
    lia.
  - rewrite bisect_left_lead.
    pose proof (lead_bounds (λ x, SortedList.item_lt_probe x (SortedList.ProbeValue v)) (_list s)).
    lia.
Qed.

Lemma bisect_right_length s v :
  inv s →
  bisect_right s v = Z.of_nat (length (filter (λ x : item, x.1 ≤ v) (_list s))).
Proof.
  intros [Hs _]. destruct (bisect_right_split (_list s) v Hs) as [Ht _].
  rewrite <- Ht, length_take_le.
  - unfold bisect_right. rewrite bisect_right_lead.
    pose proof (lead_bounds (λ x, negb (SortedList.probe_lt_item (SortedList.ProbeBiggest v) x)) (_list s)).
    lia.
  - rewrite bisect_right_lead.
    pose proof (lead_bounds (λ x, negb (SortedList.probe_lt_item (SortedList.ProbeBiggest v) x)) (_list s)).
    lia.
Qed.

Lemma values_equal_size s v :
  inv s →
  size (filter (λ kv : string * Z, kv.2 = v) (_dict s)) =
  length (filter (λ x : item, x.1 = v) (_list s)).
Proof.
  intros Hi. rewrite <- length_map_to_list.
  rewrite <- (length_fmap (λ x : item, (x.2, x.1)) (filter _ (_list s))).
  apply Permutation_length, NoDup_Permutation.
  - apply NoDup_map_to_list.
  - apply NoDup_fmap_2.
    + intros [??] [??]; simpl; congruence.
    + apply NoDup_filter, sorted_NoDup, Hi.
  - intros [k w]. rewrite elem_of_map_to_list, map_lookup_filter_Some.
    rewrite list_elem_of_fmap. simpl. split.
    + intros [Hk ->]. exists (v, k). split; [done|].
      apply list_elem_of_filter. split; [done|]. by apply (proj2 Hi).
    + intros ([w' k'] & [= -> ->] & [Hv Hin]%list_elem_of_filter).
      simpl in Hv. subst. split; [|done]. by apply (proj2 Hi).
Qed.

End Queries.

(** C6. On every container, [bisect_left(v) <= bisect_right(v)]; the number
    of entries whose value is exactly [v], counted in the Order Index or in
    the Mapping Index, is [bisect_right(v) - bisect_left(v)]; [bisect_left]
    is the number of Order-Index entries smaller than the probe [(v,)];
    and every entry with value [v] sits at a position from [bisect_left(v)]
    up to, not including, [bisect_right(v)], the position that the
    [(v, _Biggest)] probe yields. *)
Theorem bisect_left_right_count (s : PriorityDict.t) (v : Z) :
  inv s →
  bisect_left s v ≤ bisect_right s v ∧
  Z.of_nat (length (filter (λ x : item, x.1 = v) (_list s)))
    = bisect_right s v - bisect_left s v ∧
  Z.of_nat (size (filter (λ kv : string * Z, kv.2 = v) (_dict s)))
    = bisect_right s v - bisect_left s v ∧
  bisect_left s v
    = Z.of_nat (length (filter
        (λ x, SortedList.item_lt_probe x (SortedList.ProbeValue v) = true) (_list s))) ∧
  bisect_right s v = SortedList.bisect_right (_list s) (SortedList.ProbeBiggest v) ∧
  ∀ (i : nat) (x : item),
    _list s !! i = Some x → x.1 = v →
    bisect_left s v ≤ Z.of_nat i < bisect_right s v.
Proof.
  intros Hi.
  pose proof (bisect_left_length s v Hi) as Hl.
  pose proof (bisect_right_length s v Hi) as Hr.
  pose proof (filter_le_lt_eq (_list s) v) as Hsum.
  split; [lia|]. split; [lia|].
  split; [rewrite (values_equal_size s v Hi); lia|].
  split.
  { rewrite Hl. do 2 f_equal. apply list_filter_iff. intros x. simpl. lia. }
  split; [done|].
  intros i x Hx Hv. destruct Hi as [Hs _].
  destruct (bisect_left_split (_list s) v Hs) as [Htl _].
  destruct (bisect_right_split (_list s) v Hs) as [_ Hdr].
  fold (bisect_left s v) in Htl. fold (bisect_right s v) in Hdr.
  split.
  - destruct (decide (Z.of_nat i < bisect_left s v)) as [Hlt|]; [|lia].
    assert (x ∈ take (Z.to_nat (bisect_left s v)) (_list s)) as Hin.
    { apply elem_of_take. exists i. split; [done|lia]. }
    rewrite Htl in Hin. apply list_elem_of_filter in Hin as [? _]. lia.
  - destruct (decide (Z.of_nat i < bisect_right s v)) as [|Hge]; [done|].
    assert (x ∈ drop (Z.to_nat (bisect_right s v)) (_list s)) as Hin.
    { apply list_elem_of_lookup. exists (i - Z.to_nat (bisect_right s v))%nat.
      rewrite lookup_drop. rewrite <- Hx. f_equal. lia. }
    rewrite Hdr in Hin. apply list_elem_of_filter in Hin as [? _]. lia.
Qed.

Lemma bisect_left_right_count_witness :
  let s := final (count ["a"; "b"; "a"; "b"; "b"]) in
  inv s ∧
  bisect_left s 2 ≤ bisect_right s 2 ∧
  Z.of_nat (length (filter (λ x : item, x.1 = 2) (_list s)))
    = bisect_right s 2 - bisect_left s 2.
Proof.
  intros s. split; [apply count_inv|].
  destruct (bisect_left_right_count s 2 (count_inv _)) as (H1 & H2 & _).
  split; [exact H1|exact H2].
Defined.

(** C7. [clean(t)] succeeds and deletes exactly the entries with value at
    most [t]: the Order Index loses its prefix [[0, bisect_right(t))], the
    Mapping Index loses the keys of that prefix, no entry with value at most
    [t] remains, and a second [clean(t)] leaves the container as the first
    one left it. *)
Theorem clean_removes_prefix_idempotent (s : PriorityDict.t) (t : Z) :
  inv s →
  ∃ s',
    clean t s = Return tt s' ∧
    _list s' = drop (Z.to_nat (bisect_right s t)) (_list s) ∧
    (∀ x, x ∈ _list s' ↔ x ∈ _list s ∧ t < x.1) ∧
    (∀ k v, _dict s' !! k = Some v ↔ _dict s !! k = Some v ∧ t < v) ∧
    clean t s' = Return tt s' ∧
    (clean t ;; clean t) s = clean t s.
Proof.
  intros Hi.
  destruct (clean_run s t Hi) as (s' & Hc & Hi' & Hl & Hf & Hd).
  pose proof (clean_idempotent s t s' Hi Hc) as Hc'.
  exists s'. split; [done|]. split; [done|]. split.
  { intros x. rewrite Hf, list_elem_of_filter. tauto. }
  split; [done|]. split; [done|].
  unfold mbind, M_bind. by rewrite Hc.
Qed.

Lemma clean_removes_prefix_idempotent_witness :
  let s := final (count ["a"; "b"; "a"; "b"; "b"]) in
  inv s ∧
  ∃ s', clean 2 s = Return tt s' ∧ clean 2 s' = Return tt s'.
Proof.
  intros s. split; [apply count_inv|].
  destruct (clean_removes_prefix_idempotent s 2 (count_inv _))
    as (s' & H1 & _ & _ & _ & H2 & _).
  exists s'. split; [exact H1|exact H2].
Defined.

(** ** What the merge loops compute *)

Section MergeResults.

Implicit Types (s self : PriorityDict.t) (d : gmap string Z) (l : list item).
Implicit Types (that items : mapping).

Lemma dict_update_run items d l :
  dict_update items {| _dict := d; _list := l |}
  = Return tt {| _dict := foldl (λ acc kv, <[kv.1 := kv.2]> acc) d items;
                 _list := l |}.
Proof.
  unfold dict_update. revert d.
  induction items as [|kv items IH]; intros d; simpl; [done|].
  unfold mbind, M_bind, dict_setitem at 1. simpl. apply IH.
Qed.

Lemma lookup_foldl_insert items d k v :
  NoDup items.*1 →
  foldl (λ acc kv, <[kv.1 := kv.2]> acc) d items !! k = Some v ↔
  (k, v) ∈ items ∨ ((k ∉ items.*1) ∧ d !! k = Some v).
Proof.
  revert d. induction items as [|[j w] items IH]; intros d Hnd; simpl.
  - rewrite elem_of_nil. split; [|tauto]. intros H. right.
    split; [apply not_elem_of_nil|done].
  - apply NoDup_cons in Hnd as [Hj Hnd]. rewrite IH by done.
    rewrite !elem_of_cons. destruct (decide (k = j)) as [->|Hne].
    + rewrite lookup_insert_eq. split.
      * intros [Hin|[Hn [= ->]]]; [|tauto].
        exfalso. apply Hj. by apply (list_elem_of_fmap_2 fst) in Hin.
      * intros [[[= ->]|Hin]|[Hn _]]; [|tauto|tauto].
        right. split; [done|done].
    + rewrite lookup_insert_ne by done. split.
      * intros [Hin|[Hn Hd]]; [tauto|]. right. split; [|done]. tauto.
      * intros [[[= -> ->]|Hin]|[Hn Hd]]; [done|tauto|]. right. tauto.
Qed.

Lemma foldl_insert_map_to_list d :
  foldl (λ acc kv, <[kv.1 := kv.2]> acc) ∅ (map_to_list d) = d.
Proof.
  apply map_eq. intros k. apply option_eq. intros v.
  rewrite lookup_foldl_insert by apply NoDup_fst_map_to_list.
  rewrite elem_of_map_to_list, lookup_empty. split; [|tauto].
  by intros [?|[_ ?]].
Qed.

Lemma union_loop_run (f : Z → Z → Z) that d l :
  for_each that (λ kv,
    let key := kv.1 in
    let value := kv.2 in
    present ← dict_contains key;
    if present : bool then
      old_value ← dict_getitem key;
      dict_setitem key (f old_value value)
    else dict_setitem key value) {| _dict := d; _list := l |}
  = Return tt {| _dict := foldl (union_step f) d that; _list := l |}.
Proof.
  revert d. induction that as [|kv that IH]; intros d; simpl; [done|].
  unfold mbind at 1, M_bind at 1.
  replace (_ {| _dict := d; _list := l |})
    with (Return (S := PriorityDict.t) tt {| _dict := union_step f d kv; _list := l |}).
  - apply IH.
  - unfold union_step. prims. by destruct (d !! kv.1) as [old|] eqn:E; simpl; rewrite ?E.
Qed.

Lemma inter_loop_run (f : Z → Z → Z) that d l :
  for_each that (λ kv,
    let key := kv.1 in
    let value := kv.2 in
    present ← dict_contains key;
    if present : bool then
      old_value ← dict_getitem key;
      dict_setitem key (f old_value value)
    else mret tt) {| _dict := d; _list := l |}
  = Return tt {| _dict := foldl (inter_step f) d that; _list := l |}.
Proof.
  revert d. induction that as [|kv that IH]; intros d; simpl; [done|].
  unfold mbind at 1, M_bind at 1.
  replace (_ {| _dict := d; _list := l |})
    with (Return (S := PriorityDict.t) tt {| _dict := inter_step f d kv; _list := l |}).
  - apply IH.
  - unfold inter_step. prims. by destruct (d !! kv.1) as [old|] eqn:E; simpl; rewrite ?E.
Qed.

Lemma add_run self that :
  __add__ self that = Return tt (rebuilt (foldl (union_step Z.add) (_dict self) that)).
Proof.
  unfold __add__. rewrite on_new_run.
  unfold mbind at 1, M_bind at 1. unfold empty. rewrite dict_update_run.
  rewrite foldl_insert_map_to_list.
  unfold mbind at 1, M_bind at 1.
  by rewrite (union_loop_run Z.add).
Qed.

Lemma sub_run self that :
  __sub__ self that = Return tt (rebuilt (foldl (inter_step Z.sub) (_dict self) that)).
Proof.
  unfold __sub__. rewrite on_new_run.
  unfold mbind at 1, M_bind at 1. unfold empty. rewrite dict_update_run.
  rewrite foldl_insert_map_to_list.
  unfold mbind at 1, M_bind at 1.
  by rewrite (inter_loop_run Z.sub).
Qed.

Lemma or_run self that :
  __or__ self that = Return tt (rebuilt (foldl (union_step Z.max) (_dict self) that)).
Proof.
  unfold __or__. rewrite on_new_run.
  unfold mbind at 1, M_bind at 1. unfold empty. rewrite dict_update_run.
  rewrite foldl_insert_map_to_list.
  unfold mbind at 1, M_bind at 1.
  by rewrite (union_loop_run Z.max).
Qed.

Lemma and_run self that :
  __and__ self that = Return tt (rebuilt (foldl (inter_step Z.min) (_dict self) that)).
Proof.
  unfold __and__. rewrite on_new_run.
  unfold mbind at 1, M_bind at 1. unfold empty. rewrite dict_update_run.
  rewrite foldl_insert_map_to_list.
  unfold mbind at 1, M_bind at 1.
  by rewrite (inter_loop_run Z.min).
Qed.

Lemma lookup_union_add that d k v :
  d !! k = Some v →
  foldl (union_step Z.add) d that !! k = Some (v + total k that).
Proof.
  revert d v. induction that as [|[j w] that IH]; intros d v Hk; simpl.
  - by rewrite Z.add_0_r.
  - unfold union_step at 2. simpl. destruct (String.eqb_spec j k) as [->|Hne].
    + rewrite Hk. rewrite (IH _ (v + w)) by apply lookup_insert_eq.
      f_equal. lia.
    + destruct (d !! j); apply IH; by rewrite lookup_insert_ne.
Qed.

Lemma lookup_inter_sub that d k v :
  d !! k = Some v →
  foldl (inter_step Z.sub) d that !! k = Some (v - total k that).
Proof.
  revert d v. induction that as [|[j w] that IH]; intros d v Hk; simpl.
  - by rewrite Z.sub_0_r.
  - unfold inter_step at 2. simpl. destruct (String.eqb_spec j k) as [->|Hne].
    + rewrite Hk. rewrite (IH _ (v - w)) by apply lookup_insert_eq.
      f_equal. lia.
    + destruct (d !! j); [|by apply IH]. apply IH. by rewrite lookup_insert_ne.
Qed.

End MergeResults.

(** C8. For any container [A] and any mapping [B], the copy-producing Sum
    of [A] and [B] followed by the copy-producing Difference of the result
    and [B] both succeed, and the final container gives every key of [A]
    the value that [A] gives it. *)
Theorem sum_then_difference_restores (A : PriorityDict.t) (B : mapping) :
  ∃ R R',
    __add__ A B = Return tt R ∧
    __sub__ R B = Return tt R' ∧
    ∀ k v, _dict A !! k = Some v → _dict R' !! k = Some v.
Proof.
  eexists _, _. split; [apply add_run|]. split; [apply sub_run|].
  intros k v Hk. simpl.
  rewrite (lookup_inter_sub B _ k (v + total k B)).
  - f_equal. lia.
  - by apply lookup_union_add.
Qed.

(** ** In-place merges on an empty container *)

Section EmptySelf.

Implicit Types (s : PriorityDict.t) (that : mapping).

Lemma empty_self s : inv s → __len__ s = 0 → s = empty.
Proof.
  intros Hi Hn. unfold __len__ in Hn.
  assert (size (_dict s) = O) as Hz by lia.
  apply state_eq; simpl.
  - by apply inv_list_nil.
  - intros k. by rewrite (map_size_empty_inv _ Hz).
Qed.

Lemma iadd_empty_run that :
  __iadd__ that empty
  = Return tt (rebuilt (foldl (λ acc kv, <[kv.1 := kv.2]> acc) ∅ that)).
Proof.
  unfold __iadd__. unfold mbind at 1, M_bind at 1, dict_len at 1.
  change (Z.of_nat (size (_dict empty)) =? 0) with true. cbv beta iota.
  unfold mbind at 1, M_bind at 1. unfold empty. by rewrite dict_update_run.
Qed.

Lemma ior_empty_run that :
  __ior__ that empty
  = Return tt (rebuilt (foldl (λ acc kv, <[kv.1 := kv.2]> acc) ∅ that)).
Proof.
  unfold __ior__. unfold mbind at 1, M_bind at 1, dict_len at 1.
  change (Z.of_nat (size (_dict empty)) =? 0) with true. cbv beta iota.
  unfold mbind at 1, M_bind at 1. unfold empty. by rewrite dict_update_run.
Qed.

Lemma isub_empty_run that : __isub__ that empty = Return tt empty.
Proof. reflexivity. Qed.

Lemma iand_empty_run that : __iand__ that empty = Return tt empty.
Proof. reflexivity. Qed.

Lemma loaded_spec that :
  NoDup that.*1 →
  let s' := rebuilt (foldl (λ acc kv, <[kv.1 := kv.2]> acc) ∅ that) in
  (∀ k v, _dict s' !! k = Some v ↔ (k, v) ∈ that) ∧
  _list s' = SortedList.update (swap <$> map_to_list (_dict s')) [] ∧
  inv s'.
Proof.
  intros Hnd s'. split; [|split; [done|apply inv_rebuild]].
  intros k v. simpl. rewrite lookup_foldl_insert by done.
  rewrite lookup_empty. split; [|tauto]. by intros [?|[_ ?]].
Qed.

End EmptySelf.

(** C5, as stated, fails for Difference: on an empty [self],
    [__isub__] clears both indices instead of loading the operand, so the
    operand's entry [x: 5] is not in [self] afterwards. *)
Lemma isub_on_empty_self_loads_nothing :
  let that := [("x", 5)] in
  __isub__ that empty = Return tt empty ∧
  ¬ (∀ k v, _dict (final (__isub__ that empty)) !! k = Some v ↔ (k, v) ∈ that).
Proof.
  intros that. split; [reflexivity|].
  intros H. specialize (H "x" 5). rewrite isub_empty_run in H. simpl in H.
  rewrite lookup_empty in H. destruct H as [_ H].
  discriminate H. left.
Qed.

(** C5, amended. When [self] is empty, the in-place Sum and Max load the
    operand's entries and rebuild the Order Index from the Mapping Index, so
    that [self] then holds exactly the operand's entries; the in-place
    Difference and Min leave [self] empty. *)
Theorem inplace_merge_on_empty_self (s : PriorityDict.t) (that : mapping) :
  inv s → __len__ s = 0 → NoDup that.*1 →
  (∃ s', __iadd__ that s = Return tt s' ∧
         (∀ k v, _dict s' !! k = Some v ↔ (k, v) ∈ that) ∧
         _list s' = SortedList.update (swap <$> map_to_list (_dict s')) [] ∧
         inv s') ∧
  (∃ s', __ior__ that s = Return tt s' ∧
         (∀ k v, _dict s' !! k = Some v ↔ (k, v) ∈ that) ∧
         _list s' = SortedList.update (swap <$> map_to_list (_dict s')) [] ∧
         inv s') ∧
  __isub__ that s = Return tt empty ∧
  __iand__ that s = Return tt empty.
Proof.
  intros Hi Hn Hnd. rewrite (empty_self s Hi Hn).
  split; [|split; [|split; [apply isub_empty_run|apply iand_empty_run]]].
  - eexists. split; [apply iadd_empty_run|]. by apply loaded_spec.
  - eexists. split; [apply ior_empty_run|]. by apply loaded_spec.
Qed.

Lemma inplace_merge_on_empty_self_witness :
  let that := [("x", 5); ("y", 2)] in
  inv empty ∧ __len__ empty = 0 ∧ NoDup that.*1 ∧
  (∃ s', __iadd__ that empty = Return tt s' ∧
         ∀ k v, _dict s' !! k = Some v ↔ (k, v) ∈ that) ∧
  __isub__ that empty = Return tt empty.
Proof.
  intros that.
  assert (NoDup that.*1) as Hnd by (apply (bool_decide_unpack _); vm_compute; exact I).
  split; [apply inv_empty|]. split; [reflexivity|]. split; [exact Hnd|].
  destruct (inplace_merge_on_empty_self empty that inv_empty eq_refl Hnd)
    as ((s' & H1 & H2 & _) & _ & H3 & _).
  split; [|exact H3]. exists s'. split; [exact H1|exact H2].
Defined.

(** ** [update], the constructor and the value view on concrete inputs *)

(** C2. On a container of ten entries, [update] with the single new key
    [new] takes the incremental path (10 * 1 is not greater than 10), reads
    [_dict["new"]] and raises [KeyError]; the key is not added.  With nine
    entries the same call takes the rebuild path and adds the key. *)
Theorem update_incremental_path_rejects_new_key :
  let s := final (__init__ (Some (Mapping ten)) []) in
  let s9 := final (__init__ (Some (Mapping (take 9 ten))) []) in
  __len__ s = 10 ∧
  update (Some (Mapping [("new", 1)])) [] s = Raise KeyError s ∧
  _dict s !! "new" = None ∧
  raised (update (Some (Mapping [("new", 1)])) [] s9) = None ∧
  _dict (final (update (Some (Mapping [("new", 1)])) [] s9)) !! "new" = Some 1.
Proof.
  vm_compute. repeat split; reflexivity.
Qed.

(** C3. Constructing a container from the bare keys
    [["a","b","a","b","b"]] raises [ValueError]: [__init__] hands the list
    to [dict], which wants pairs.  The classmethod [count] does tally the
    same keys to [{a: 2, b: 3}], and [most_common(1)] on that container is
    [[("b", 3)]]. *)
Theorem init_from_bare_keys_raises :
  __init__ (Some (Iterable [Str "a"; Str "b"; Str "a"; Str "b"; Str "b"])) []
  = Raise ValueError empty ∧
  let s := final (count ["a"; "b"; "a"; "b"; "b"]) in
  raised (count ["a"; "b"; "a"; "b"; "b"]) = None ∧
  map_to_list (_dict s) = [("a", 2); ("b", 3)] ∧
  _list s = [(2, "a"); (3, "b")] ∧
  most_common (Some 1) s = Return [("b", 3)] s.
Proof.
  vm_compute. repeat split; reflexivity.
Qed.

(** C4. On a container of twenty entries, [update] with the present key
    [k0] and the new key [zz] takes the incremental path, re-keys [k0] and
    then raises [KeyError] on [zz]: the error surfaces with [k0] already
    changed in both indices. *)
Theorem update_raises_after_partial_change :
  let s := final (__init__ (Some (Mapping twenty)) []) in
  let o := update (Some (Mapping [("k0", 100); ("zz", 1)])) [] s in
  raised o = Some KeyError ∧
  _dict s !! "k0" = Some 0 ∧
  _dict (final o) !! "k0" = Some 100 ∧
  (0, "k0") ∈ _list s ∧
  ((0, "k0") ∉ _list (final o)) ∧
  final o ≠ s.
Proof.
  intros s o.
  assert (_dict (final o) !! "k0" = Some 100) as H1 by (vm_compute; reflexivity).
  assert (_dict s !! "k0" = Some 0) as H0 by (vm_compute; reflexivity).
  split; [vm_compute; reflexivity|]. split; [done|]. split; [done|].
  split; [apply (bool_decide_unpack _); vm_compute; exact I|].
  split; [apply (bool_decide_unpack _); vm_compute; exact I|].
  intros Heq. rewrite Heq in H1. congruence.
Qed.

(** C9. [ValuesView.index] reads [self._dict], an attribute that a
    [ValuesView] does not have: it raises [AttributeError] for every view
    and every value, whether or not the value is present. *)
Theorem values_view_index_raises (self : ValuesView.t) (value : Z) :
  ValuesView.index value self = Raise AttributeError self.
Proof. reflexivity. Qed.

(** [ValuesView.count] is the number of entries with the given value. *)
Lemma values_view_count (s : PriorityDict.t) (value : Z) :
  inv s →
  ValuesView.count (ValuesView.__init__ s) value
  = Z.of_nat (length (filter (λ x : item, x.1 = value) (_list s))).
Proof.
  intros Hi. unfold ValuesView.count, ValuesView.__init__. simpl.
  fold (bisect_left s value). fold (bisect_right s value).
  rewrite (bisect_left_length s value Hi), (bisect_right_length s value Hi).
  pose proof (filter_le_lt_eq (_list s) value). lia.
Qed.

(** ** Calls that raise *)

Lemma setdefault_returns s key default :
  ∃ v s', setdefault key default s = Return v s'.
Proof.
  unfold setdefault, dict_contains, dict_getitem, dict_setitem, list_add,
    lift_list, mbind, M_bind, mret, M_ret. simpl.
  destruct (_dict s !! key) as [old|] eqn:E; simpl; [rewrite E|]; by eexists _, _.
Qed.

(** A public operation that raises leaves the invariant in place, and
    leaves the state as it was unless it is [update] raising [KeyError]. *)
Lemma failed_call_state (o : op) (s : PriorityDict.t) e s' :
  inv s → apply_op o s = Raise e s' →
  inv s' ∧ (s' = s ∨ (∃ args kwargs, o = OpUpdate args kwargs) ∧ e = KeyError).
Proof.
  intros Hi.
  destruct o as [key value|key|key default|i|key default| |args kwargs
                |that|that|that|that|that|that|that|that|value|idx];
    simpl; intros Hr; try apply raised_void in Hr.
  - destruct (setitem_run s key value Hi) as (s1 & H1 & _). congruence.
  - destruct (_dict s !! key) as [v|] eqn:E.
    + destruct (delitem_run s key v Hi E) as (s1 & H1 & _). congruence.
    + rewrite delitem_absent in Hr by done. injection Hr as <- <-. by split; [|left].
  - destruct (_dict s !! key) as [v|] eqn:E.
    + destruct (pop_run s key v default Hi E) as (s1 & H1 & _). congruence.
    + rewrite pop_absent in Hr by done. destruct default; [done|].
      injection Hr as <- <-. by split; [|left].
  - pose proof (popitem_run s i Hi) as H. rewrite Hr in H.
    destruct H as [_ ->]. by split; [|left].
  - destruct (setdefault_returns s key default) as (v & s1 & H1). congruence.
  - done.
  - pose proof (update_outcome s args kwargs Hi) as H. rewrite Hr in H.
    destruct H as [H1 [-> | ->]]; (split; [done|]); [by left|].
    right. split; [by eexists _, _|done].
  - destruct (iadd_returns s that Hi) as (s1 & H1 & _). congruence.
  - destruct (isub_returns s that Hi) as (s1 & H1 & _). congruence.
  - destruct (ior_returns s that Hi) as (s1 & H1 & _). congruence.
  - destruct (iand_returns s that Hi) as (s1 & H1 & _). congruence.
  - destruct (add_returns s that) as (s1 & H1 & _). congruence.
  - destruct (sub_returns s that) as (s1 & H1 & _). congruence.
  - destruct (or_returns s that) as (s1 & H1 & _). congruence.
  - destruct (and_returns s that) as (s1 & H1 & _). congruence.
  - destruct (clean_run s value Hi) as (s1 & H1 & _). congruence.
  - destruct idx as [i|sl].
    + pose proof (iloc_delitem_index_run s i Hi) as H. rewrite Hr in H.
      destruct H as [_ ->]. by split; [|left].
    + pose proof (iloc_delitem_slice_run s sl Hi) as H. rewrite Hr in H.
      destruct H as [_ ->]. by split; [|left].
Qed.

Import Heap.

(** ** Containers as objects: [copy] *)

Section Objects.

Implicit Types (h : heap) (self that : loc) (a : instance).

Lemma load_run h l c : h !! l = Some c → load l h = Return c h.
Proof. intros H. unfold load. by rewrite H. Qed.

Lemma attrs_of_run h self a :
  h !! self = Some (CPriorityDict a) → attrs_of self h = Return a h.
Proof.
  intros H. unfold attrs_of, mbind, M_bind. by rewrite (load_run h self _ H).
Qed.

Lemma getattr_run (field : instance → option loc) h self a l :
  h !! self = Some (CPriorityDict a) → field a = Some l →
  getattr field self h = Return l h.
Proof.
  intros H Hf. unfold getattr, mbind, M_bind.
  rewrite (attrs_of_run h self a H). by rewrite Hf.
Qed.

Lemma setattr_dict_run h self a v :
  h !! self = Some (CPriorityDict a) →
  setattr_dict self v h
  = Return tt (<[self := CPriorityDict (Attrs (Some v) (attr_list a) (attr_iloc a))]> h).
Proof.
  intros H. unfold setattr_dict, mbind, M_bind.
  by rewrite (attrs_of_run h self a H).
Qed.

Lemma setattr_list_run h self a v :
  h !! self = Some (CPriorityDict a) →
  setattr_list self v h
  = Return tt (<[self := CPriorityDict (Attrs (attr_dict a) (Some v) (attr_iloc a))]> h).
Proof.
  intros H. unfold setattr_list, mbind, M_bind.
  by rewrite (attrs_of_run h self a H).
Qed.

Lemma setattr_iloc_run h self a v :
  h !! self = Some (CPriorityDict a) →
  setattr_iloc self v h
  = Return tt (<[self := CPriorityDict (Attrs (attr_dict a) (attr_list a) (Some v))]> h).
Proof.
  intros H. unfold setattr_iloc, mbind, M_bind.
  by rewrite (attrs_of_run h self a H).
Qed.

Lemma call_run {A} (m : M PriorityDict.t A) h self a d l dm sl :
  h !! self = Some (CPriorityDict a) →
  attr_dict a = Some d → attr_list a = Some l →
  h !! d = Some (CDict dm) → h !! l = Some (CSortedList sl) →
  call self m h =
    match m {| PriorityDict._dict := dm; PriorityDict._list := sl |} with
    | Return r s => Return r (written h d l s)
    | Raise e s => Raise e (written h d l s)
    end.
Proof.
  intros Hs Hd Hl Hdm Hsl. unfold call.
  unfold mbind at 1, M_bind at 1. rewrite (getattr_run attr_dict h self a d Hs Hd).
  unfold mbind at 1, M_bind at 1. rewrite (getattr_run attr_list h self a l Hs Hl).
  unfold mbind at 1, M_bind at 1. rewrite (load_run h d _ Hdm).
  unfold mbind at 1, M_bind at 1. rewrite (load_run h l _ Hsl).
  done.
Qed.

(** Cells appended to a heap [h] sit at [length h], [length h + 1], ... *)
Lemma ext_lookup h (cells : list cell) k :
  (h ++ cells)%list !! (length h + k)%nat = cells !! k.
Proof. rewrite lookup_app_r by lia. f_equal. lia. Qed.

Lemma ext_insert h (cells : list cell) k c :
  <[(length h + k)%nat := c]> (h ++ cells)%list = (h ++ <[k := c]> cells)%list.
Proof. apply insert_app_r. Qed.

Lemma ext_lookup_old h (cells : list cell) l c :
  h !! l = Some c → (h ++ cells)%list !! l = Some c.
Proof. intros H. by apply lookup_app_l_Some. Qed.

Lemma self_lookup h c (rest : list cell) :
  (h ++ c :: rest)%list !! length h = Some c.
Proof. by apply list_lookup_middle. Qed.

Lemma self_insert h c c' (rest : list cell) :
  <[length h := c']> (h ++ c :: rest)%list = (h ++ c' :: rest)%list.
Proof. rewrite insert_app_r_alt by lia. by rewrite Nat.sub_diag. Qed.

Lemma alloc_ext h (cells : list cell) c :
  alloc c (h ++ cells)%list
  = Return (length h + length cells)%nat (h ++ (cells ++ [c]))%list.
Proof. unfold alloc. by rewrite length_app, app_assoc. Qed.

Lemma new_run h :
  new None [] h =
  Return (length h)
    (h ++ fresh (length h)
            (Attrs (Some (length h + 1)%nat) (Some (length h + 2)%nat)
                   (Some (length h + 3)%nat)))%list.
Proof.
  unfold new.
  unfold mbind at 1, M_bind at 1. unfold alloc at 1.
  unfold mbind at 1, M_bind at 1. rewrite (alloc_ext h [_]). simpl.
  unfold mbind at 1, M_bind at 1.
  erewrite setattr_dict_run by apply self_lookup. rewrite self_insert. simpl.
  unfold mbind at 1, M_bind at 1. rewrite (alloc_ext h [_; _]). simpl.
  unfold mbind at 1, M_bind at 1.
  erewrite setattr_list_run by apply self_lookup. rewrite self_insert. simpl.
  unfold mbind at 1, M_bind at 1. rewrite (alloc_ext h [_; _; _]). simpl.
  unfold mbind at 1, M_bind at 1.
  erewrite setattr_iloc_run by apply self_lookup. rewrite self_insert. simpl.
  unfold mbind at 1, M_bind at 1.
  erewrite (call_run _ _ _ _ (length h + 1)%nat (length h + 2)%nat ∅ []);
    [|apply self_lookup|reflexivity|reflexivity
     |by rewrite ext_lookup|by rewrite ext_lookup].
  change (PriorityDict.update None [] _) with
    (Return (S := PriorityDict.t) tt PriorityDict.empty).
  unfold written. rewrite !ext_insert. simpl.
  done.
Qed.

Lemma copy_run h self d l w :
  h !! self = Some (CPriorityDict (Attrs (Some d) (Some l) (Some w))) →
  copy self h =
  Return (length h)
    (h ++ fresh (length h) (Attrs (Some d) (Some l) (Some w)))%list.
Proof.
  intros Hs. unfold copy.
  unfold mbind at 1, M_bind at 1. rewrite new_run. unfold fresh.
  unfold mbind at 1, M_bind at 1.
  erewrite (getattr_run attr_dict) by (by apply ext_lookup_old || done).
  unfold mbind at 1, M_bind at 1.
  erewrite setattr_dict_run by apply self_lookup. rewrite self_insert. simpl.
  unfold mbind at 1, M_bind at 1.
  erewrite (getattr_run attr_list) by (by apply ext_lookup_old || done).
  unfold mbind at 1, M_bind at 1.
  erewrite setattr_list_run by apply self_lookup. rewrite self_insert. simpl.
  unfold mbind at 1, M_bind at 1.
  erewrite (getattr_run attr_iloc) by (by apply ext_lookup_old || done).
  unfold mbind at 1, M_bind at 1.
  erewrite setattr_iloc_run by apply self_lookup. rewrite self_insert. simpl.
  done.
Qed.

Lemma view_written h x d l w s dm sl :
  h !! x = Some (CPriorityDict (Attrs (Some d) (Some l) w)) →
  h !! d = Some (CDict dm) → h !! l = Some (CSortedList sl) →
  view x (written h d l s) = Some s.
Proof.
  intros Hx Hd Hl.
  assert (x ≠ d) by (intros ->; congruence).
  assert (x ≠ l) by (intros ->; congruence).
  assert (d ≠ l) by (intros ->; congruence).
  pose proof (lookup_lt_Some _ _ _ Hd). pose proof (lookup_lt_Some _ _ _ Hl).
  unfold view, written.
  rewrite !list_lookup_insert_ne by done. rewrite Hx.
  rewrite list_lookup_insert_ne by done.
  rewrite list_lookup_insert_eq by done.
  rewrite list_lookup_insert_eq by (by rewrite length_insert).
  by destruct s.
Qed.

End Objects.

(** C10. [copy()] returns a new container whose [_dict], [_list] and
    [iloc] attributes refer to the very objects that the original's
    attributes refer to.  Hence whatever a method called on the copy, or on
    the copy's positional accessor, does to the indices (setting a key,
    deleting one, any other mutation, also one cut short by a raise) is what
    the original shows afterwards. *)
Theorem copy_shares_indices (h : heap) (self d l w : loc)
    (dm : gmap string Z) (sl : list item) :
  h !! self = Some (CPriorityDict (Attrs (Some d) (Some l) (Some w))) →
  h !! d = Some (CDict dm) →
  h !! l = Some (CSortedList sl) →
  h !! w = Some (CIlocWrapper self) →
  ∃ that h',
    copy self h = Return that h' ∧
    that ≠ self ∧
    attrs that h' = Some (Attrs (Some d) (Some l) (Some w)) ∧
    attrs self h' = Some (Attrs (Some d) (Some l) (Some w)) ∧
    ∀ (A : Type) (m : M PriorityDict.t A),
      let o0 := m {| PriorityDict._dict := dm; PriorityDict._list := sl |} in
      (let o := call that m h' in
       returned o = returned o0 ∧ raised o = raised o0 ∧
       view self (final o) = Some (final o0) ∧
       view that (final o) = Some (final o0)) ∧
      (let o := (i ← getattr attr_iloc that; call_iloc i m) h' in
       returned o = returned o0 ∧ raised o = raised o0 ∧
       view self (final o) = Some (final o0) ∧
       view that (final o) = Some (final o0)).
Proof.
  intros Hs Hd Hl Hw.
  exists (length h), (h ++ fresh (length h) (Attrs (Some d) (Some l) (Some w)))%list.
  pose proof (lookup_lt_Some _ _ _ Hs) as Hlt.
  set (h' := (h ++ fresh _ _)%list).
  assert (h' !! self = Some (CPriorityDict (Attrs (Some d) (Some l) (Some w))))
    as Hs' by (by apply ext_lookup_old).
  assert (h' !! length h = Some (CPriorityDict (Attrs (Some d) (Some l) (Some w))))
    as Ht' by apply self_lookup.
  assert (h' !! d = Some (CDict dm)) as Hd' by (by apply ext_lookup_old).
  assert (h' !! l = Some (CSortedList sl)) as Hl' by (by apply ext_lookup_old).
  assert (h' !! w = Some (CIlocWrapper self)) as Hw' by (by apply ext_lookup_old).
  split; [by apply copy_run|]. split; [lia|].
  split; [unfold attrs; by rewrite Ht'|]. split; [unfold attrs; by rewrite Hs'|].
  intros A m o0.
  assert (∀ x, h' !! x = Some (CPriorityDict (Attrs (Some d) (Some l) (Some w))) →
               let o := call x m h' in
               returned o = returned o0 ∧ raised o = raised o0 ∧
               view self (final o) = Some (final o0) ∧
               view (length h) (final o) = Some (final o0)) as Hcall.
  { intros x Hx o. subst o.
    rewrite (call_run m h' x _ d l dm sl Hx eq_refl eq_refl Hd' Hl').
    fold o0. destruct o0 as [r s|e s]; simpl;
      (split; [done|]; split; [done|]; split; eapply view_written; eauto). }
  split; [by apply Hcall|].
  assert ((i ← getattr attr_iloc (length h); call_iloc i m) h' = call self m h')
    as Hiloc.
  { unfold mbind at 1, M_bind at 1.
    rewrite (getattr_run attr_iloc h' (length h) _ w Ht' eq_refl).
    unfold call_iloc, mbind at 1, M_bind at 1. by rewrite (load_run h' w _ Hw'). }
  cbv zeta. rewrite Hiloc. by apply Hcall.
Qed.

Lemma copy_shares_indices_witness :
  let h := [CPriorityDict (Attrs (Some 1%nat) (Some 2%nat) (Some 3%nat));
            CDict {["a" := 1]}; CSortedList [(1, "a")]; CIlocWrapper 0%nat] in
  h !! 0%nat = Some (CPriorityDict (Attrs (Some 1%nat) (Some 2%nat) (Some 3%nat))) ∧
  ∃ that h',
    copy 0%nat h = Return that h' ∧ that ≠ 0%nat ∧
    view 0%nat (final (call that (PriorityDict.__setitem__ "z" 9) h'))
    = Some (final (PriorityDict.__setitem__ "z" 9
                     {| PriorityDict._dict := {["a" := 1]};
                        PriorityDict._list := [(1, "a")] |})).
Proof.
  intros h. split; [reflexivity|].
  destruct (copy_shares_indices h 0%nat 1%nat 2%nat 3%nat {["a" := 1]} [(1, "a")]
              eq_refl eq_refl eq_refl eq_refl)
    as (that & h' & H1 & H2 & _ & _ & H3).
  exists that, h'. split; [exact H1|]. split; [exact H2|].
  destruct (H3 unit (PriorityDict.__setitem__ "z" 9)) as [(_ & _ & H4 & _) _].
  exact H4.
Defined.

(* ================================================================== *)
(** * Further properties of the methods *)

(* ================================================================== *)
(** * Further properties of the container *)

(** ** Single-key operations *)

Section SingleKey.

Implicit Types (s : PriorityDict.t) (key : string) (value : Z).

Lemma inv_unique s s' : inv s → inv s' → _dict s = _dict s' → s = s'.
Proof.
  intros Hi Hi' Hd. apply state_eq; [|by rewrite Hd].
  apply (StronglySorted_unique_strong item_lt); [|apply Hi|apply Hi'|].
  - intros x y _ _ Hxy Hyx. exfalso.
    apply (item_lt_irrefl x). by apply (item_lt_trans x y x).
  - apply NoDup_Permutation; [apply sorted_NoDup, Hi|apply sorted_NoDup, Hi'|].
    intros [v k]. by rewrite <- (proj2 Hi), <- (proj2 Hi'), Hd.
Qed.

Lemma sorted_lookup_lt (l : list item) i j x y :
  sorted l → l !! i = Some x → l !! j = Some y → (i < j)%nat → item_lt x y.
Proof.
  intros Hs. revert i j. induction Hs as [|z l Hs IH Hz]; intros i j Hi Hj Hlt.
  - done.
  - destruct j as [|j]; [lia|]. destruct i as [|i]; simpl in *.
    + injection Hi as <-. rewrite Forall_forall in Hz.
      by eapply Hz, list_elem_of_lookup_2.
    + apply (IH i j); [done|done|lia].
Qed.

End SingleKey.

(** X1. Under the invariant, [d[key] = value] succeeds, [d[key]] then
    returns [value], every other key keeps its value, and the length grows
    by one exactly when the key was absent. *)
Theorem setitem_then_getitem (s : PriorityDict.t) (key : string) (value : Z) :
  inv s →
  ∃ s',
    __setitem__ key value s = Return tt s' ∧
    __getitem__ key s' = Return value s' ∧
    (∀ j, j ≠ key → _dict s' !! j = _dict s !! j) ∧
    __len__ s' = (if __contains__ s key then __len__ s else __len__ s + 1) ∧
    inv s'.
Proof.
  intros Hi. destruct (setitem_run s key value Hi) as (s' & Hr & Hi' & Hd).
  exists s'. split; [done|]. split.
  { unfold __getitem__, dict_getitem. by rewrite Hd, lookup_insert_eq. }
  split.
  { intros j Hj. by rewrite Hd, lookup_insert_ne. }
  split; [|done].
  unfold __len__, __contains__. rewrite Hd.
  destruct (_dict s !! key) as [old|] eqn:E.
  - rewrite bool_decide_eq_true_2 by by eexists.
    by rewrite map_size_insert_Some by by eexists.
  - rewrite bool_decide_eq_false_2 by (by intros [? ?]).
    rewrite map_size_insert_None by done. lia.
Qed.

Lemma setitem_then_getitem_witness :
  let s := final (count ["a"; "b"; "a"; "b"; "b"]) in
  inv s ∧
  ∃ s', __setitem__ "c" 7 s = Return tt s' ∧ __getitem__ "c" s' = Return 7 s'.
Proof.
  intros s. split; [apply count_inv|].
  destruct (setitem_then_getitem s "c" 7 (count_inv _)) as (s' & H1 & H2 & _).
  exists s'. split; [exact H1|exact H2].
Defined.

(** X2. Under the invariant, [del d[key]] on a present key removes that
    key and its pair and nothing else; on an absent key it raises
    [KeyError] and leaves the container as it was. *)
Theorem delitem_outcome (s : PriorityDict.t) (key : string) :
  inv s →
  match _dict s !! key with
  | Some value =>
      ∃ s', __delitem__ key s = Return tt s' ∧
            _dict s' = delete key (_dict s) ∧
            (∀ x, x ∈ _list s' ↔ x ∈ _list s ∧ x ≠ (value, key)) ∧
            inv s'
  | None => __delitem__ key s = Raise KeyError s
  end.
Proof.
  intros Hi. destruct (_dict s !! key) as [value|] eqn:E.
  - destruct (delitem_run s key value Hi E) as (s' & Hr & Hi' & Hd).
    exists s'. split; [done|]. split; [done|]. split; [|done].
    intros [w j]. rewrite <- (proj2 Hi'), <- (proj2 Hi), Hd.
    destruct (decide (j = key)) as [->|Hne].
    + rewrite lookup_delete_eq. split; [done|]. intros [H1 H2].
      rewrite E in H1. by injection H1 as ->.
    + rewrite lookup_delete_ne by done. split; [|tauto].
      intros H. split; [done|]. congruence.
  - by apply delitem_absent.
Qed.

Lemma delitem_outcome_witness :
  let s := final (count ["a"; "b"; "a"; "b"; "b"]) in
  inv s ∧ __delitem__ "zz" s = Raise KeyError s.
Proof.
  intros s. split; [apply count_inv|].
  exact (delitem_outcome s "zz" (count_inv _)).
Defined.

(** X3. Under the invariant, [pop(key, default)] on a present key returns
    its value and removes the key; on an absent key it returns the default
    and changes nothing, or raises [KeyError] and changes nothing when no
    default is given. *)
Theorem pop_outcome (s : PriorityDict.t) (key : string) (default : option Z) :
  inv s →
  match _dict s !! key, default with
  | Some value, _ =>
      ∃ s', pop key default s = Return value s' ∧
            _dict s' = delete key (_dict s) ∧ inv s'
  | None, Some v => pop key default s = Return v s
  | None, None => pop key default s = Raise KeyError s
  end.
Proof.
  intros Hi. destruct (_dict s !! key) as [value|] eqn:E.
  - destruct (pop_run s key value default Hi E) as (s' & Hr & Hi' & Hd).
    by exists s'.
  - rewrite (pop_absent s key default E). by destruct default.
Qed.

Lemma pop_outcome_witness :
  let s := final (count ["a"; "b"; "a"; "b"; "b"]) in
  inv s ∧ pop "zz" (Some 0) s = Return 0 s.
Proof.
  intros s. split; [apply count_inv|].
  exact (pop_outcome s "zz" (Some 0) (count_inv _)).
Defined.

(** X4. Under the invariant, [setdefault(key, default)] returns the value
    of a present key and changes nothing; for an absent key it stores the
    default in both indices and returns it. *)
Theorem setdefault_outcome (s : PriorityDict.t) (key : string) (default : Z) :
  inv s →
  match _dict s !! key with
  | Some value => setdefault key default s = Return value s
  | None =>
      ∃ s', setdefault key default s = Return default s' ∧
            _dict s' = <[key := default]> (_dict s) ∧ inv s'
  end.
Proof.
  intros Hi. unfold setdefault. prims.
  destruct (_dict s !! key) as [old|] eqn:E; simpl.
  - by rewrite E.
  - eexists. split; [done|]. split; [done|]. by apply inv_add.
Qed.

Lemma setdefault_outcome_witness :
  let s := final (count ["a"; "b"; "a"; "b"; "b"]) in
  inv s ∧ setdefault "a" 0 s = Return 2 s.
Proof.
  intros s. split; [apply count_inv|].
  exact (setdefault_outcome s "a" 0 (count_inv _)).
Defined.

(** ** Positions *)

Section Positions.

Implicit Types (s : PriorityDict.t) (l : list item) (x : item).

Lemma position_spec len i j :
  position len i = Some j ↔
  (0 ≤ i < len ∧ j = Z.to_nat i) ∨ (- len ≤ i < 0 ∧ j = Z.to_nat (i + len)).
Proof.
  unfold position. destruct (Z.ltb_spec i 0).
  - destruct (Z.leb_spec 0 (i + len)), (Z.ltb_spec (i + len) len); simpl;
      split; try (intros [= <-]); try (intros [[? ->]|[? ->]]);
      try done; try lia; by right; split; [lia|].
  - destruct (Z.leb_spec 0 i), (Z.ltb_spec i len); simpl;
      split; try (intros [= <-]); try (intros [[? ->]|[? ->]]);
      try done; try lia; by left; split; [lia|].
Qed.

Lemma position_None len i : position len i = None ↔ ¬ (- len ≤ i < len).
Proof.
  destruct (position len i) as [j|] eqn:E.
  - apply position_spec in E. split; [done|]. lia.
  - split; [|done]. intros _ Hr.
    assert (position len i ≠ None) as Hn; [|done].
    destruct (Z.ltb_spec i 0).
    + rewrite (proj2 (position_spec len i (Z.to_nat (i + len)))); [done|].
      right. split; [lia|done].
    + rewrite (proj2 (position_spec len i (Z.to_nat i))); [done|].
      left. split; [lia|done].
Qed.

Lemma index_spec x l (i : Z) :
  NoDup l →
  SortedList.index x l = Some i ↔ 0 ≤ i ∧ l !! Z.to_nat i = Some x.
Proof.
  revert i. induction l as [|y l IH]; intros i Hnd; simpl.
  - split; [done|]. by intros [_ ?].
  - apply NoDup_cons in Hnd as [Hy Hnd].
    destruct (SortedList.item_eqb x y) eqn:E.
    + apply item_eqb_eq in E as ->. split.
      * intros [= <-]. done.
      * intros [Hi Hl]. destruct (Z.to_nat i) as [|n] eqn:En.
        { f_equal. lia. }
        simpl in Hl. exfalso. apply Hy. by eapply list_elem_of_lookup_2.
    + apply item_eqb_neq in E.
      destruct (SortedList.index x l) as [p|] eqn:Ep.
      * destruct (proj1 (IH p Hnd) eq_refl) as [Hp Hl]. split.
        { intros [= <-]. split; [lia|].
          replace (Z.to_nat (p + 1)) with (S (Z.to_nat p)) by lia. done. }
        intros [Hi Hl']. destruct (Z.to_nat i) as [|n] eqn:En.
        { simpl in Hl'. congruence. }
        simpl in Hl'. f_equal.
        assert (n = Z.to_nat p) by (eapply NoDup_lookup; eauto). lia.
      * split; [done|]. intros [Hi Hl']. destruct (Z.to_nat i) as [|n] eqn:En.
        { simpl in Hl'. congruence. }
        simpl in Hl'. exfalso.
        assert (@None Z = Some (Z.of_nat n)) as H; [|done].
        apply IH; [done|]. split; [lia|]. by rewrite Nat2Z.id.
Qed.

End Positions.

(** X5. Under the invariant, [popitem()] with the default index [-1] on an
    empty container raises [IndexError]; otherwise it removes and returns
    the last entry of the value order: no entry has a greater value, and
    every other pair sorts before it. *)
Theorem popitem_last (s : PriorityDict.t) :
  inv s →
  match _list s with
  | [] => popitem (-1) s = Raise IndexError s
  | _ =>
      ∃ k v s',
        popitem (-1) s = Return (k, v) s' ∧
        _dict s !! k = Some v ∧
        _dict s' = delete k (_dict s) ∧
        (∀ j w, _dict s !! j = Some w → w ≤ v) ∧
        (∀ x, x ∈ _list s → x = (v, k) ∨ item_lt x (v, k)) ∧
        inv s'
  end.
Proof.
  intros Hi. pose proof (popitem_run s (-1) Hi) as H.
  destruct (_list s) as [|x0 l0] eqn:El.
  - unfold popitem, list_pop, lift_list, mbind, M_bind. by rewrite El.
  - assert (position (Z.of_nat (length (_list s))) (-1)
            = Some (length (_list s) - 1)%nat) as Hp.
    { apply position_spec. right. rewrite El. simpl. lia. }
    destruct (lookup_lt_is_Some_2 (_list s) (length (_list s) - 1)%nat)
      as [[v k] Hl]; [rewrite El; simpl; lia|].
    assert (popitem (-1) s = Return (k, v)
              {| _dict := delete k (_dict s);
                 _list := delete (length (_list s) - 1)%nat (_list s) |}) as Hr.
    { assert (_dict s !! k = Some v) as Hk.
      { apply (proj2 Hi). by eapply list_elem_of_lookup_2. }
      unfold popitem, list_pop, lift_list, SortedList.pop, SortedList.getitem,
        SortedList.delitem, mbind, M_bind, mret, M_ret.
      rewrite Hp, Hl. simpl. unfold dict_delitem. simpl. by rewrite Hk. }
    rewrite <- El. rewrite Hr in H. destruct H as (Hi' & Hk & Hd).
    eexists k, v, _. split; [exact Hr|]. split; [done|]. split; [done|].
    assert (∀ x, x ∈ _list s → x = (v, k) ∨ item_lt x (v, k)) as Hmax.
    { intros x (i & Hx)%list_elem_of_lookup_1.
      pose proof (lookup_lt_Some _ _ _ Hx).
      destruct (decide (i = length (_list s) - 1)%nat) as [->|Hne].
      - left. congruence.
      - right. eapply (sorted_lookup_lt (_list s) i); [apply Hi|done..|lia]. }
    split; [|split; [done|done]].
    intros j w Hj. apply (proj2 Hi) in Hj.
    destruct (Hmax _ Hj) as [[= -> _]|Hlt]; [lia|].
    by apply item_lt_value in Hlt.
Qed.

Lemma popitem_last_witness :
  let s := final (count ["a"; "b"; "a"; "b"; "b"]) in
  inv s ∧ ∃ k v s', popitem (-1) s = Return (k, v) s' ∧ _dict s !! k = Some v.
Proof.
  intros s. split; [apply count_inv|].
  destruct (popitem_last s (count_inv _)) as (k & v & s' & H1 & H2 & _).
  exists k, v, s'. split; [exact H1|exact H2].
Defined.

(** X6. Under the invariant, [index(key)] raises [KeyError] for an absent
    key; for a present key it returns the position [p], with
    [0 <= p < len(d)], at which [iloc[p]] is that key; conversely the key
    that [iloc[p]] returns has index [p]. *)
Theorem index_iloc_round_trip (s : PriorityDict.t) (key : string) :
  inv s →
  match _dict s !! key with
  | None => index key s = Raise KeyError s
  | Some _ =>
      ∃ p, index key s = Return p s ∧
           0 ≤ p < __len__ s ∧
           _IlocWrapper.__getitem__ (Index p) s = Return (inl key) s ∧
           ∀ q, 0 ≤ q →
                _IlocWrapper.__getitem__ (Index q) s = Return (inl key) s →
                q = p
  end.
Proof.
  intros Hi. destruct s as [d l]. cbn [_dict _list].
  destruct (d !! key) as [v|] eqn:E.
  - assert ((v, key) ∈ l) as Hin by (by apply (proj2 Hi)).
    apply list_elem_of_lookup_1 in Hin as [i Hl].
    pose proof (lookup_lt_Some _ _ _ Hl) as Hlt.
    pose proof (sorted_NoDup _ (proj1 Hi)) as Hnd. simpl in Hnd.
    assert (SortedList.index (v, key) l = Some (Z.of_nat i)) as Hx.
    { apply index_spec; [done|]. split; [lia|]. by rewrite Nat2Z.id. }
    assert (∀ q, 0 ≤ q →
              _IlocWrapper.__getitem__ (Index q) {| _dict := d; _list := l |}
              = match l !! Z.to_nat q with
                | Some x => Return (inl x.2) {| _dict := d; _list := l |}
                | None => Raise IndexError {| _dict := d; _list := l |}
                end) as Hget.
    { intros q Hq. unfold _IlocWrapper.__getitem__, list_getitem, lift_list,
        SortedList.getitem, mbind, M_bind, mret, M_ret. simpl.
      destruct (position (Z.of_nat (length l)) q) as [j|] eqn:Ep.
      - apply position_spec in Ep as [[_ ->]|[? _]]; [|lia].
        by destruct (l !! Z.to_nat q).
      - apply position_None in Ep.
        rewrite (lookup_ge_None_2 l (Z.to_nat q)) by lia. done. }
    exists (Z.of_nat i). split.
    { unfold index, list_index, lift_list, dict_getitem, mbind, M_bind. simpl.
      rewrite E. simpl. by rewrite Hx. }
    split; [unfold __len__; rewrite (inv_size _ Hi); simpl; lia|].
    split.
    { rewrite Hget by lia. by rewrite Nat2Z.id, Hl. }
    intros q Hq. rewrite Hget by done.
    destruct (l !! Z.to_nat q) as [[w j]|] eqn:Eq; [|done].
    intros [= ->].
    assert (w = v) as -> by
      (eapply (inv_key_unique _ key); [exact Hi|eapply list_elem_of_lookup_2; eauto..]).
    assert (Z.to_nat q = i) by (eapply NoDup_lookup; eauto). lia.
  - unfold index, dict_getitem, mbind, M_bind. simpl. by rewrite E.
Qed.

Lemma index_iloc_round_trip_witness :
  let s := final (count ["a"; "b"; "a"; "b"; "b"]) in
  inv s ∧
  ∃ p, index "b" s = Return p s ∧
       _IlocWrapper.__getitem__ (Index p) s = Return (inl "b") s.
Proof.
  intros s. split; [apply count_inv|].
  destruct (index_iloc_round_trip s "b" (count_inv _)) as (p & H1 & _ & H2 & _).
  exists p. split; [exact H1|exact H2].
Defined.

(** X7. [bisect(value)] hands the 1-tuple [(value,)] to the SortedList's
    right bisection; as a 1-tuple sorts before every pair with the same
    value, the result is that of [bisect_left(value)], on every state. *)
Theorem bisect_is_bisect_left (s : PriorityDict.t) (value : Z) :
  bisect s value = bisect_left s value.
Proof.
  unfold bisect, bisect_left. induction (_list s) as [|x l IH]; simpl; [done|].
  rewrite IH. destruct (Z.ltb_spec x.1 value), (Z.ltb_spec value x.1),
    (Z.eqb_spec value x.1); simpl; lia.
Qed.

(** X8. Under the invariant, [del iloc[i]] for an integer [i] raises
    [IndexError] and changes nothing when [i] is outside [[-len, len)];
    otherwise it returns, and removes from both indices exactly the entry
    at position [i], counted from the end when [i] is negative. *)
Theorem iloc_delitem_index (s : PriorityDict.t) (i : Z) :
  inv s →
  let n := Z.of_nat (length (_list s)) in
  if bool_decide (- n ≤ i < n) then
    ∃ x s',
      _list s !! Z.to_nat (if bool_decide (i < 0) then i + n else i) = Some x ∧
      _IlocWrapper.__delitem__ (Index i) s = Return tt s' ∧
      _dict s' = delete x.2 (_dict s) ∧
      (∀ y, y ∈ _list s' ↔ y ∈ _list s ∧ y ≠ x) ∧
      inv s'
  else _IlocWrapper.__delitem__ (Index i) s = Raise IndexError s.
Proof.
  intros Hi n.
  unfold _IlocWrapper.__delitem__, list_getitem, list_delitem,
    lift_list, SortedList.getitem, SortedList.delitem, mbind, M_bind.
  cbn [_list _dict].
  destruct (bool_decide_reflect (- n ≤ i < n)) as [Hr|Hr].
  - set (j := Z.to_nat (if bool_decide (i < 0) then i + n else i)).
    assert (position n i = Some j) as Hp.
    { apply position_spec. subst j.
      destruct (bool_decide_reflect (i < 0)); [right|left]; (split; [lia|done]). }
    destruct (lookup_lt_is_Some_2 (_list s) j) as [[v k] Hl].
    { apply position_spec in Hp. subst n. lia. }
    assert (_dict s !! k = Some v) as Hk.
    { apply (proj2 Hi). by eapply list_elem_of_lookup_2. }
    subst n. rewrite Hp, Hl. cbn [fmap option_fmap option_map _list _dict snd].
    rewrite Hp. cbn [fmap option_fmap option_map _list _dict snd].
    unfold dict_delitem. cbn [_list _dict]. rewrite Hk.
    eexists (v, k), _. split; [done|]. split; [done|]. split; [done|]. split.
    + intros y. cbn [_list].
      by apply elem_of_delete_NoDup; [apply sorted_NoDup, Hi|].
    + by apply (inv_delete_at s j (v, k)).
  - subst n. by rewrite (proj2 (position_None _ i)).
Qed.

Lemma iloc_delitem_index_witness :
  let s := final (count ["a"; "b"; "a"; "b"; "b"]) in
  inv s ∧ _IlocWrapper.__delitem__ (Index 2) s = Raise IndexError s.
Proof.
  intros s. split; [apply count_inv|].
  exact (iloc_delitem_index s 2 (count_inv _)).
Defined.

(** ** Listings in value order *)

Section Listings.

Implicit Types (s : PriorityDict.t) (l : list item).

Lemma collect_getitem d l k c :
  (k + c ≤ length l)%nat →
  collect (map (λ i : nat, Z.of_nat (length l) - 1 + Z.of_nat i * -1) (seq k c))
          list_getitem {| _dict := d; _list := l |}
  = Return (take c (drop k (reverse l))) {| _dict := d; _list := l |}.
Proof.
  revert k. induction c as [|c IH]; intros k Hk; simpl.
  - by rewrite take_0.
  - unfold mbind at 1, M_bind at 1.
    assert (reverse l !! k = l !! (length l - S k)%nat) as Hrev
      by (apply reverse_lookup; lia).
    destruct (lookup_lt_is_Some_2 l (length l - S k)%nat) as [x Hx]; [lia|].
    assert (list_getitem (Z.of_nat (length l) - 1 + Z.of_nat k * -1)
              {| _dict := d; _list := l |}
            = Return x {| _dict := d; _list := l |}) as ->.
    { unfold list_getitem, lift_list, SortedList.getitem. cbn [_list _dict].
      rewrite (proj2 (position_spec _ _ (length l - S k)%nat)).
      - by rewrite Hx.
      - left. split; lia. }
    unfold mbind at 1, M_bind at 1. rewrite IH by lia.
    unfold mret, M_ret. f_equal.
    rewrite (drop_S (reverse l) x k) by congruence. done.
Qed.

Lemma most_common_run s (n : Z) :
  inv s →
  most_common (Some n) s
  = Return (take (Z.to_nat n) ((λ x : item, (x.2, x.1)) <$> reverse (_list s))) s.
Proof.
  intros Hi. destruct s as [d l]. unfold most_common.
  unfold mbind at 1, M_bind at 1, dict_len at 1. cbn [_dict _list].
  pose proof (inv_size _ Hi) as Hsz. cbn [_dict _list] in Hsz. rewrite Hsz.
  set (e := Z.of_nat (length l) - 1).
  set (st := Z.max (e - n) (-1)).
  assert (range e st (-1)
          = map (λ i : nat, Z.of_nat (length l) - 1 + Z.of_nat i * -1)
                (seq 0 (Nat.min (Z.to_nat n) (length l)))) as ->.
  { unfold range, range_len. f_equal. f_equal.
    change (0 <? -1) with false. cbv beta iota.
    destruct (Z.ltb_spec st e).
    - change (- -1) with 1. rewrite Z.div_1_r. subst st e. lia.
    - subst st e. lia. }
  unfold mbind at 1, M_bind at 1.
  rewrite collect_getitem by lia.
  unfold mret, M_ret. f_equal. rewrite drop_0, fmap_take.
  destruct (Nat.min_spec (Z.to_nat n) (length l)) as [[_ ->]|[Hle ->]]; [done|].
  rewrite !take_ge; [done|rewrite length_fmap, length_reverse; lia
                    |rewrite length_fmap, length_reverse; lia].
Qed.

Lemma inv_NoDup_keys s : inv s → NoDup (_list s).*2.
Proof.
  intros Hi. apply NoDup_fmap_2_strong; [|apply sorted_NoDup, Hi].
  intros [v k] [w j] Hx Hy; simpl; intros ->.
  f_equal. by apply (inv_key_unique s j).
Qed.

Lemma filter_key_all (key : string) (ks : list string) :
  Forall (λ k, k = key) ks → filter (λ k, k = key) ks = ks.
Proof.
  induction 1 as [|k ks Hk _ IH]; [done|].
  rewrite filter_cons_True by done. by rewrite IH.
Qed.

Lemma filter_key_none (key : string) (ks : list string) :
  Forall (λ k, k ≠ key) ks → filter (λ k, k = key) ks = [].
Proof.
  induction 1 as [|k ks Hk _ IH]; [done|]. by rewrite filter_cons_False.
Qed.

Lemma sorted_values_le l i j x y :
  sorted l → l !! i = Some x → l !! j = Some y → (i ≤ j)%nat → x.1 ≤ y.1.
Proof.
  intros Hs Hi Hj Hle. destruct (decide (i = j)) as [->|Hne].
  - assert (x = y) by congruence. subst. lia.
  - apply item_lt_value. eapply (sorted_lookup_lt l i j); [done..|lia].
Qed.

End Listings.

(** X9. Under the invariant, [most_common()] lists every entry from the
    highest value down, and [most_common(n)] is its first [n] entries: all
    of them when [n] exceeds the length, none when [n] is zero or
    negative. *)
Theorem most_common_prefix (s : PriorityDict.t) (n : Z) :
  inv s →
  ∃ all,
    most_common None s = Return all s ∧
    most_common (Some n) s = Return (take (Z.to_nat n) all) s ∧
    length all = length (_list s) ∧
    (∀ k v, (k, v) ∈ all ↔ _dict s !! k = Some v) ∧
    (∀ (i j : nat) p q, all !! i = Some p → all !! j = Some q →
                        (i ≤ j)%nat → q.2 ≤ p.2).
Proof.
  intros Hi. exists ((λ x : item, (x.2, x.1)) <$> reverse (_list s)).
  split; [done|]. split; [apply most_common_run; exact Hi|].
  split; [by rewrite length_fmap, length_reverse|]. split.
  - intros k v. rewrite list_elem_of_fmap, (proj2 Hi). split.
    + intros ([w j] & Heq & Hin). simpl in Heq. injection Heq as -> ->.
      by rewrite elem_of_reverse in Hin.
    + intros Hin. exists (v, k). split; [done|]. by rewrite elem_of_reverse.
  - intros i j p q Hp Hq Hij.
    rewrite list_lookup_fmap in Hp, Hq.
    destruct (reverse (_list s) !! i) as [x|] eqn:Ex; [|done].
    destruct (reverse (_list s) !! j) as [y|] eqn:Ey; [|done].
    simpl in Hp, Hq. injection Hp as <-. injection Hq as <-. simpl.
    apply reverse_lookup_Some in Ex as [Ex Hi'], Ey as [Ey Hj'].
    eapply (sorted_values_le (_list s)); [apply Hi|exact Ey|exact Ex|lia].
Qed.

Lemma most_common_prefix_witness :
  let s := final (count ["a"; "b"; "a"; "b"; "b"]) in
  inv s ∧
  ∃ all, most_common None s = Return all s ∧
         most_common (Some 1) s = Return (take 1 all) s.
Proof.
  intros s. split; [apply count_inv|].
  destruct (most_common_prefix s 1 (count_inv _)) as (all & H1 & H2 & _).
  exists all. split; [exact H1|exact H2].
Defined.

(** X10. Under the invariant, [keys()] lists every key of the Mapping
    Index once, [items()] lists exactly its entries, [values()] is in
    non-decreasing order, the three listings line up position by position
    and have [len(d)] entries, and [__reversed__] yields the keys of
    [__iter__] in the opposite order. *)
Theorem listings_in_value_order (s : PriorityDict.t) :
  inv s →
  NoDup (keys s) ∧
  (∀ k, k ∈ keys s ↔ is_Some (_dict s !! k)) ∧
  (∀ k v, (k, v) ∈ items s ↔ _dict s !! k = Some v) ∧
  (∀ (i j : nat) v w, values s !! i = Some v → values s !! j = Some w →
                      (i ≤ j)%nat → v ≤ w) ∧
  items s = zip (keys s) (values s) ∧
  Z.of_nat (length (keys s)) = __len__ s ∧
  __iter__ s = keys s ∧
  __reversed__ s = reverse (__iter__ s).
Proof.
  intros Hi. unfold keys, items, values, __iter__, __reversed__, __len__.
  split; [|split; [|split; [|split; [|split; [|split; [|split]]]]]].
  - apply NoDup_fmap_2_strong; [|apply sorted_NoDup, Hi].
    intros [v k] [w j] Hx Hy; simpl; intros ->.
    f_equal. by apply (inv_key_unique s j).
  - intros k. rewrite list_elem_of_fmap. split.
    + intros ([v j] & -> & Hin). exists v. by apply (proj2 Hi).
    + intros [v Hk]. exists (v, k). split; [done|]. by apply (proj2 Hi).
  - intros k v. rewrite list_elem_of_fmap, (proj2 Hi). split.
    + by intros ([w j] & [= -> ->] & Hin).
    + intros Hin. by exists (v, k).
  - intros i j v w Hv Hw Hij. rewrite list_lookup_fmap in Hv, Hw.
    destruct (_list s !! i) as [x|] eqn:Ex; [|done].
    destruct (_list s !! j) as [y|] eqn:Ey; [|done].
    simpl in Hv, Hw. injection Hv as <-. injection Hw as <-.
    eapply (sorted_values_le (_list s)); [apply Hi|done..].
  - induction (_list s) as [|[v k] l IH]; [done|].
    rewrite !fmap_cons. cbn [zip zip_with fst snd]. by f_equal.
  - rewrite length_fmap. by rewrite (inv_size s Hi).
  - done.
  - by rewrite fmap_reverse.
Qed.

Lemma listings_in_value_order_witness :
  let s := final (count ["a"; "b"; "a"; "b"; "b"]) in
  inv s ∧ NoDup (keys s) ∧ __reversed__ s = reverse (__iter__ s).
Proof.
  intros s. split; [apply count_inv|].
  destruct (listings_in_value_order s (count_inv _))
    as (H1 & _ & _ & _ & _ & _ & _ & H2).
  split; [exact H1|exact H2].
Defined.

(** The occurrences of a key in [elements()]. *)
Lemma elements_length_filter (s : PriorityDict.t) (key : string) :
  inv s →
  length (filter (λ k, k = key) (elements s))
  = match _dict s !! key with
    | Some v => Z.to_nat v
    | None => O
    end.
Proof.
  intros Hi.
  assert (∀ l : list item,
            NoDup l.*2 →
            (∀ v, (v, key) ∈ l →
                  length (filter (λ k, k = key)
                            (x ← l; replicate (Z.to_nat x.1) x.2)) = Z.to_nat v) ∧
            ((key ∉ l.*2) →
                  length (filter (λ k, k = key)
                            (x ← l; replicate (Z.to_nat x.1) x.2)) = O)) as H.
  { induction l as [|[w j] l IH]; intros Hnd.
    - split; [intros v Hin; by apply elem_of_nil in Hin|done].
    - rewrite fmap_cons in Hnd. apply NoDup_cons in Hnd as [Hj Hnd].
      destruct (IH Hnd) as [IH1 IH2].
      rewrite bind_cons. cbn [fst snd].
      split.
      + intros v Hin. rewrite filter_app, length_app.
        apply elem_of_cons in Hin as [[= <- <-]|Hin].
        * rewrite IH2 by done. rewrite Nat.add_0_r.
          rewrite filter_key_all; [by rewrite length_replicate|].
          apply Forall_forall. intros k Hk. by apply elem_of_replicate_inv in Hk.
        * assert (j ≠ key).
          { intros ->. apply Hj. by apply (list_elem_of_fmap_2 snd) in Hin. }
          rewrite (IH1 v Hin).
          rewrite filter_key_none; [done|].
          apply Forall_forall. intros k Hk.
          apply elem_of_replicate_inv in Hk. congruence.
      + rewrite fmap_cons, not_elem_of_cons. intros [Hne Hn]. simpl in Hne.
        rewrite filter_app, length_app, (IH2 Hn).
        rewrite filter_key_none; [done|].
        apply Forall_forall. intros k Hk.
        apply elem_of_replicate_inv in Hk. congruence. }
  destruct (H (_list s) (inv_NoDup_keys s Hi)) as [H1 H2].
  unfold elements. destruct (_dict s !! key) as [v|] eqn:E.
  - apply H1. by apply (proj2 Hi).
  - apply H2. intros ([w j] & -> & Hin)%list_elem_of_fmap.
    apply (proj2 Hi) in Hin. simpl in E. congruence.
Qed.

(** X11. Under the invariant, [elements()] holds each key as many times as
    its value says, and not at all when the value is below one or the key
    is absent. *)
Theorem elements_multiplicity (s : PriorityDict.t) (key : string) :
  inv s →
  length (filter (λ k, k = key) (elements s))
  = match _dict s !! key with
    | Some v => Z.to_nat v
    | None => O
    end.
Proof. apply elements_length_filter. Qed.

Lemma elements_multiplicity_witness :
  let s := final (count ["a"; "b"; "a"; "b"; "b"]) in
  inv s ∧ length (filter (λ k, k = "b") (elements s)) = 3%nat.
Proof.
  intros s. split; [apply count_inv|].
  exact (elements_multiplicity s "b" (count_inv _)).
Defined.

(** X12. The module's self-test [_check] passes on the constructor's
    empty container and after every sequence of public operations, raising
    ones included. *)
Theorem check_after_every_call (ops : list op) :
  _check (run ops PriorityDict.empty) = true.
Proof. apply inv_check, run_inv, inv_empty. Qed.

(** X13. Under the invariant, [ValuesView.count(value)] is the number of
    keys of the Mapping Index that hold [value]; it is zero exactly when no
    key holds it. *)
Theorem values_view_count_keys (s : PriorityDict.t) (value : Z) :
  inv s →
  let c := ValuesView.count (ValuesView.__init__ s) value in
  c = Z.of_nat (size (filter (λ kv : string * Z, kv.2 = value) (_dict s))) ∧
  (c = 0 ↔ ∀ k, _dict s !! k ≠ Some value).
Proof.
  intros Hi c. subst c. rewrite (values_view_count s value Hi).
  rewrite (values_equal_size s value Hi). split; [done|].
  split.
  - intros Hz k Hk. apply (proj2 Hi) in Hk.
    assert ((value, k) ∈ filter (λ x : item, x.1 = value) (_list s)) as Hin
      by (by apply list_elem_of_filter).
    destruct (filter _ (_list s)); [by apply elem_of_nil in Hin|simpl in Hz; lia].
  - intros Hn. destruct (filter _ (_list s)) as [|[v k] l'] eqn:El; [done|].
    exfalso. assert ((v, k) ∈ filter (λ x : item, x.1 = value) (_list s)) as Hin
      by (rewrite El; left).
    apply list_elem_of_filter in Hin as [Hv Hin]. simpl in Hv. subst v.
    apply (Hn k). by apply (proj2 Hi).
Qed.

Lemma values_view_count_keys_witness :
  let s := final (count ["a"; "b"; "a"; "b"; "b"]) in
  inv s ∧
  ValuesView.count (ValuesView.__init__ s) 3
  = Z.of_nat (size (filter (λ kv : string * Z, kv.2 = 3) (_dict s))).
Proof.
  intros s. split; [apply count_inv|].
  exact (proj1 (values_view_count_keys s 3 (count_inv _))).
Defined.

(** ** Python dicts as item sequences *)

Section Mappings.

Implicit Types (m items : mapping) (k j : string) (v w : Z).

Lemma mapping_get_set j k v m :
  mapping_get j (mapping_set k v m)
  = if String.eqb j k then Some v else mapping_get j m.
Proof.
  induction m as [|[k' v'] m IH]; simpl.
  - done.
  - destruct (String.eqb_spec k k') as [->|Hne]; simpl.
    + by destruct (String.eqb_spec j k').
    + destruct (String.eqb_spec j k') as [->|Hne'].
      * destruct (String.eqb_spec k' k) as [->|_]; done.
      * exact IH.
Qed.

Lemma mapping_get_None k m : mapping_get k m = None ↔ k ∉ m.*1.
Proof.
  induction m as [|[k' v'] m IH]; simpl.
  - split; [intros _; apply not_elem_of_nil|done].
  - rewrite not_elem_of_cons. simpl.
    destruct (String.eqb_spec k k') as [->|Hne].
    + split; [done|]. by intros [? _].
    + rewrite IH. tauto.
Qed.

Lemma mapping_get_Some k v m :
  NoDup m.*1 → mapping_get k m = Some v ↔ (k, v) ∈ m.
Proof.
  induction m as [|[k' v'] m IH]; simpl; intros Hnd.
  - split; [done|]. intros H. by apply elem_of_nil in H.
  - apply NoDup_cons in Hnd as [Hk Hnd]. rewrite elem_of_cons.
    destruct (String.eqb_spec k k') as [->|Hne].
    + split.
      * intros [= ->]. by left.
      * intros [[= ->]|Hin]; [done|].
        exfalso. apply Hk. by apply (list_elem_of_fmap_2 fst) in Hin.
    + rewrite (IH Hnd). split; [tauto|]. intros [[= -> _]|?]; done.
Qed.

Lemma elem_of_mapping_set_keys j k v m :
  j ∈ (mapping_set k v m).*1 ↔ j = k ∨ j ∈ m.*1.
Proof.
  induction m as [|[k' v'] m IH]; simpl.
  - rewrite list_elem_of_singleton, elem_of_nil. tauto.
  - destruct (String.eqb_spec k k') as [->|Hne]; simpl.
    + rewrite elem_of_cons. tauto.
    + rewrite !elem_of_cons, IH. simpl. tauto.
Qed.

Lemma NoDup_mapping_set k v m : NoDup m.*1 → NoDup (mapping_set k v m).*1.
Proof.
  induction m as [|[k' v'] m IH]; simpl; intros Hnd.
  - apply NoDup_singleton.
  - apply NoDup_cons in Hnd as [Hk Hnd].
    destruct (String.eqb_spec k k') as [->|Hne]; simpl.
    + by apply NoDup_cons.
    + apply NoDup_cons. split; [|by apply IH].
      rewrite elem_of_mapping_set_keys. simpl in *.
      intros [Heq|Hin]; [by apply Hne|by apply Hk].
Qed.

Lemma NoDup_foldl_mapping_set {A} (f : mapping → A → string * Z) (xs : list A)
    (acc : mapping) :
  NoDup acc.*1 →
  NoDup (foldl (λ c x, mapping_set (f c x).1 (f c x).2 c) acc xs).*1.
Proof.
  revert acc. induction xs as [|x xs IH]; intros acc Hnd; simpl; [done|].
  by apply IH, NoDup_mapping_set.
Qed.

Lemma NoDup_dict_of_iterable xs (acc : mapping) items :
  NoDup acc.*1 → dict_of_iterable xs acc = inr items → NoDup items.*1.
Proof.
  revert acc. induction xs as [|o xs IH]; intros acc Hnd; simpl.
  - by intros [= <-].
  - destruct (dict_entry o) as [e|[k v]]; [done|].
    by apply IH, NoDup_mapping_set.
Qed.

(** The dict that [dict(...)] builds has pairwise distinct keys. *)
Lemma NoDup_dict args kwargs items :
  dict args kwargs = inr items → NoDup items.*1.
Proof.
  unfold dict.
  destruct args as [[m|xs]|].
  - intros [= <-].
    apply (NoDup_foldl_mapping_set (λ _ kv, kv)).
    apply (NoDup_foldl_mapping_set (λ _ kv, kv)). constructor.
  - destruct (dict_of_iterable xs []) as [e|base] eqn:E; [done|].
    intros [= <-]. apply (NoDup_foldl_mapping_set (λ _ kv, kv)).
    eapply NoDup_dict_of_iterable; [|exact E]. constructor.
  - intros [= <-]. apply (NoDup_foldl_mapping_set (λ _ kv, kv)). constructor.
Qed.

Lemma mapping_get_foldl_set m (acc : mapping) k :
  NoDup m.*1 →
  mapping_get k (foldl (λ c kv, mapping_set kv.1 kv.2 c) acc m)
  = match mapping_get k m with
    | Some v => Some v
    | None => mapping_get k acc
    end.
Proof.
  revert acc. induction m as [|[j w] m IH]; intros acc Hnd; simpl; [done|].
  apply NoDup_cons in Hnd as [Hj Hnd]. rewrite IH by done.
  rewrite mapping_get_set.
  destruct (String.eqb_spec k j) as [->|Hne]; [|done].
  by rewrite (proj2 (mapping_get_None j m)).
Qed.

Lemma lookup_foldl_insert_get items (d : gmap string Z) k :
  NoDup items.*1 →
  foldl (λ acc kv, <[kv.1 := kv.2]> acc) d items !! k
  = match mapping_get k items with
    | Some v => Some v
    | None => d !! k
    end.
Proof.
  intros Hnd. apply option_eq. intros v.
  rewrite lookup_foldl_insert by done.
  destruct (mapping_get k items) as [w|] eqn:E.
  - apply (mapping_get_Some k w items Hnd) in E as Hin. split.
    + intros [Hv|[Hn _]].
      * apply (mapping_get_Some k v items Hnd) in Hv. congruence.
      * exfalso. apply Hn. by apply (list_elem_of_fmap_2 fst) in Hin.
    + intros [= ->]. by left.
  - apply mapping_get_None in E as Hn. split.
    + intros [Hv|[_ ?]]; [|done].
      exfalso. apply Hn. by apply (list_elem_of_fmap_2 fst) in Hv.
    + intros Hd. by right.
Qed.

End Mappings.

(** ** [update] and the constructors *)

Section Update.

Implicit Types (s : PriorityDict.t) (items : mapping).

(** The incremental loop of [update] when every key is present. *)
Lemma update_loop_run items s :
  inv s → Forall (λ k, is_Some (_dict s !! k)) items.*1 →
  ∃ s',
    for_each items (λ kv,
      let key := kv.1 in
      let value := kv.2 in
      old_value ← dict_getitem key;
      list_remove (old_value, key) ;;
      dict_setitem key value ;;
      list_add (value, key)) s = Return tt s' ∧
    inv s' ∧
    _dict s' = foldl (λ acc kv, <[kv.1 := kv.2]> acc) (_dict s) items.
Proof.
  match goal with |- context [for_each _ ?b] => set (body := b) end.
  revert s. induction items as [|[k v] items IH]; intros s Hi Hall.
  - by exists s.
  - rewrite fmap_cons in Hall. apply Forall_cons in Hall as [[old Hk] Hall].
    simpl in Hk. cbn [for_each]. unfold mbind at 1, M_bind at 1.
    destruct (inv_replace s k old v Hi Hk) as (l' & Hr & Hi').
    assert (body (k, v) s
            = Return tt {| _dict := <[k := v]> (_dict s);
                           _list := SortedList.add (v, k) l' |}) as ->.
    { unfold body. prims. rewrite Hk. simpl. by rewrite Hr. }
    destruct (IH _ Hi') as (s' & Hrun & Hi'' & Hd).
    { simpl. eapply Forall_impl; [exact Hall|]. intros j [w Hj]. simpl.
      destruct (decide (j = k)) as [->|Hne].
      - rewrite lookup_insert_eq. by eexists.
      - rewrite lookup_insert_ne by done. by eexists. }
    exists s'. split; [done|]. split; [done|]. by rewrite Hd.
Qed.

(** The incremental loop of [update] when some key is absent. *)
Lemma update_loop_raises items s :
  inv s → Exists (λ k, _dict s !! k = None) items.*1 →
  raised (for_each items (λ kv,
      let key := kv.1 in
      let value := kv.2 in
      old_value ← dict_getitem key;
      list_remove (old_value, key) ;;
      dict_setitem key value ;;
      list_add (value, key)) s) = Some KeyError.
Proof.
  match goal with |- context [for_each _ ?b] => set (body := b) end.
  revert s. induction items as [|[k v] items IH]; intros s Hi Hex.
  - by apply Exists_nil in Hex.
  - cbn [for_each]. unfold mbind at 1, M_bind at 1.
    destruct (_dict s !! k) as [old|] eqn:Hk.
    + destruct (inv_replace s k old v Hi Hk) as (l' & Hr & Hi').
      assert (body (k, v) s
              = Return tt {| _dict := <[k := v]> (_dict s);
                             _list := SortedList.add (v, k) l' |}) as ->.
      { unfold body. prims. rewrite Hk. simpl. by rewrite Hr. }
      apply IH; [done|]. rewrite fmap_cons in Hex.
      apply Exists_cons in Hex as [Hex|Hex]; [simpl in Hex; congruence|].
      eapply Exists_impl; [exact Hex|]. intros j Hj. simpl.
      rewrite lookup_insert_ne; [done|]. intros ->. congruence.
    + assert (body (k, v) s = Raise KeyError s) as ->; [|done].
      unfold body. prims. by rewrite Hk.
Qed.

(** The two paths of [update] once [dict] has accepted the arguments. *)
Lemma update_unfold s args kwargs items :
  dict args kwargs = inr items →
  update args kwargs s
  = if Z.of_nat (size (_dict s)) <? 10 * Z.of_nat (length items) then
      (dict_update items ;; list_clear ;; rebuild) s
    else
      for_each items (λ kv,
        let key := kv.1 in
        let value := kv.2 in
        old_value ← dict_getitem key;
        list_remove (old_value, key) ;;
        dict_setitem key value ;;
        list_add (value, key)) s.
Proof.
  intros Hd. unfold update. rewrite Hd.
  unfold mbind at 1, M_bind at 1, dict_len at 1.
  by destruct (_ <? _).
Qed.

(** The rebuild path of [update]. *)
Lemma update_rebuild_run items s :
  ∃ s', (dict_update items ;; list_clear ;; rebuild) s = Return tt s' ∧
        inv s' ∧
        _dict s' = foldl (λ acc kv, <[kv.1 := kv.2]> acc) (_dict s) items.
Proof.
  destruct s as [d l]. unfold mbind at 1, M_bind at 1.
  rewrite dict_update_run.
  eexists. split; [reflexivity|]. split; [apply inv_rebuild|done].
Qed.

End Update.

(** The outcome of [update] by the path it takes. *)
Lemma update_by_path (s : PriorityDict.t) (args : option arg)
    (kwargs items : mapping) :
  inv s → dict args kwargs = inr items →
  (__len__ s < 10 * Z.of_nat (length items) ∨
   Forall (λ k, is_Some (_dict s !! k)) items.*1 →
   ∃ s', update args kwargs s = Return tt s' ∧
         inv s' ∧
         ∀ k, _dict s' !! k = match mapping_get k items with
                              | Some v => Some v
                              | None => _dict s !! k
                              end) ∧
  (10 * Z.of_nat (length items) ≤ __len__ s →
   Exists (λ k, _dict s !! k = None) items.*1 →
   raised (update args kwargs s) = Some KeyError).
Proof.
  intros Hi Hd. pose proof (NoDup_dict _ _ _ Hd) as Hnd.
  rewrite (update_unfold s args kwargs items Hd). unfold __len__.
  split.
  - intros Hpath. destruct (Z.ltb_spec (Z.of_nat (size (_dict s)))
                               (10 * Z.of_nat (length items))) as [Hlt|Hge].
    + destruct (update_rebuild_run items s) as (s' & -> & Hi' & Hd').
      exists s'. split; [done|]. split; [done|].
      intros k. rewrite Hd'. by apply lookup_foldl_insert_get.
    + destruct Hpath as [?|Hall]; [lia|].
      destruct (update_loop_run items s Hi Hall) as (s' & Hrun & Hi' & Hd').
      exists s'. split; [exact Hrun|]. split; [done|].
      intros k. rewrite Hd'. by apply lookup_foldl_insert_get.
  - intros Hge Hex.
    destruct (Z.ltb_spec (Z.of_nat (size (_dict s)))
                (10 * Z.of_nat (length items))) as [Hlt|_]; [lia|].
    exact (update_loop_raises items s Hi Hex).
Qed.

(** X14. Under the invariant, [update] with arguments that [dict] accepts
    returns whenever it rebuilds (ten times the number of items exceeds the
    length) or every key of the items is already present: the items then
    overwrite or add their keys and all other entries stay.  When it does
    not rebuild and some key of the items is absent, it raises
    [KeyError]. *)
Theorem update_outcome_by_path (s : PriorityDict.t) (args : option arg)
    (kwargs items : mapping) :
  inv s → dict args kwargs = inr items →
  (__len__ s < 10 * Z.of_nat (length items) ∨
   Forall (λ k, is_Some (_dict s !! k)) items.*1 →
   ∃ s', update args kwargs s = Return tt s' ∧
         inv s' ∧
         ∀ k, _dict s' !! k = match mapping_get k items with
                              | Some v => Some v
                              | None => _dict s !! k
                              end) ∧
  (10 * Z.of_nat (length items) ≤ __len__ s →
   Exists (λ k, _dict s !! k = None) items.*1 →
   raised (update args kwargs s) = Some KeyError).
Proof. apply update_by_path. Qed.

Lemma update_outcome_by_path_witness :
  let s := final (count ["a"; "b"; "a"; "b"; "b"]) in
  inv s ∧ dict (Some (Mapping [("c", 1)])) [] = inr [("c", 1)] ∧
  ∃ s', update (Some (Mapping [("c", 1)])) [] s = Return tt s' ∧
        _dict s' !! "c" = Some 1.
Proof.
  intros s. split; [apply count_inv|]. split; [reflexivity|].
  destruct (update_outcome_by_path s (Some (Mapping [("c", 1)])) [] [("c", 1)]
              (count_inv _) eq_refl) as [H _].
  destruct H as (s' & H1 & _ & H2).
  { left. vm_compute. reflexivity. }
  exists s'. split; [exact H1|]. exact (H2 "c").
Defined.

(** The outcome of the constructor by the outcome of [dict]. *)
Lemma init_by_dict (args : option arg) (kwargs : mapping) :
  match dict args kwargs with
  | inl e => __init__ args kwargs = Raise e empty
  | inr items =>
      ∃ s, __init__ args kwargs = Return tt s ∧
           inv s ∧
           (∀ k, _dict s !! k = mapping_get k items) ∧
           (∀ m, args = Some (Mapping m) → NoDup m.*1 → NoDup kwargs.*1 →
                 ∀ k, _dict s !! k = match mapping_get k kwargs with
                                     | Some v => Some v
                                     | None => mapping_get k m
                                     end)
  end.
Proof.
  destruct (dict args kwargs) as [e|items] eqn:Hd.
  - unfold __init__, update. by rewrite Hd.
  - destruct (update_by_path empty args kwargs items inv_empty Hd)
      as [H _].
    destruct H as (s & Hr & Hi & Hl).
    { destruct items as [|kv items]; [right; constructor|left].
      vm_compute. reflexivity. }
    exists s. split; [exact Hr|]. split; [done|].
    assert (∀ k, _dict s !! k = mapping_get k items) as Hget.
    { intros k. rewrite Hl. unfold PriorityDict.empty. cbn [_dict].
      rewrite lookup_empty. by destruct (mapping_get k items). }
    split; [done|].
    intros m -> Hm Hk k. rewrite Hget. unfold dict in Hd.
    injection Hd as <-.
    rewrite (mapping_get_foldl_set kwargs) by done.
    destruct (mapping_get k kwargs); [done|].
    rewrite (mapping_get_foldl_set m) by done.
    by destruct (mapping_get k m).
Qed.

(** X15. The constructor fails exactly when [dict] rejects its arguments,
    with the error of [dict]; otherwise it returns a container that holds
    the items of that dict and nothing else, and satisfies the invariant.
    With a mapping and keyword arguments whose keys are distinct within
    each, a keyword's value wins over the mapping's. *)
Theorem init_outcome (args : option arg) (kwargs : mapping) :
  match dict args kwargs with
  | inl e => __init__ args kwargs = Raise e empty
  | inr items =>
      ∃ s, __init__ args kwargs = Return tt s ∧
           inv s ∧
           (∀ k, _dict s !! k = mapping_get k items) ∧
           (∀ m, args = Some (Mapping m) → NoDup m.*1 → NoDup kwargs.*1 →
                 ∀ k, _dict s !! k = match mapping_get k kwargs with
                                     | Some v => Some v
                                     | None => mapping_get k m
                                     end)
  end.
Proof. apply init_by_dict. Qed.

(** X16. [fromkeys(iterable, value)] always returns a container that
    satisfies the invariant and maps exactly the keys of the iterable, each
    to [value]. *)
Theorem fromkeys_outcome (iterable : list string) (value : Z) :
  ∃ s, fromkeys iterable value = Return tt s ∧
       inv s ∧
       ∀ k, _dict s !! k = if decide (k ∈ iterable) then Some value else None.
Proof.
  assert (∀ acc,
            dict_of_iterable ((λ key, Tuple [Str key; Int value]) <$> iterable) acc
            = inr (foldl (λ c k, mapping_set k value c) acc iterable)) as Hdi.
  { induction iterable as [|k ks IH]; intros acc; simpl; [done|]. apply IH. }
  assert (∀ acc k,
            mapping_get k (foldl (λ c k, mapping_set k value c) acc iterable)
            = if decide (k ∈ iterable) then Some value else mapping_get k acc)
    as Hget.
  { clear Hdi. induction iterable as [|j ks IH]; intros acc k; cbn [foldl].
    - destruct (decide (k ∈ [])) as [H|_]; [by apply elem_of_nil in H|done].
    - rewrite IH, mapping_get_set.
      destruct (decide (k ∈ ks)) as [Hin|Hn].
      + destruct (decide (k ∈ j :: ks)) as [_|Hn]; [done|].
        exfalso. apply Hn. by right.
      + destruct (String.eqb_spec k j) as [->|Hne].
        * destruct (decide (j ∈ j :: ks)) as [_|Hn']; [done|].
          exfalso. apply Hn'. by left.
        * destruct (decide (k ∈ j :: ks)) as [Hin|_]; [|done].
          apply elem_of_cons in Hin as [?|?]; done. }
  pose proof (init_by_dict
    (Some (Iterable ((λ key, Tuple [Str key; Int value]) <$> iterable))) []) as H.
  unfold dict in H. rewrite Hdi in H. cbn [foldl] in H.
  destruct H as (s & Hr & Hi & Hl & _).
  exists s. split; [exact Hr|]. split; [done|].
  intros k. by rewrite Hl, Hget.
Qed.

(** ** In-place merges against copy-producing merges *)

Section MergeSemantics.

Implicit Types (s : PriorityDict.t) (that : mapping) (d : gmap string Z).

(** A loop whose body keeps the invariant and changes the dict by [g]
    folds [g] over the dict. *)
Lemma for_each_run {A} (xs : list A) (body : A → M PriorityDict.t unit)
    (g : gmap string Z → A → gmap string Z) s :
  (∀ x s, inv s →
     ∃ s', body x s = Return tt s' ∧ inv s' ∧ _dict s' = g (_dict s) x) →
  inv s →
  ∃ s', for_each xs body s = Return tt s' ∧ inv s' ∧
        _dict s' = foldl g (_dict s) xs.
Proof.
  intros Hbody. revert s. induction xs as [|x xs IH]; intros s Hi.
  - by exists s.
  - cbn [for_each foldl]. unfold mbind at 1, M_bind at 1.
    destruct (Hbody x s Hi) as (s1 & -> & Hi1 & Hd1).
    destruct (IH s1 Hi1) as (s' & Hrun & Hi' & Hd').
    exists s'. split; [done|]. split; [done|]. by rewrite Hd', Hd1.
Qed.

Lemma assign_run s key (f : Z → Z) (value : Z) :
  inv s →
  ∃ s',
    (present ← dict_contains key;
     value ← (if present : bool then
                old_value ← dict_getitem key;
                list_remove (old_value, key) ;;
                mret (f old_value)
              else mret value);
     dict_setitem key value ;;
     list_add (value, key)) s = Return tt s' ∧ inv s' ∧
    _dict s' = match _dict s !! key with
               | Some old => <[key := f old]> (_dict s)
               | None => <[key := value]> (_dict s)
               end.
Proof.
  intros Hi. prims.
  destruct (_dict s !! key) as [old|] eqn:E; simpl.
  - rewrite E. simpl.
    destruct (inv_replace s key old (f old) Hi E) as (l' & -> & Hi'). simpl.
    by eexists.
  - eexists. split; [done|]. split; [by apply inv_add|done].
Qed.

Lemma reassign_run s key (f : Z → Z) :
  inv s →
  ∃ s',
    (present ← dict_contains key;
     if present : bool then
       old_value ← dict_getitem key;
       list_remove (old_value, key) ;;
       let value := f old_value in
       dict_setitem key value ;;
       list_add (value, key)
     else mret tt) s = Return tt s' ∧ inv s' ∧
    _dict s' = match _dict s !! key with
               | Some old => <[key := f old]> (_dict s)
               | None => _dict s
               end.
Proof.
  intros Hi. prims.
  destruct (_dict s !! key) as [old|] eqn:E; simpl; [|by exists s].
  rewrite E. simpl.
  destruct (inv_replace s key old (f old) Hi E) as (l' & -> & Hi'). simpl.
  by eexists.
Qed.

(** On keys that the dict lacks, a union merge of an operand with distinct
    keys is a plain [dict.update]. *)
Lemma foldl_union_fresh (f : Z → Z → Z) that d :
  NoDup that.*1 → (∀ k, k ∈ that.*1 → d !! k = None) →
  foldl (union_step f) d that = foldl (λ acc kv, <[kv.1 := kv.2]> acc) d that.
Proof.
  revert d. induction that as [|[j w] that IH]; intros d Hnd Hfresh; [done|].
  apply NoDup_cons in Hnd as [Hj Hnd]. cbn [foldl].
  unfold union_step at 2. cbn [fst snd].
  rewrite (Hfresh j) by (rewrite fmap_cons; left).
  apply IH; [done|]. intros k Hk.
  rewrite lookup_insert_ne; [apply Hfresh; rewrite fmap_cons; by right|].
  intros ->. done.
Qed.

Lemma foldl_inter_empty (f : Z → Z → Z) that :
  foldl (inter_step f) ∅ that = ∅.
Proof.
  induction that as [|kv that IH]; [done|].
  cbn [foldl]. unfold inter_step at 2. by rewrite lookup_empty.
Qed.

Lemma lookup_union (f : Z → Z → Z) that d k :
  NoDup that.*1 →
  foldl (union_step f) d that !! k
  = match mapping_get k that with
    | Some w => Some (match d !! k with Some v => f v w | None => w end)
    | None => d !! k
    end.
Proof.
  revert d. induction that as [|[j w] that IH]; intros d Hnd; [done|].
  apply NoDup_cons in Hnd as [Hj Hnd]. cbn [foldl mapping_get].
  rewrite IH by done. unfold union_step. cbn [fst snd].
  destruct (String.eqb_spec k j) as [->|Hne].
  - rewrite (proj2 (mapping_get_None j that) Hj).
    destruct (d !! j); by rewrite lookup_insert_eq.
  - destruct (d !! j); by rewrite lookup_insert_ne by done.
Qed.

Lemma lookup_inter (f : Z → Z → Z) that d k :
  NoDup that.*1 →
  foldl (inter_step f) d that !! k
  = match d !! k with
    | Some v => Some (match mapping_get k that with
                      | Some w => f v w
                      | None => v
                      end)
    | None => None
    end.
Proof.
  revert d. induction that as [|[j w] that IH]; intros d Hnd.
  - simpl. by destruct (d !! k).
  - apply NoDup_cons in Hnd as [Hj Hnd]. cbn [foldl mapping_get].
    rewrite IH by done. unfold inter_step. cbn [fst snd].
    destruct (String.eqb_spec k j) as [->|Hne].
    + rewrite (proj2 (mapping_get_None j that) Hj).
      destruct (d !! j) as [v|] eqn:E.
      * by rewrite lookup_insert_eq.
      * by rewrite E.
    + destruct (d !! j); [by rewrite lookup_insert_ne by done|done].
Qed.

Lemma rebuilt_unique s d : inv s → _dict s = d → s = rebuilt d.
Proof.
  intros Hi <-. apply inv_unique; [done|apply inv_rebuild|done].
Qed.

Ltac inplace_cases s Hi :=
  unfold mbind at 1, M_bind at 1, dict_len at 1;
  let En := fresh "En" in
  destruct (Z.of_nat (size (_dict s)) =? 0) eqn:En;
  [apply Z.eqb_eq in En;
   assert (s = empty) as -> by (apply empty_self; [exact Hi|exact En])
  |destruct (_ <? _);
   [unfold mbind at 1, M_bind at 1, list_clear at 1, lift_list;
    cbn [_dict _list]; unfold mbind at 1, M_bind at 1|]].

Ltac incremental_loop s g step :=
  match goal with
  | |- for_each ?xs ?b s = _ =>
      let s' := fresh "s'" in
      let Hrun := fresh "Hrun" in
      let Hi' := fresh "Hi'" in
      let Hd' := fresh "Hd'" in
      destruct (for_each_run xs b g s) as (s' & Hrun & Hi' & Hd');
      [intros kv s0 Hs0; step kv s0 Hs0|done|];
      [etrans; [exact Hrun|]; f_equal; by apply rebuilt_unique]
  end.

Lemma iadd_run s that :
  inv s → NoDup that.*1 →
  __iadd__ that s = Return tt (rebuilt (foldl (union_step Z.add) (_dict s) that)).
Proof.
  intros Hi Hnd. unfold __iadd__. inplace_cases s Hi.
  - rewrite foldl_union_fresh; [|done|intros k _; apply lookup_empty].
    unfold mbind at 1, M_bind at 1. unfold empty. by rewrite dict_update_run.
  - by rewrite (union_loop_run Z.add).
  - incremental_loop s (union_step Z.add)
      ltac:(fun kv s0 Hs0 =>
              exact (assign_run s0 kv.1 (λ old, old + kv.2) kv.2 Hs0)).
Qed.


Lemma isub_run s that :
  inv s →
  __isub__ that s = Return tt (rebuilt (foldl (inter_step Z.sub) (_dict s) that)).
Proof.
  intros Hi. unfold __isub__. inplace_cases s Hi.
  - unfold empty at 2. cbn [_dict]. by rewrite foldl_inter_empty.
  - by rewrite (inter_loop_run Z.sub).
  - incremental_loop s (inter_step Z.sub)
      ltac:(fun kv s0 Hs0 =>
              exact (reassign_run s0 kv.1 (λ old, old - kv.2) Hs0)).
Qed.


End MergeSemantics.



(** X18. For an operand with distinct keys, [__add__] and [__or__] return
    containers that satisfy the invariant and hold the union of the keys:
    a key of both gets the sum, respectively the maximum, of the two
    values; a key of one side keeps that side's value. *)
Theorem sum_max_per_key (s : PriorityDict.t) (that : mapping) :
  NoDup that.*1 →
  ∃ R R',
    __add__ s that = Return tt R ∧ __or__ s that = Return tt R' ∧
    inv R ∧ inv R' ∧
    ∀ k,
      _dict R !! k = match mapping_get k that with
                     | Some w => Some (match _dict s !! k with
                                       | Some v => v + w
                                       | None => w
                                       end)
                     | None => _dict s !! k
                     end ∧
      _dict R' !! k = match mapping_get k that with
                      | Some w => Some (match _dict s !! k with
                                        | Some v => Z.max v w
                                        | None => w
                                        end)
                      | None => _dict s !! k
                      end.
Proof.
  intros Hnd. eexists _, _.
  split; [apply add_run|]. split; [apply or_run|].
  split; [apply inv_rebuild|]. split; [apply inv_rebuild|].
  intros k. cbn [_dict rebuilt]. by rewrite !lookup_union by done.
Qed.

Lemma sum_max_per_key_witness :
  let s := final (count ["a"; "b"; "a"]) in
  let that := [("b", 4); ("c", 1)] in
  NoDup that.*1 ∧
  ∃ R, __add__ s that = Return tt R ∧ _dict R !! "b" = Some 5.
Proof.
  intros s that.
  assert (NoDup that.*1) as Hnd.
  { apply (bool_decide_unpack _). vm_compute. reflexivity. }
  split; [exact Hnd|].
  destruct (sum_max_per_key s that Hnd) as (R & R' & H1 & _ & _ & _ & H2).
  exists R. split; [exact H1|]. exact (proj1 (H2 "b")).
Defined.

(** X19. For an operand with distinct keys, [__sub__] and [__and__] return
    containers that satisfy the invariant and hold exactly the keys of
    [self]: a key that the operand has too gets the difference,
    respectively the minimum; any other key of [self] keeps its value, and
    no key of the operand alone is added. *)
Theorem difference_min_per_key (s : PriorityDict.t) (that : mapping) :
  NoDup that.*1 →
  ∃ R R',
    __sub__ s that = Return tt R ∧ __and__ s that = Return tt R' ∧
    inv R ∧ inv R' ∧
    ∀ k,
      _dict R !! k = match _dict s !! k with
                     | Some v => Some (match mapping_get k that with
                                       | Some w => v - w
                                       | None => v
                                       end)
                     | None => None
                     end ∧
      _dict R' !! k = match _dict s !! k with
                      | Some v => Some (match mapping_get k that with
                                        | Some w => Z.min v w
                                        | None => v
                                        end)
                      | None => None
                      end.
Proof.
  intros Hnd. eexists _, _.
  split; [apply sub_run|]. split; [apply and_run|].
  split; [apply inv_rebuild|]. split; [apply inv_rebuild|].
  intros k. cbn [_dict rebuilt]. by rewrite !lookup_inter by done.
Qed.

Lemma difference_min_per_key_witness :
  let s := final (count ["a"; "b"; "a"]) in
  let that := [("b", 4); ("c", 1)] in
  NoDup that.*1 ∧
  ∃ R, __sub__ s that = Return tt R ∧ _dict R !! "c" = None.
Proof.
  intros s that.
  assert (NoDup that.*1) as Hnd.
  { apply (bool_decide_unpack _). vm_compute. reflexivity. }
  split; [exact Hnd|].
  destruct (difference_min_per_key s that Hnd) as (R & R' & H1 & _ & _ & _ & H2).
  exists R. split; [exact H1|]. exact (proj1 (H2 "c")).
Defined.

(** ** Counters, comparisons and disjointness *)

Section Counters.

Implicit Types (s : PriorityDict.t) (xs : list string) (k : string).

Lemma NoDup_Counter_elements (acc : mapping) xs :
  NoDup acc.*1 → NoDup (Counter_update acc (Elements xs)).*1.
Proof.
  intros Hnd. unfold Counter_update.
  by apply (NoDup_foldl_mapping_set
              (λ c k, (k, default 0 (mapping_get k c) + 1))).
Qed.

Lemma mapping_get_Counter_elements (acc : mapping) xs k :
  mapping_get k (Counter_update acc (Elements xs))
  = if Z.of_nat (length (filter (λ x, x = k) xs)) =? 0
    then mapping_get k acc
    else Some (default 0 (mapping_get k acc)
               + Z.of_nat (length (filter (λ x, x = k) xs))).
Proof.
  unfold Counter_update. revert acc.
  induction xs as [|x xs IH]; intros acc; [done|].
  cbn [foldl]. rewrite IH, mapping_get_set.
  destruct (String.eqb_spec k x) as [->|Hne].
  - rewrite filter_cons_True by done. cbn [length].
    set (n := length (filter (λ y, y = x) xs)).
    destruct (Z.eqb_spec (Z.of_nat (S n)) 0) as [?|_]; [lia|].
    destruct (Z.eqb_spec (Z.of_nat n) 0) as [E|E];
      destruct (mapping_get x acc); simpl; f_equal; lia.
  - rewrite filter_cons_False by congruence. done.
Qed.

End Counters.

(** X20. Under the invariant, [tally] over an iterable of elements returns
    and keeps the invariant; every key gains the number of its occurrences
    in the iterable, a key that was absent starting from zero, and a key
    that does not occur is left as it was. *)
Theorem tally_elements (s : PriorityDict.t) (xs : list string) :
  inv s →
  ∃ s', tally (Some (Elements xs)) [] s = Return tt s' ∧
        inv s' ∧
        ∀ k, _dict s' !! k
             = if Z.of_nat (length (filter (λ x, x = k) xs)) =? 0
               then _dict s !! k
               else Some (default 0 (_dict s !! k)
                          + Z.of_nat (length (filter (λ x, x = k) xs))).
Proof.
  intros Hi. unfold tally, Counter_new.
  assert (NoDup (Counter_update [] (Elements xs)).*1) as Hnd
    by (apply NoDup_Counter_elements; constructor).
  rewrite iadd_run by done.
  eexists. split; [done|]. split; [apply inv_rebuild|].
  intros k. cbn [_dict rebuilt]. rewrite lookup_union by done.
  rewrite mapping_get_Counter_elements. cbn [mapping_get default].
  destruct (_ =? 0); [done|]. f_equal. destruct (_dict s !! k); simpl; lia.
Qed.

Lemma tally_elements_witness :
  let s := final (count ["a"; "b"; "a"]) in
  inv s ∧
  ∃ s', tally (Some (Elements ["b"; "c"; "b"])) [] s = Return tt s' ∧
        _dict s' !! "b" = Some 3.
Proof.
  intros s. split; [apply count_inv|].
  destruct (tally_elements s ["b"; "c"; "b"] (count_inv _)) as (s' & H1 & _ & H2).
  exists s'. split; [exact H1|]. exact (H2 "b").
Defined.

(** X21. Under the invariant, [subtract] over an iterable of elements
    returns and keeps the invariant; every key that was present loses the
    number of its occurrences in the iterable (its value may become zero or
    negative, the key stays), and no key is added. *)
Theorem subtract_elements (s : PriorityDict.t) (xs : list string) :
  inv s →
  ∃ s', subtract (Elements xs) s = Return tt s' ∧
        inv s' ∧
        ∀ k, _dict s' !! k
             = (λ v, v - Z.of_nat (length (filter (λ x, x = k) xs)))
                 <$> _dict s !! k.
Proof.
  intros Hi. unfold subtract, Counter_new.
  assert (NoDup (Counter_update [] (Elements xs)).*1) as Hnd
    by (apply NoDup_Counter_elements; constructor).
  rewrite isub_run by done.
  eexists. split; [done|]. split; [apply inv_rebuild|].
  intros k. cbn [_dict rebuilt]. rewrite lookup_inter by done.
  rewrite mapping_get_Counter_elements. cbn [mapping_get default].
  destruct (_dict s !! k) as [v|]; [|done]. simpl. f_equal.
  destruct (Z.eqb_spec (Z.of_nat (length (filter (λ x, x = k) xs))) 0) as [->|_];
    lia.
Qed.

Lemma subtract_elements_witness :
  let s := final (count ["a"; "b"; "a"]) in
  inv s ∧
  ∃ s', subtract (Elements ["b"; "c"; "b"]) s = Return tt s' ∧
        _dict s' !! "b" = Some (-1) ∧ _dict s' !! "c" = None.
Proof.
  intros s. split; [apply count_inv|].
  destruct (subtract_elements s ["b"; "c"; "b"] (count_inv _))
    as (s' & H1 & _ & H2).
  exists s'. split; [exact H1|]. split; [exact (H2 "b")|exact (H2 "c")].
Defined.

Section Comparisons.

Implicit Types (s : PriorityDict.t) (that : gmap string Z).

Lemma le_spec s that :
  __le__ s that = true ↔
  ∀ k v, _dict s !! k = Some v → ∃ w, that !! k = Some w ∧ v ≤ w.
Proof.
  unfold __le__. rewrite andb_true_iff, forallb_forall. split.
  - intros [_ Hall] k v Hk.
    specialize (Hall (k, v)). cbn [fst snd] in Hall.
    destruct (that !! k) as [w|].
    + exists w. split; [done|]. apply Z.leb_le, Hall.
      apply list_elem_of_In. by apply elem_of_map_to_list.
    + discriminate Hall. apply list_elem_of_In. by apply elem_of_map_to_list.
  - intros Hall. split.
    + apply Z.leb_le, inj_le. rewrite <- !size_dom.
      apply subseteq_size. intros k Hk.
      apply elem_of_dom in Hk as [v Hk]. apply elem_of_dom.
      destruct (Hall k v Hk) as (w & Hw & _). by exists w.
    + intros [k v] Hin. apply list_elem_of_In, elem_of_map_to_list in Hin.
      cbn [fst snd]. destruct (Hall k v Hin) as (w & -> & Hle).
      by apply Z.leb_le.
Qed.

Lemma ge_spec s that :
  __ge__ s that = true ↔
  ∀ k w, that !! k = Some w → ∃ v, _dict s !! k = Some v ∧ w ≤ v.
Proof.
  unfold __ge__. rewrite andb_true_iff, forallb_forall. split.
  - intros [_ Hall] k w Hk.
    specialize (Hall (k, w)). cbn [fst snd] in Hall.
    destruct (_dict s !! k) as [v|].
    + exists v. split; [done|]. apply Z.ge_le, Z.geb_ge, Hall.
      apply list_elem_of_In. by apply elem_of_map_to_list.
    + discriminate Hall. apply list_elem_of_In. by apply elem_of_map_to_list.
  - intros Hall. split.
    + apply Z.geb_ge, Z.le_ge, inj_le. rewrite <- !size_dom.
      apply subseteq_size. intros k Hk.
      apply elem_of_dom in Hk as [w Hk]. apply elem_of_dom.
      destruct (Hall k w Hk) as (v & Hv & _). by exists v.
    + intros [k w] Hin. apply list_elem_of_In, elem_of_map_to_list in Hin.
      cbn [fst snd]. destruct (Hall k w Hin) as (v & -> & Hle).
      apply Z.geb_ge. lia.
Qed.

End Comparisons.

(** X22. [self <= that] holds exactly when every key of [self] is a key of
    [that] with a value at least as large; the length test of the code
    follows from the rest.  [self >= that] is the mirror image. *)
Theorem le_ge_pointwise (s : PriorityDict.t) (that : gmap string Z) :
  (__le__ s that = true ↔
   ∀ k v, _dict s !! k = Some v → ∃ w, that !! k = Some w ∧ v ≤ w) ∧
  (__ge__ s that = true ↔
   ∀ k w, that !! k = Some w → ∃ v, _dict s !! k = Some v ∧ w ≤ v).
Proof. split; [apply le_spec|apply ge_spec]. Qed.

(** X23. The comparisons agree with one another: [<=] is reflexive, [<=]
    together with [>=] is [==], [<] is [<=] without [==], [>] and [>=] of
    two containers are [<] and [<=] with the sides exchanged, and [!=] is
    the negation of [==]. *)
Theorem comparisons_order (s s' : PriorityDict.t) (that : gmap string Z) :
  __le__ s (_dict s) = true ∧
  (__le__ s that && __ge__ s that = __eq__ s that) ∧
  (__lt__ s that = __le__ s that && negb (__eq__ s that)) ∧
  (__gt__ s (_dict s') = __lt__ s' (_dict s)) ∧
  (__ge__ s (_dict s') = __le__ s' (_dict s)) ∧
  (__ne__ s that = negb (__eq__ s that)).
Proof.
  assert (∀ a b, __ge__ a (_dict b) = __le__ b (_dict a)) as Hmirror.
  { intros a b. apply eq_true_iff_eq. rewrite le_spec, ge_spec. done. }
  split; [|split; [|split; [|split; [|split]]]].
  - apply le_spec. intros k v Hk. exists v. split; [done|lia].
  - apply eq_true_iff_eq. unfold __eq__.
    rewrite andb_true_iff, le_spec, ge_spec, bool_decide_eq_true. split.
    + intros [Hle Hge]. apply map_eq. intros k.
      destruct (_dict s !! k) as [v|] eqn:E.
      * destruct (Hle k v E) as (w & Hw & Hvw).
        destruct (Hge k w Hw) as (v' & Hv' & Hwv).
        rewrite Hw. f_equal. rewrite E in Hv'. injection Hv' as <-. lia.
      * destruct (that !! k) as [w|] eqn:E'; [|done].
        destruct (Hge k w E') as (v & Hv & _). congruence.
    + intros <-. split; intros k v Hk; exists v; (split; [done|lia]).
  - unfold __lt__, __eq__. apply andb_comm.
  - unfold __gt__, __lt__. rewrite Hmirror. f_equal. f_equal.
    apply bool_decide_ext. split; congruence.
  - apply Hmirror.
  - done.
Qed.

(** X24. [isdisjoint] answers true exactly when no key that iterating the
    operand yields is a key of the container; values play no part. *)
Theorem isdisjoint_spec (s : PriorityDict.t) (that : list string) :
  isdisjoint s that = true ↔ ∀ k, k ∈ that → _dict s !! k = None.
Proof.
  unfold isdisjoint. rewrite negb_true_iff, <- not_true_iff_false.
  rewrite existsb_exists. unfold __contains__. split.
  - intros Hn k Hk. destruct (_dict s !! k) as [v|] eqn:E; [|done].
    exfalso. apply Hn. exists k. split; [by apply list_elem_of_In|].
    prims. by rewrite E.
  - intros Hall (k & Hin & Hc). apply list_elem_of_In in Hin.
    specialize (Hall k Hin). prims. by rewrite Hall in Hc.
Qed.

(** ** Counting and slices of the positional view *)

(** X25. [count] over an iterable of elements always returns a container
    that satisfies the invariant and maps each element to the number of its
    occurrences, and nothing else; [elements()] of that container holds
    every element as often as the iterable did. *)
Theorem count_then_elements (xs : list string) :
  ∃ s, count xs = Return tt s ∧
       inv s ∧
       (∀ k, _dict s !! k
             = if Z.of_nat (length (filter (λ x, x = k) xs)) =? 0 then None
               else Some (Z.of_nat (length (filter (λ x, x = k) xs)))) ∧
       ∀ k, length (filter (λ x, x = k) (elements s))
            = length (filter (λ x, x = k) xs).
Proof.
  pose proof (init_by_dict (Some (Mapping (Counter xs))) []) as H.
  unfold dict in H. cbn [foldl] in H.
  destruct H as (s & Hr & Hi & Hl & _).
  assert (NoDup (Counter xs).*1) as Hnd
    by (apply (NoDup_Counter_elements [] xs); constructor).
  assert (∀ k, _dict s !! k
               = if Z.of_nat (length (filter (λ x, x = k) xs)) =? 0 then None
                 else Some (Z.of_nat (length (filter (λ x, x = k) xs)))) as Hd.
  { intros k. rewrite Hl, mapping_get_foldl_set by done.
    change (Counter xs) with (Counter_update [] (Elements xs)).
    rewrite mapping_get_Counter_elements. cbn [mapping_get].
    by destruct (_ =? 0). }
  exists s. split; [exact Hr|]. split; [done|]. split; [done|].
  intros k. rewrite (elements_length_filter s k Hi), Hd.
  destruct (Z.eqb_spec (Z.of_nat (length (filter (λ x, x = k) xs))) 0); lia.
Qed.

Section IlocSlices.

Implicit Types (s : PriorityDict.t) (sl : slice).

Lemma slice_positions_None sl len :
  slice_positions sl len = None → default 1 (step sl) = 0.
Proof.
  unfold slice_positions, slice_indices.
  destruct (Z.eqb_spec (default 1 (step sl)) 0); [done|].
  by destruct (default 1 (step sl) <? 0).
Qed.

Lemma iloc_getitem_slice_run s sl :
  _IlocWrapper.__getitem__ (SliceOf sl) s
  = match slice_positions sl (Z.of_nat (length (_list s))) with
    | Some ps => Return (inr (select ps (_list s)).*2) s
    | None => Raise ValueError s
    end.
Proof.
  unfold _IlocWrapper.__getitem__, list_getslice, lift_list,
    SortedList.getslice, select.
  unfold mbind, M_bind.
  destruct (slice_positions sl (Z.of_nat (length (_list s)))); [|done].
  cbn. by destruct s.
Qed.

End IlocSlices.

(** X26. Under the invariant, reading and deleting a slice of the
    positional view agree: both fail with [ValueError], changing nothing,
    exactly when the slice's step is zero; otherwise [iloc[slice]] returns
    keys of the container without changing it, and [del iloc[slice]]
    removes exactly those keys, keeps every other entry, and keeps the
    invariant. *)
Theorem iloc_slice_get_then_delete (s : PriorityDict.t) (sl : slice) :
  inv s →
  match _IlocWrapper.__getitem__ (SliceOf sl) s with
  | Return (inr ks) s1 =>
      s1 = s ∧ default 1 (step sl) ≠ 0 ∧
      (∀ k, k ∈ ks → is_Some (_dict s !! k)) ∧
      ∃ s', _IlocWrapper.__delitem__ (SliceOf sl) s = Return tt s' ∧
            inv s' ∧
            ∀ k, _dict s' !! k = if decide (k ∈ ks) then None else _dict s !! k
  | Return (inl _) _ => False
  | Raise e s1 =>
      e = ValueError ∧ s1 = s ∧ default 1 (step sl) = 0 ∧
      _IlocWrapper.__delitem__ (SliceOf sl) s = Raise ValueError s
  end.
Proof.
  intros Hi. rewrite iloc_getitem_slice_run.
  pose proof (delete_slice_run s sl Hi) as H. revert H.
  change (sel ← list_getslice sl;
          for_each sel (λ x, dict_delitem x.2) ;; list_delslice sl)
    with (_IlocWrapper.__delitem__ (SliceOf sl)).
  destruct (_IlocWrapper.__delitem__ (SliceOf sl) s) as [[] s'|e s'].
  - intros (Hi' & ps & Hps & ->). rewrite Hps.
    split; [done|]. split.
    { unfold slice_positions, slice_indices in Hps.
      by destruct (Z.eqb_spec (default 1 (step sl)) 0). }
    destruct (slice_positions_spec sl _ ps (Nat2Z.is_nonneg _) Hps) as [Hnd Hb].
    split.
    { intros k Hk. apply list_elem_of_fmap in Hk as ([v j] & -> & Hin).
      apply elem_of_select in Hin as (i & Hin & _);
        [|intros p Hp; by apply Hb].
      exists v. apply Hi. by apply list_elem_of_lookup_2 in Hin. }
    eexists. split; [done|]. split; [done|].
    intros k. cbn [_dict]. apply lookup_delete_keys.
  - intros (-> & -> & Hps). rewrite Hps.
    split; [done|]. split; [done|]. split; [|done].
    by apply slice_positions_None in Hps.
Qed.

Lemma iloc_slice_get_then_delete_witness :
  let s := final (count ["a"; "b"; "a"; "c"; "c"; "c"]) in
  inv s ∧
  _IlocWrapper.__getitem__ (SliceOf (Slice None (Some 2) None)) s
  = Return (inr ["b"; "a"]) s ∧
  ∃ s', _IlocWrapper.__delitem__ (SliceOf (Slice None (Some 2) None)) s
        = Return tt s' ∧
        _dict s' !! "a" = None ∧ _dict s' !! "c" = Some 3.
Proof.
  intros s. split; [apply count_inv|].
  pose proof (iloc_slice_get_then_delete s (Slice None (Some 2) None)
                (count_inv _)) as H.
  assert (_IlocWrapper.__getitem__ (SliceOf (Slice None (Some 2) None)) s
          = Return (inr ["b"; "a"]) s) as E by (vm_compute; reflexivity).
  rewrite E in H. split; [exact E|].
  destruct H as (_ & _ & _ & s' & H1 & _ & H2).
  exists s'. split; [exact H1|]. split; [exact (H2 "a")|exact (H2 "c")].
Defined.
